(** * Verification of the AKI dataset-extraction pipeline

    A shallow embedding of [extract-dataset.py]: the KDIGO test [has_aki],
    the baseline table [get_baseline], the stay imputer [impute_holes], the
    labeler [add_aki_labels], the outlier clipper [transform_outliers], the
    feature aggregator [partition_rows], the demographic joiner
    [add_patient_info] and the driver [extract_dataset] that chains them.

    Numbers.  A table cell holds a float that is either a finite number or
    NaN.  A finite number is modelled by the canonical rational [Qc] of its
    decimal text, so that equality of cells is Leibniz equality.  The KDIGO
    test compares values with the results of float arithmetic, and there
    rounding decides the answer at ordinary data ([1.4 - 1.1 < 0.3] and
    [1.2 < 1.5 * 0.8] in doubles): its operands are rounded to binary64 and
    so are its difference and its product ([float64], [float_sub],
    [float_mul], [float_ge]).  The means and the percentiles of the other
    stages are computed on the rationals; the infinities of IEEE floats are
    outside the model.  Integers (ids, ages, flags) are [Z]. *)

From Stdlib Require Import QArith Qcanon Qround Qpower ZArith Lia Lqa Ascii String
  DecimalString DecimalPos DecimalZ.
From stdpp Require Import base option list numbers strings gmap sorting.

#[local] Set Warnings "-clear-no-such-hyp".

Open Scope Z_scope.

(** ** Cells: floats with NaN *)

Inductive cell := NaN | Fin (q : Qc).

#[global] Instance cell_inhabited : Inhabited cell := populate NaN.
#[global] Instance cell_eq_dec : EqDecision cell.
Proof. solve_decision. Defined.

(** [np.isfinite] *)
Definition isfinite (c : cell) : bool :=
  match c with NaN => false | Fin _ => true end.

Definition Qc_leb (x y : Qc) : bool := bool_decide (x ≤ y)%Qc.
Definition Qc_ltb (x y : Qc) : bool := bool_decide (x < y)%Qc.

(** Comparisons with NaN are false, arithmetic with NaN is NaN; the
    difference and the product are those of the rationals. *)
Definition cell_ge (x y : cell) : bool :=
  match x, y with Fin a, Fin b => Qc_leb b a | _, _ => false end.
Definition cell_gt (x y : cell) : bool :=
  match x, y with Fin a, Fin b => Qc_ltb b a | _, _ => false end.
Definition cell_lt (x y : cell) : bool := cell_gt y x.
Definition cell_sub (x y : cell) : cell :=
  match x, y with Fin a, Fin b => Fin (a - b)%Qc | _, _ => NaN end.
Definition cell_mul (x y : cell) : cell :=
  match x, y with Fin a, Fin b => Fin (a * b)%Qc | _, _ => NaN end.

(** Decimal literals of the source. *)
Definition dec (x : Q) : Qc := Q2Qc x.

(** ** Doubles

    The value of a decimal text or literal as the program holds it: the
    IEEE 754 binary64 number nearest to it, ties to the even mantissa, with
    53 bits of precision and gradual underflow below [2^-1022]. *)

(** [floor (log2 q)] for a positive [q] *)
Definition ilog2 (q : Q) : Z :=
  let k := Z.log2 (Qnum q) - Z.log2 (Z.pos (Qden q)) in
  if Qle_bool (2 ^ k) q then k else k - 1.

Definition round_half_even (q : Q) : Z :=
  let f := Qfloor q in
  match (q - inject_Z f ?= 1 # 2)%Q with
  | Lt => f
  | Gt => f + 1
  | Eq => if Z.even f then f else f + 1
  end.

Definition round_pos (q : Q) : Q :=
  let e := Z.max (ilog2 q - 52) (-1074) in
  (inject_Z (round_half_even (q / 2 ^ e)) * 2 ^ e)%Q.

Definition float64Q (q : Q) : Q :=
  match Qnum q with
  | Z0 => 0%Q
  | Zpos _ => round_pos q
  | Zneg _ => (- round_pos (- q))%Q
  end.

Definition float64 (q : Qc) : Qc := Q2Qc (float64Q q).

(** A cell as a double, and [x >= y], [x - y] and [x * y] on doubles: the
    exact result of the operation on the two doubles, rounded. *)
Definition as_double (c : cell) : cell :=
  match c with Fin q => Fin (float64 q) | NaN => NaN end.

Definition float_ge (x y : cell) : bool :=
  cell_ge (as_double x) (as_double y).
Definition float_sub (x y : cell) : cell :=
  as_double (cell_sub (as_double x) (as_double y)).
Definition float_mul (x y : cell) : cell :=
  as_double (cell_mul (as_double x) (as_double y)).

(** ** Exceptions *)

Inductive exn :=
  AssertionError | AttributeError | IndexError | KeyError | ValueError.

Inductive res (A : Type) := Ok (a : A) | Raise (e : exn).
Arguments Ok {A} a.
Arguments Raise {A} e.

#[global] Instance res_ret : MRet res := @Ok.
#[global] Instance res_bind : MBind res := λ A B f m,
  match m with Ok a => f a | Raise e => Raise e end.
#[global] Instance res_fmap : FMap res := λ A B f m,
  match m with Ok a => Ok (f a) | Raise e => Raise e end.

(** [l[i]] on a Python list or array: [IndexError] out of range. *)
Definition index {A} (l : list A) (i : nat) : res A :=
  match l !! i with Some a => Ok a | None => Raise IndexError end.

(** ** The baseline table and the KDIGO test *)

Definition get_baseline (black age gender : Z) : Qc :=
  if bool_decide (20 ≤ age ≤ 24) then
    if bool_decide (black = 1)
    then (if bool_decide (gender = 1) then dec 1.5 else dec 1.2)
    else (if bool_decide (gender = 1) then dec 1.3 else dec 1.0)
  else if bool_decide (25 ≤ age ≤ 29) then
    if bool_decide (black = 1)
    then (if bool_decide (gender = 1) then dec 1.5 else dec 1.1)
    else (if bool_decide (gender = 1) then dec 1.2 else dec 1.0)
  else if bool_decide (30 ≤ age ≤ 39) then
    if bool_decide (black = 1)
    then (if bool_decide (gender = 1) then dec 1.4 else dec 1.1)
    else (if bool_decide (gender = 1) then dec 1.2 else dec 0.9)
  else if bool_decide (40 ≤ age ≤ 54) then
    if bool_decide (black = 1)
    then (if bool_decide (gender = 1) then dec 1.3 else dec 1.0)
    else (if bool_decide (gender = 1) then dec 1.1 else dec 0.9)
  else
    if bool_decide (black = 1)
    then (if bool_decide (gender = 1) then dec 1.2 else dec 0.9)
    else (if bool_decide (gender = 1) then dec 1.0 else dec 0.8).

(** [has_aki(diff=None, scr=None, black=None, age=None, gender=None)]:
    an argument left at its default [None] is [None] here. *)
Definition has_aki (diff scr : option cell) (black age gender : option Z)
    : res bool :=
  match diff with
  | Some d => Ok (float_ge d (Fin (dec 0.3)))
  | None =>
    match scr with
    | Some s =>
      match black with
      | None => Raise AssertionError
      | Some b =>
        match age with
        | None => Raise AssertionError
        | Some a =>
          match gender with
          | None => Raise AssertionError
          | Some g =>
            let baseline := get_baseline b a g in
            Ok (float_ge s (float_mul (Fin (dec 1.5)) (Fin baseline)))
          end
        end
      end
    | None => Raise AssertionError
    end
  end.

(** The table of the specification, by age bracket, race flag and sex. *)
Inductive bracket := B20_24 | B25_29 | B30_39 | B40_54 | B55_up.

Definition age_bracket (age : Z) : option bracket :=
  if age <? 20 then None
  else if age <=? 24 then Some B20_24
  else if age <=? 29 then Some B25_29
  else if age <=? 39 then Some B30_39
  else if age <=? 54 then Some B40_54
  else Some B55_up.

Definition baseline_table (b : bracket) (black male : bool) : Qc :=
  match b, black, male with
  | B20_24, true, true => dec 1.5 | B20_24, true, false => dec 1.2
  | B20_24, false, true => dec 1.3 | B20_24, false, false => dec 1.0
  | B25_29, true, true => dec 1.5 | B25_29, true, false => dec 1.1
  | B25_29, false, true => dec 1.2 | B25_29, false, false => dec 1.0
  | B30_39, true, true => dec 1.4 | B30_39, true, false => dec 1.1
  | B30_39, false, true => dec 1.2 | B30_39, false, false => dec 0.9
  | B40_54, true, true => dec 1.3 | B40_54, true, false => dec 1.0
  | B40_54, false, true => dec 1.1 | B40_54, false, false => dec 0.9
  | B55_up, true, true => dec 1.2 | B55_up, true, false => dec 0.9
  | B55_up, false, true => dec 1.0 | B55_up, false, false => dec 0.8
  end.

(** ** The feature catalog *)

Definition LABEVENTS_FEATURES : list (string * list Z) :=
  [ ("bicarbonate", [50882]); ("chloride", [50902]); ("creatinine", [50912]);
    ("glucose", [50931]); ("magnesium", [50960]);
    ("potassium", [50822; 50971]); ("sodium", [50824; 50983]);
    ("bun", [51006]); ("hemoglobin", [51222]); ("platelets", [51265]);
    ("wbcs", [51300; 51301]) ]%string.

Definition CHARTEVENTS_FEATURES : list (string * list Z) :=
  [ ("height", [226707; 226730; 1394]); ("weight", [763; 224639]) ]%string.

(** [{**LABEVENTS_FEATURES, **CHARTEVENTS_FEATURES}]: the two dictionaries
    have no key in common, the merge is their concatenation. *)
Definition features : list (string * list Z) :=
  LABEVENTS_FEATURES ++ CHARTEVENTS_FEATURES.

(** [features.keys()] *)
Definition FEATURES : list string := features.*1.

(** ** Tables

    A data frame is a list of rows, each with its index label.  [read_csv]
    numbers the rows 0, 1, 2, ...; [to_csv(index=False)] forgets the labels.
    The float columns of a row are the map [vals]; a column that a row does
    not hold reads as NaN. *)

Record day_record := DayRecord {
  stay_day : string;
  stay_id : Z;
  subject_id : Z;
  vals : gmap string cell
}.

(** A row once the demographics are joined; [aki] is absent (NaN) until the
    labeler assigns it. *)
Record patient_record := PatientRecord {
  day : day_record;
  hadm_id : Z;
  age : Z;
  gender : Z;
  black : Z;
  aki : option Z
}.

Class Row (R : Type) := {
  row_sid : R → Z;
  row_vals : R → gmap string cell;
  row_with : gmap string cell → R → R
}.

Definition with_vals (v : gmap string cell) (r : day_record) : day_record :=
  DayRecord (stay_day r) (stay_id r) (subject_id r) v.

Definition with_day (d : day_record) (r : patient_record) : patient_record :=
  PatientRecord d (hadm_id r) (age r) (gender r) (black r) (aki r).

Definition with_aki (a : option Z) (r : patient_record) : patient_record :=
  PatientRecord (day r) (hadm_id r) (age r) (gender r) (black r) a.

#[global] Instance day_row : Row day_record :=
  {| row_sid := stay_id; row_vals := vals; row_with := with_vals |}.

#[global] Instance patient_row : Row patient_record :=
  {| row_sid := λ r, stay_id (day r);
     row_vals := λ r, vals (day r);
     row_with := λ v r, with_day (with_vals v (day r)) r |}.

(** Replacing the float columns keeps the stay and the other columns. *)
Class RowLaws (R : Type) `{Row R} := {
  row_sid_with v r : row_sid (row_with v r) = row_sid r;
  row_vals_with v r : row_vals (row_with v r) = v;
  row_with_vals r : row_with (row_vals r) r = r;
  row_with_with v w r : row_with v (row_with w r) = row_with v r
}.

Abbreviation frame R := (list (nat * R)).

(** [pd.unique]: the distinct values in order of first appearance *)
Fixpoint unique `{EqDecision A} (l : list A) : list A :=
  match l with
  | [] => []
  | x :: l => x :: filter (λ y, y ≠ x) (unique l)
  end.

Section frames.
Context {R : Type} `{Row R}.

Definition read_csv (rows : list R) : frame R :=
  zip (seq 0 (length rows)) rows.

Definition to_csv (df : frame R) : list R := df.*2.

(** [row[feature]] and [row[feature] = c] *)
Definition cell_of (f : string) (r : R) : cell := row_vals r !!! f.

Definition set_cell (f : string) (c : cell) (r : R) : R :=
  row_with (<[f := c]> (row_vals r)) r.

(** The values of a column, and a column replaced by new values. *)
Definition cells (f : string) (rows : list R) : list cell :=
  cell_of f <$> rows.

Definition set_cells (f : string) (cs : list cell) (rows : list R) : list R :=
  zip_with (set_cell f) cs rows.

(** [df[feature]] *)
Definition col (f : string) (df : frame R) : list cell := cells f df.*2.

(** An operation on the data of a frame that keeps its index. *)
Definition on_data (g : list R → list R) (df : frame R) : frame R :=
  zip df.*1 (g df.*2).

(** [df[df['stay_id'] == stay_id]] *)
Definition mask_stay (s : Z) (df : frame R) : frame R :=
  filter (λ ir, row_sid ir.2 = s) df.

(** [df[~stay_id_mask]] *)
Definition drop_stay (s : Z) (df : frame R) : frame R :=
  filter (λ ir, row_sid ir.2 ≠ s) df.

(** [df.drop(labels)]; the labels passed are always labels of [df]. *)
Definition drop_labels (ls : list nat) (df : frame R) : frame R :=
  filter (λ ir, ir.1 ∉ ls) df.

(** [df.loc[stay_id_mask] = sub]: rows are matched by index label.  [sub] is
    always computed from [df[stay_id_mask]] and has its labels. *)
Definition loc_row (s : Z) (sub : frame R) (ir : nat * R) : nat * R :=
  if bool_decide (row_sid ir.2 = s)
  then match (list_to_map sub : gmap nat R) !! ir.1 with
       | Some r => (ir.1, r)
       | None => ir
       end
  else ir.

Definition loc_assign (s : Z) (sub df : frame R) : frame R :=
  loc_row s sub <$> df.

Definition stay_ids (df : frame R) : list Z := unique ((λ ir, row_sid ir.2) <$> df).

(** [for stay_id in stay_ids: df = body(df, stay_id)], with exceptions *)
Fixpoint for_each_stay (body : frame R → Z → res (frame R))
    (df : frame R) (ids : list Z) : res (frame R) :=
  match ids with
  | [] => Ok df
  | s :: ids => df' ← body df s; for_each_stay body df' ids
  end.

(** A loop body acts on one stay when it rewrites the rows of that stay by a
    function of these rows alone and leaves the other stays as they are. *)
Definition acts_on_stay (body : frame R → Z → res (frame R))
    (g : list R → res (list R)) : Prop :=
  ∀ df s rows,
    NoDup df.*1 → g (mask_stay s df).*2 = Ok rows →
    ∃ df', body df s = Ok df' ∧ (mask_stay s df').*2 = rows ∧
           (∀ s', s' ≠ s → mask_stay s' df' = mask_stay s' df) ∧
           NoDup df'.*1.

(** The rows of one stay in a stage's input or output file. *)
Definition stay_rows (s : Z) (rows : list R) : list R :=
  filter (λ r, row_sid r = s) rows.

(** ** The stay imputer *)

(** [Series.ffill] and [Series.bfill] *)
Fixpoint ffill_from (prev : cell) (l : list cell) : list cell :=
  match l with
  | [] => []
  | x :: l =>
    let y := if isfinite x then x else prev in
    y :: ffill_from y l
  end.

Definition ffill (l : list cell) : list cell := ffill_from NaN l.
Definition bfill (l : list cell) : list cell := reverse (ffill (reverse l)).

(** [DataFrame.ffill] and [DataFrame.bfill]: every column on its own.  The
    float columns are the features; the other columns hold no NaN. *)
Definition apply_columns (g : list cell → list cell) (rows : list R)
    : list R :=
  foldl (λ rows f, set_cells f (g (cells f rows)) rows) rows FEATURES.

Definition ffill_frame (df : frame R) : frame R :=
  on_data (apply_columns ffill) df.

Definition bfill_frame (df : frame R) : frame R :=
  on_data (apply_columns bfill) df.

Definition get_nan_index (series : list cell) : Z :=
  let result := (λ c, negb (isfinite c)) <$> series in
  match list_find (λ x, x = true) (drop 2 result) with
  | Some (i, _) => Z.of_nat i + 2
  | None => -1
  end.

Definition fill_nas_or_drop (df : frame R) (stay_id : Z)
    (features : list string) : frame R :=
  let stay := mask_stay stay_id df in
  if existsb (λ feature, negb (existsb isfinite (col feature stay))) features
  then drop_stay stay_id df
  else loc_assign stay_id (bfill_frame (ffill_frame stay)) df.

(** [df.drop(df[stay_id_mask].index[nan_index:])] when a gap was found *)
Definition truncate_at_gap (df : frame R) (stay_id : Z) (nan_index : Z)
    : frame R :=
  if bool_decide (nan_index ≠ -1)
  then drop_labels (drop (Z.to_nat nan_index) (mask_stay stay_id df)).*1 df
  else df.

(** The body of the loop of [impute_holes]. *)
Definition impute_stay (df : frame R) (stay_id : Z) : frame R :=
  let stay := mask_stay stay_id df in
  if bool_decide (length stay < 3)%nat then drop_stay stay_id df
  else if negb (existsb isfinite (drop 2 (col "creatinine" stay)))
  then drop_stay stay_id df
  else
    let nan_index := get_nan_index (col "creatinine" stay) in
    if bool_decide (nan_index = 2) then drop_stay stay_id df
    else
      let df := truncate_at_gap df stay_id nan_index in
      fill_nas_or_drop df stay_id FEATURES.

Definition impute_holes (input : list R) : list R :=
  let df := read_csv input in
  to_csv (foldl impute_stay df (stay_ids df)).

(** The effect of the loop body on the rows of one stay, as the lemmas
    below establish: the prefix the structural rules keep, and its fill. *)
Definition structural_prefix (stay : list R) : option (list R) :=
  if bool_decide (length stay < 3)%nat then None
  else if negb (existsb isfinite (drop 2 (cells "creatinine" stay))) then None
  else
    let nan_index := get_nan_index (cells "creatinine" stay) in
    if bool_decide (nan_index = 2) then None
    else if bool_decide (nan_index ≠ -1)
    then Some (take (Z.to_nat nan_index) stay)
    else Some stay.

(** A feature with no finite value in the stay *)
Definition all_missing (f : string) (stay : list R) : Prop :=
  existsb isfinite (cells f stay) = false.

#[global] Instance all_missing_dec f stay : Decision (all_missing f stay).
Proof. unfold all_missing. apply _. Defined.

Definition fill_or_drop (stay : list R) : list R :=
  if existsb (λ feature, negb (existsb isfinite (cells feature stay))) FEATURES
  then []
  else apply_columns bfill (apply_columns ffill stay).

Definition impute_rows (stay : list R) : list R :=
  match structural_prefix stay with
  | None => []
  | Some kept => fill_or_drop kept
  end.

(** The first index, from index 2 on, at which a series is missing. *)
Definition first_gap (series : list cell) (k : nat) : Prop :=
  (2 ≤ k)%nat ∧ series !! k = Some NaN ∧
  ∀ j, (2 ≤ j < k)%nat → ∃ q, series !! j = Some (Fin q).

Definition no_gap (series : list cell) : Prop :=
  ∀ j c, (2 ≤ j)%nat → series !! j = Some c → isfinite c = true.

End frames.

(** ** The AKI labeler *)

(** [df.loc[stay_id_mask, 'aki'] = aki_labels]: the labels go to the rows of
    the stay in order; pandas refuses a list of another length. *)
Fixpoint assign_aki (s : Z) (labels : list Z) (df : frame patient_record)
    : frame patient_record :=
  match df with
  | [] => []
  | ir :: df' =>
    if bool_decide (row_sid ir.2 = s) then
      match labels with
      | l :: ls => (ir.1, with_aki (Some l) ir.2) :: assign_aki s ls df'
      | [] => ir :: assign_aki s [] df'
      end
    else ir :: assign_aki s labels df'
  end.

Definition loc_assign_aki (s : Z) (labels : list Z)
    (df : frame patient_record) : res (frame patient_record) :=
  if bool_decide (length (mask_stay s df) = length labels)
  then Ok (assign_aki s labels df)
  else Raise ValueError.

(** [x or y] on the results of two calls: [y] is not evaluated when [x]
    is true. *)
Definition or_else (x : res bool) (y : res bool) : res bool :=
  b ← x; if b : bool then Ok true else y.

(** The body of the loop of [add_aki_labels]. *)
Definition label_stay (df : frame patient_record) (stay_id : Z)
    : res (frame patient_record) :=
  let stay := mask_stay stay_id df in
  black ← index (black <$> stay.*2) 0;
  age ← index (age <$> stay.*2) 0;
  gender ← index (gender <$> stay.*2) 0;
  let scr := col "creatinine" stay in
  let diffs := zip_with float_sub (drop 1 scr) (take (length scr - 1)%nat scr) in
  if bool_decide (age < 20) then Ok (drop_stay stay_id df)
  else
    pre ← or_else (d ← index diffs 0; has_aki (Some d) None None None None)
         (or_else (s ← index scr 0;
                   has_aki None (Some s) (Some black) (Some age) (Some gender))
                  (s ← index scr 1;
                   has_aki None (Some s) (Some black) (Some age) (Some gender)));
    if pre : bool then Ok (drop_stay stay_id df)
    else
      aki1 ← mapM (λ x, has_aki (Some x) None None None None) (drop 1 diffs);
      aki2 ← mapM (λ x, has_aki None (Some x) (Some black) (Some age)
                          (Some gender)) (drop 2 scr);
      let aki := zip_with (λ a b : bool, if a || b then 1 else 0) aki1 aki2 in
      last_day_index ← index (reverse stay.*1) 0;
      let df := drop_labels [last_day_index] df in
      let aki_labels := 0 :: aki in
      df ← loc_assign_aki stay_id aki_labels df;
      let to_truncate_indices := (drop 8 (mask_stay stay_id df)).*1 in
      if bool_decide (0 < length to_truncate_indices)%nat
      then Ok (drop_labels to_truncate_indices df)
      else Ok df.

Definition add_aki_labels (input : list patient_record)
    : res (list patient_record) :=
  let df := read_csv input in
  to_csv <$> for_each_stay label_stay df (stay_ids df).

(** The effect of the loop body on the rows of one stay, as the lemmas
    below establish: the same computations on the rows alone. *)
Definition label_rows (stay : list patient_record)
    : res (list patient_record) :=
  black ← index (black <$> stay) 0;
  age ← index (age <$> stay) 0;
  gender ← index (gender <$> stay) 0;
  let scr := cells "creatinine" stay in
  let diffs := zip_with float_sub (drop 1 scr) (take (length scr - 1)%nat scr) in
  if bool_decide (age < 20) then Ok []
  else
    pre ← or_else (d ← index diffs 0; has_aki (Some d) None None None None)
         (or_else (s ← index scr 0;
                   has_aki None (Some s) (Some black) (Some age) (Some gender))
                  (s ← index scr 1;
                   has_aki None (Some s) (Some black) (Some age) (Some gender)));
    if pre : bool then Ok []
    else
      aki1 ← mapM (λ x, has_aki (Some x) None None None None) (drop 1 diffs);
      aki2 ← mapM (λ x, has_aki None (Some x) (Some black) (Some age)
                          (Some gender)) (drop 2 scr);
      let aki := zip_with (λ a b : bool, if a || b then 1 else 0) aki1 aki2 in
      let kept := take (length stay - 1)%nat stay in
      let aki_labels := 0 :: aki in
      if bool_decide (length kept = length aki_labels)
      then Ok (take 8 (zip_with (λ l r, with_aki (Some l) r) aki_labels kept))
      else Raise ValueError.

(** The two KDIGO tests as the labeler applies them, in the arithmetic of
    the program ([tomorrow - today >= 0.3] and [scr >= 1.5 * baseline] on
    doubles), and the label of day [i] of a stay as the specification words
    it: 0 on day 0, otherwise 1 exactly when the rise to the next day or the
    level of the next day triggers; the demographics are those of the first
    row. *)
Definition aki_by_diff (today tomorrow : cell) : bool :=
  float_ge (float_sub tomorrow today) (Fin (dec 0.3)).

Definition aki_by_level (black age gender : Z) (scr : cell) : bool :=
  float_ge scr (float_mul (Fin (dec 1.5)) (Fin (get_baseline black age gender))).

Definition next_day_label (stay : list patient_record) (i : nat) : Z :=
  match stay, i with
  | r0 :: _, S _ =>
    let scr := cells "creatinine" stay in
    if aki_by_diff (scr !!! i) (scr !!! S i)
       || aki_by_level (black r0) (age r0) (gender r0) (scr !!! S i)
    then 1 else 0
  | _, _ => 0
  end.

Definition labelled (stay : list patient_record) : list patient_record :=
  imap (λ i r, with_aki (Some (next_day_label stay i)) r)
       (take (length stay - 1)%nat stay).

(** ** The outlier clipper *)

Definition finite_values (l : list cell) : list Qc :=
  omap (λ c, match c with Fin q => Some q | NaN => None end) l.

Definition Qc_of_nat (n : nat) : Qc := Q2Qc (inject_Z (Z.of_nat n)).

(** [Series.quantile(q)] of pandas, which is not code of this repository:
    missing values are skipped, the finite ones sorted, and the value at the
    fractional position [q * (n - 1)] is interpolated linearly between its
    two neighbours; an empty column gives NaN. *)
Definition interpolate (xs : list Qc) (x0 : Qc) (h : Qc) : Qc :=
  let lo := Z.to_nat (Qfloor h) in
  let hi := ((lo + 1) `min` (length xs - 1))%nat in
  let frac := (h - Qc_of_nat lo)%Qc in
  let a := nth lo xs x0 in
  let b := nth hi xs x0 in
  (a + frac * (b - a))%Qc.

Definition quantile (q : Qc) (column : list cell) : cell :=
  let xs := merge_sort Qcle (finite_values column) in
  match xs with
  | [] => NaN
  | x0 :: _ => Fin (interpolate xs x0 (q * Qc_of_nat (length xs - 1)%nat)%Qc)
  end.

Section clipper.
Context {R : Type} `{Row R}.

(** [df.loc[mask, feature] = bound] *)
Definition assign_where (mask : list bool) (f : string) (bound : cell)
    (rows : list R) : list R :=
  zip_with (λ (m : bool) r, if m then set_cell f bound r else r) mask rows.

(** The body of the loop of [transform_outliers]; [upper_ids] and
    [lower_ids] are non-empty exactly when the mask selects a row. *)
Definition clip_feature (df : frame R) (feature : string) : frame R :=
  let upper_bound := quantile (dec 0.99) (col feature df) in
  let lower_bound := quantile (dec 0.01) (col feature df) in
  let upper_mask := (λ x, cell_gt x upper_bound) <$> col feature df in
  let lower_mask := (λ x, cell_lt x lower_bound) <$> col feature df in
  let df :=
    if existsb id upper_mask
    then on_data (assign_where upper_mask feature upper_bound) df else df in
  if existsb id lower_mask
  then on_data (assign_where lower_mask feature lower_bound) df else df.

Definition transform_outliers (input : list R) : list R :=
  to_csv (foldl clip_feature (read_csv input) FEATURES).

(** The effect of the loop body on a value, on a row and on the rows, as the
    lemmas below establish. *)
Definition clip_cell (lower upper x : cell) : cell :=
  if cell_lt x lower then lower
  else if cell_gt x upper then upper else x.

Definition clip_row (f : string) (lower upper : cell) (r : R) : R :=
  if cell_lt (cell_of f r) lower then set_cell f lower r
  else if cell_gt (cell_of f r) upper then set_cell f upper r else r.

Definition clip_rows (f : string) (rows : list R) : list R :=
  clip_row f (quantile (dec 0.01) (cells f rows))
             (quantile (dec 0.99) (cells f rows)) <$> rows.

(** A value between two bounds, for the comparisons of floats. *)
Definition within (lower upper x : cell) : Prop :=
  cell_lt x lower = false ∧ cell_gt x upper = false.

End clipper.

(** ** The feature aggregator *)

Record event := Event {
  ev_stay_id : Z;
  ev_subject_id : Z;
  itemid : Z;
  charttime : string;
  valuenum : cell
}.

(** [{v2: k for k, v1 in features.items() for v2 in v1}] *)
Definition features_reversed : gmap Z string :=
  foldl (λ m kv, foldl (λ m v2, <[v2 := kv.1]> m) m kv.2) ∅ features.

(** [str(n)] for an integer, and [int(s)] on such a string *)
Definition str (n : Z) : string := NilZero.string_of_int (Z.to_int n).

Definition int (s : string) : res Z :=
  match NilZero.int_of_string s with
  | Some d => Ok (Z.of_int d)
  | None => Raise ValueError
  end.

(** [s.split(c)[0]]: what precedes the first [c] *)
Fixpoint before (c : Ascii.ascii) (s : string) : string :=
  match s with
  | EmptyString => EmptyString
  | String a s' => if Ascii.eqb a c then EmptyString else String a (before c s')
  end.

(** Whether a character occurs in a string. *)
Fixpoint occurs (c : Ascii.ascii) (s : string) : bool :=
  match s with
  | EmptyString => false
  | String a s' => Ascii.eqb a c || occurs c s'
  end.

Definition chartday (e : event) : string := before " "%char (charttime e).

Definition stay_day_key (stay : Z) (chartday : string) : string :=
  str stay +:+ "_" +:+ chartday.

Definition ev_stay_day (e : event) : string :=
  stay_day_key (ev_stay_id e) (chartday e).

(** The inch-denominated height items are converted to centimetres. *)
Definition convert (e : event) : cell :=
  if bool_decide (itemid e = 226707) || bool_decide (itemid e = 1394)
  then cell_mul (valuenum e) (Fin (dec 2.54))
  else valuenum e.

Definition Qc_sum (l : list Qc) : Qc := foldr Qcplus (dec 0) l.

(** [np.nanmean]: the mean of the values that are not NaN, NaN if none *)
Definition nanmean (l : list cell) : cell :=
  match finite_values l with
  | [] => NaN
  | vs => Fin (Qc_sum vs / Qc_of_nat (length vs))%Qc
  end.

Definition str_le : relation string := λ a b, String.leb a b = true.

#[global] Instance str_le_dec a b : Decision (str_le a b).
Proof. unfold str_le. apply _. Defined.

(** A row of the events table with the columns the function adds:
    [(stay_day, feature, subject_id, valuenum)]. *)
Definition tagged := (string * string * Z * cell)%type.

(** [pd.pivot_table(df, index='stay_day', columns='feature',
    values='valuenum', aggfunc=np.nanmean, fill_value=np.nan, dropna=False)]:
    one row per key, one column per feature seen, keys and columns sorted. *)
Definition pivot_cell (df : list tagged) (key feature : string) : cell :=
  nanmean ((λ t, t.2) <$>
           filter (λ t : tagged, t.1.1.1 = key ∧ t.1.1.2 = feature) df).

Definition pivot_table (df : list tagged) : list (string * gmap string cell) :=
  let index := merge_sort str_le (unique ((λ t : tagged, t.1.1.1) <$> df)) in
  let columns := merge_sort str_le (unique ((λ t : tagged, t.1.1.2) <$> df)) in
  (λ key, (key, list_to_map ((λ f, (f, pivot_cell df key f)) <$> columns)))
    <$> index.

Definition partition_rows (input : list event) : res (list day_record) :=
  df ← mapM (λ e,
        match features_reversed !! itemid e with
        | Some feature =>
            Ok (ev_stay_day e, feature, ev_subject_id e, convert e)
        | None => Raise KeyError
        end) input;
  let icu_subject_mapping : gmap string Z :=
    foldl (λ m (t : tagged), <[t.1.1.1 := t.1.2]> m) ∅ df in
  mapM (λ kv : string * gmap string cell,
          stay ← int (before "_"%char kv.1);
          match icu_subject_mapping !! kv.1 with
          | Some subject => Ok (DayRecord kv.1 stay subject kv.2)
          | None => Raise KeyError
          end) (pivot_table df).

(** The row of the events table with its added columns, for an event of a
    catalogued item. *)
Definition tag (e : event) : tagged :=
  (ev_stay_day e, default EmptyString (features_reversed !! itemid e),
   ev_subject_id e, convert e).

(** ** Sample tables *)

(** A day of a stay with every feature at 1 unless given. *)
Definition sample_day (stay : Z) (date : string)
    (given : list (string * cell)) : day_record :=
  DayRecord (stay_day_key stay date) stay 7
    (list_to_map (given ++ ((λ f, (f, Fin (dec 1))) <$> FEATURES))).

(** Stay 1 has glucose [NaN, 5, NaN, 7, NaN]; the days of stay 2 lie between
    its days and hold other glucose values. *)
Definition glucose_table : list day_record :=
  [ sample_day 1 "2020-01-01" [("glucose", NaN)];
    sample_day 2 "2020-01-01" [("glucose", Fin (dec 9))];
    sample_day 1 "2020-01-02" [("glucose", Fin (dec 5))];
    sample_day 1 "2020-01-03" [("glucose", NaN)];
    sample_day 2 "2020-01-02" [("glucose", Fin (dec 9))];
    sample_day 1 "2020-01-04" [("glucose", Fin (dec 7))];
    sample_day 2 "2020-01-03" [("glucose", Fin (dec 9))];
    sample_day 1 "2020-01-05" [("glucose", NaN)] ]%string.

(** Stay 1 lacks creatinine on days 0, 1 and 4 of six; stay 2 has two days. *)
Definition creatinine_table : list day_record :=
  [ sample_day 1 "2020-01-01" [("creatinine", NaN)];
    sample_day 2 "2020-01-01" [];
    sample_day 1 "2020-01-02" [("creatinine", NaN)];
    sample_day 1 "2020-01-03" [("creatinine", Fin (dec 2))];
    sample_day 2 "2020-01-02" [];
    sample_day 1 "2020-01-04" [("creatinine", Fin (dec 3))];
    sample_day 1 "2020-01-05" [("creatinine", NaN)];
    sample_day 1 "2020-01-06" [("creatinine", Fin (dec 4))] ]%string.

(** A day of a stay after the join, every feature at the creatinine level. *)
Definition sample_patient (stay : Z) (date : string) (scr : Q)
    (age gender black : Z) : patient_record :=
  PatientRecord (sample_day stay date [("creatinine"%string, Fin (dec scr))])
    0 age gender black None.

(** Stay 1, a man of 45 who is not black (baseline 1.1), has creatinine
    1.0, 1.0, 1.4, 1.5, 1.5; stay 2 is a patient of 19; stay 3 rises by 0.3
    from day 0 to day 1. *)
Definition labels_table : list patient_record :=
  [ sample_patient 1 "2020-01-01" 1.0 45 1 0;
    sample_patient 1 "2020-01-02" 1.0 45 1 0;
    sample_patient 2 "2020-01-01" 1.0 19 0 0;
    sample_patient 1 "2020-01-03" 1.4 45 1 0;
    sample_patient 2 "2020-01-02" 1.0 19 0 0;
    sample_patient 3 "2020-01-01" 1.0 30 0 1;
    sample_patient 2 "2020-01-03" 1.0 19 0 0;
    sample_patient 3 "2020-01-02" 1.3 30 0 1;
    sample_patient 1 "2020-01-04" 1.5 45 1 0;
    sample_patient 3 "2020-01-03" 1.0 30 0 1;
    sample_patient 1 "2020-01-05" 1.5 45 1 0 ]%string.

(** One stay of three days with creatinine 0, 10 and 20. *)
Definition clip_table : list patient_record :=
  [ sample_patient 1 "2020-01-01" 0 45 1 0;
    sample_patient 1 "2020-01-02" 10 45 1 0;
    sample_patient 1 "2020-01-03" 20 45 1 0 ]%string.

(** 201 days with creatinine 0, 1, ..., 200: the 1st percentile is the third
    value and the 99th the third from the end. *)
Definition ramp_table : list patient_record :=
  (λ i, sample_patient 1 "2020-01-01" (inject_Z (Z.of_nat i)) 45 1 0)
    <$> seq 0 201.

(** Events of stay 12 on two days: a height in inches, two glucose values
    and a glucose without value on the second day, a creatinine without
    value on the first. *)
Definition sample_events : list event :=
  [ Event 12 5 1394 "2020-01-02 10:00:00" (Fin (dec 70));
    Event 12 5 50931 "2020-01-02 11:00:00" (Fin (dec 100));
    Event 12 5 50931 "2020-01-02 12:30:00" (Fin (dec 120));
    Event 12 5 50931 "2020-01-02 13:00:00" NaN;
    Event 12 5 50912 "2020-01-01 09:00:00" NaN ]%string.

(** Stay 1 has creatinine on its first two days only. *)
Definition late_table : list day_record :=
  [ sample_day 1 "2020-01-01" [];
    sample_day 1 "2020-01-02" [];
    sample_day 1 "2020-01-03" [("creatinine", NaN)];
    sample_day 1 "2020-01-04" [("creatinine", NaN)] ]%string.

(** A stay of a single day of a man of 45, after a stay of three days. *)
Definition single_day_table : list patient_record :=
  [ sample_patient 1 "2020-01-01" 1.0 45 1 0;
    sample_patient 1 "2020-01-02" 1.0 45 1 0;
    sample_patient 2 "2020-01-01" 1.0 45 1 0;
    sample_patient 1 "2020-01-03" 1.0 45 1 0 ]%string.



(** ** The demographic joiner

    The three reference tables, with the columns the joiner reads; every
    ethnicity and gender is a text. *)

Record icustay := IcuStay { icu_stay_id : Z; icu_hadm_id : Z }.
Record admission := Admission { adm_hadm_id : Z; ethnicity : string }.
Record patient := Patient {
  pat_subject_id : Z;
  pat_gender : string;
  anchor_age : Z
}.

#[global] Instance exn_eq_dec : EqDecision exn.
Proof. solve_decision. Defined.
#[global] Instance res_eq_dec `{EqDecision A} : EqDecision (res A).
Proof. solve_decision. Defined.
#[global] Instance icustay_eq_dec : EqDecision icustay.
Proof. solve_decision. Defined.

(** Whether a run returned. *)
Definition returned {A} (r : res A) : bool :=
  match r with Ok _ => true | Raise _ => false end.

(** [dict(zip(keys, values))]: a later row overwrites an earlier one. *)
Definition dict_zip {A V} (key : A → Z) (value : A → V) (rows : list A)
    : gmap Z V :=
  foldl (λ m row, <[key row := value row]> m) ∅ rows.

(** [mapping[x]] *)
Definition getitem {V} (mapping : gmap Z V) (x : Z) : res V :=
  match mapping !! x with Some v => Ok v | None => Raise KeyError end.

(** [str.contains(r'.*black.*', flags=re.IGNORECASE)] on ASCII text: the
    pattern is searched for, so it matches when the word starts somewhere in
    the text, compared letter by letter in lower case. *)
Definition lower (c : Ascii.ascii) : Ascii.ascii :=
  let n := Ascii.nat_of_ascii c in
  if bool_decide (65 ≤ n ≤ 90)%nat then Ascii.ascii_of_nat (n + 32) else c.

Fixpoint starts_with_ci (word s : string) : bool :=
  match word, s with
  | EmptyString, _ => true
  | String w word', String c s' =>
      Ascii.eqb (lower w) (lower c) && starts_with_ci word' s'
  | String _ _, EmptyString => false
  end.

Fixpoint contains_ci (word s : string) : bool :=
  starts_with_ci word s ||
  match s with
  | EmptyString => false
  | String _ s' => contains_ci word s'
  end.

Definition join_row (r : day_record)
    (cols : Z * Z * Z * string * string) : patient_record :=
  let '(stay, hadm, age, gender, ethnicity) := cols in
  PatientRecord
    (DayRecord (stay_day r) stay (subject_id r) (vals r))
    hadm age
    (if bool_decide (gender = "M"%string) then 1 else 0)
    (if contains_ci "black" ethnicity then 1 else 0)
    None.

(** [Series.str]: pandas refuses the accessor on a column that is not
    text.  The ethnicity column of a table without rows is not: [apply] on an
    empty column keeps the integer type of the [hadm_id] column it is
    computed from. *)
Definition str_accessor (column : list string) : res (list string) :=
  match column with
  | [] => Raise AttributeError
  | _ :: _ => Ok column
  end.

(** The columns are computed one after the other, each over all rows, so
    the first failing column decides the exception. *)
Definition add_patient_info (admissions : list admission)
    (icustays : list icustay) (patients : list patient)
    (input : list day_record) : res (list patient_record) :=
  let hadm_id_mapping := dict_zip icu_stay_id icu_hadm_id icustays in
  let ethnicity_mapping := dict_zip adm_hadm_id ethnicity admissions in
  let gender_mapping := dict_zip pat_subject_id pat_gender patients in
  let age_mapping := dict_zip pat_subject_id anchor_age patients in
  stay_ids ← mapM (λ r, int (before "_" (stay_day r))) input;
  hadm_ids ← mapM (getitem hadm_id_mapping) stay_ids;
  ages ← mapM (λ r, getitem age_mapping (subject_id r)) input;
  genders ← mapM (λ r, getitem gender_mapping (subject_id r)) input;
  ethnicities ← mapM (getitem ethnicity_mapping) hadm_ids;
  ethnicities ← str_accessor ethnicities;
  Ok (zip_with join_row input
        (zip (zip (zip (zip stay_ids hadm_ids) ages) genders) ethnicities)).

(** ** The driver

    [extract_dataset] with [redo] set, or with an empty output directory:
    every stage runs, each on what the stage before it wrote. *)
Definition extract_dataset (admissions : list admission)
    (icustays : list icustay) (patients : list patient)
    (events : list event) : res (list patient_record) :=
  partitioned ← partition_rows events;
  let imputed := impute_holes partitioned in
  with_demographics ←
    add_patient_info admissions icustays patients imputed;
  with_labels ← add_aki_labels with_demographics;
  Ok (transform_outliers with_labels).

(** The aggregated table has a column for every feature that occurs among
    the events; the imputer reads the column of every feature of the
    catalog. *)
Definition every_feature_seen (events : list event) : Prop :=
  Forall (λ f, Exists (λ e, features_reversed !! itemid e = Some f) events)
         FEATURES.

#[global] Instance every_feature_seen_dec events :
  Decision (every_feature_seen events).
Proof. unfold every_feature_seen. apply _. Defined.

(** Reference tables: two rows for subject 5, the later one counts. *)
Definition sample_icustays : list icustay :=
  [IcuStay 1 901; IcuStay 2 902; IcuStay 12 900].
Definition sample_admissions : list admission :=
  [Admission 900 "BLACK/AFRICAN AMERICAN"; Admission 901 "WHITE";
   Admission 902 "Black/Cape Verdean"].
Definition sample_patients : list patient :=
  [Patient 5 "F" 30; Patient 7 "F" 50; Patient 5 "M" 61].

(** A text with its capital letters in lower case. *)
Fixpoint casefold (s : string) : string :=
  match s with
  | EmptyString => EmptyString
  | String c s' => String (lower c) (casefold s')
  end.

(** Stay 12 of subject 5 with every feature measured once a day, at 1, on
    three days. *)
Definition complete_events : list event :=
  d ← ["2020-01-01"; "2020-01-02"; "2020-01-03"]%string;
  kv ← features;
  item ← take 1 kv.2;
  [Event 12 5 item (d +:+ " 08:00:00") (Fin (dec 1))].

(** ** Rounding to a double is monotone *)

Lemma pow2_pos e : (0 < 2 ^ e)%Q.
Proof. by apply Qpower_0_lt. Qed.

Lemma pow2_succ e : (2 ^ (e + 1) == 2 * 2 ^ e)%Q.
Proof. rewrite Qpower_plus by done. rewrite Qpower_1_r. ring. Qed.

Lemma pow2_le e e' : e ≤ e' → (2 ^ e <= 2 ^ e')%Q.
Proof. intros. by apply Qpower_le_compat_l. Qed.

Lemma pow2_lt_inv e e' : (2 ^ e < 2 ^ e')%Q → e < e'.
Proof. intros. by apply (Qpower_lt_compat_l_inv 2). Qed.

Lemma pow2_log2 n : 0 < n → (2 ^ Z.log2 n <= inject_Z n < 2 ^ (Z.log2 n + 1))%Q.
Proof.
  intros Hn. destruct (Z.log2_spec n Hn) as [Hlo Hhi].
  pose proof (Z.log2_nonneg n) as Hnn.
  change 2%Q with (inject_Z 2).
  rewrite <-!Zpower_Qpower by lia. rewrite <-Zle_Qle, <-Zlt_Qlt.
  by rewrite <-Z.add_1_r in Hhi.
Qed.

Lemma ilog2_spec q : (0 < q)%Q → (2 ^ ilog2 q <= q < 2 ^ (ilog2 q + 1))%Q.
Proof.
  intros Hq. destruct q as [n d]. unfold ilog2. cbn [Qnum Qden].
  assert (0 < n) as Hn by (unfold Qlt in Hq; simpl in Hq; lia).
  destruct (pow2_log2 n Hn) as [Hn1 Hn2].
  destruct (pow2_log2 (Z.pos d) (Pos2Z.is_pos d)) as [Hd1 Hd2].
  set (a := Z.log2 n) in *. set (b := Z.log2 (Z.pos d)) in *.
  pose proof (pow2_pos a) as Ha. pose proof (pow2_pos b) as Hb.
  pose proof (pow2_pos (a - b)) as Hab.
  assert (2 ^ a == 2 ^ (a - b) * 2 ^ b)%Q as Hsplit.
  { rewrite <-Qpower_plus by done. by replace (a - b + b) with a by lia. }
  rewrite pow2_succ in Hn2, Hd2.
  assert (n # d == inject_Z n / inject_Z (Z.pos d))%Q as Hnd
    by apply Qmake_Qdiv.
  assert (0 < inject_Z (Z.pos d))%Q as Hdpos by (by rewrite <-(Zlt_Qlt 0)).
  set (q := (n # d)%Q) in *. set (D := inject_Z (Z.pos d)) in *.
  set (N := inject_Z n) in *.
  assert (q * D == N)%Q as Hmul.
  { rewrite Hnd. field. intros H0. rewrite H0 in Hdpos.
    by apply Qlt_irrefl in Hdpos. }
  set (P := (2 ^ (a - b))%Q) in *. set (B := (2 ^ b)%Q) in *.
  set (A := (2 ^ a)%Q) in *.
  assert (q < 2 * P)%Q as Hup.
  { apply Qnot_le_lt. intros Hle.
    assert (2 * P * D <= q * D)%Q by (apply Qmult_le_compat_r; lra).
    assert (2 * P * B <= 2 * P * D)%Q by (apply Qmult_le_l; lra).
    lra. }
  assert (P < 2 * q)%Q as Hdown.
  { apply Qnot_le_lt. intros Hle.
    assert (2 * q * D <= P * D)%Q by (apply Qmult_le_compat_r; lra).
    assert (P * D < P * (2 * B))%Q by (apply Qmult_lt_l; lra).
    lra. }
  destruct (Qle_bool P q) eqn:Hcmp.
  - apply Qle_bool_iff in Hcmp. rewrite pow2_succ. fold P. split; lra.
  - assert (q < P)%Q as Hlt.
    { apply Qnot_le_lt. intros Hle. apply Qle_bool_iff in Hle. congruence. }
    replace (a - b - 1 + 1) with (a - b) by lia. fold P.
    assert (P == 2 * 2 ^ (a - b - 1))%Q as HP.
    { unfold P. rewrite <-pow2_succ. by replace (a - b - 1 + 1) with (a - b) by lia. }
    split; lra.
Qed.

Lemma ilog2_mono a b : (0 < a)%Q → (a <= b)%Q → ilog2 a ≤ ilog2 b.
Proof.
  intros Ha Hab. destruct (ilog2_spec a Ha) as [Ha1 _].
  destruct (ilog2_spec b) as [_ Hb2]; [lra|].
  assert (2 ^ ilog2 a < 2 ^ (ilog2 b + 1))%Q as Hlt by lra.
  apply pow2_lt_inv in Hlt. lia.
Qed.

Lemma round_half_even_floor q :
  round_half_even q = Qfloor q ∨ round_half_even q = Qfloor q + 1.
Proof. unfold round_half_even. repeat case_match; auto. Qed.

Lemma round_half_even_ge q n : (inject_Z n <= q)%Q → n ≤ round_half_even q.
Proof.
  intros Hn. apply Qfloor_resp_le in Hn. rewrite Qfloor_Z in Hn.
  destruct (round_half_even_floor q); lia.
Qed.

Lemma round_half_even_le q n : (q <= inject_Z n)%Q → round_half_even q ≤ n.
Proof.
  intros Hn. pose proof (Qfloor_resp_le _ _ Hn) as Hf. rewrite Qfloor_Z in Hf.
  destruct (decide (Qfloor q = n)) as [Heq|Hne].
  - unfold round_half_even. pose proof (Qfloor_le q) as Hle.
    rewrite Heq in *.
    assert ((q - inject_Z n ?= 1 # 2)%Q = Lt) as ->; [|done].
    apply (proj1 (Qlt_alt _ _)). lra.
  - destruct (round_half_even_floor q); lia.
Qed.

Lemma round_half_even_mono a b :
  (a <= b)%Q → round_half_even a ≤ round_half_even b.
Proof.
  intros Hab. pose proof (Qfloor_resp_le _ _ Hab) as Hf.
  destruct (decide (Qfloor a = Qfloor b)) as [Heq|Hne].
  - unfold round_half_even. rewrite Heq.
    destruct (a - inject_Z (Qfloor b) ?= 1 # 2)%Q eqn:Ha;
      [apply Qeq_alt in Ha|apply Qlt_alt in Ha|apply Qgt_alt in Ha];
      (destruct (b - inject_Z (Qfloor b) ?= 1 # 2)%Q eqn:Hb;
       [apply Qeq_alt in Hb|apply Qlt_alt in Hb|apply Qgt_alt in Hb]);
      try (destruct (Z.even (Qfloor b))); try lia; lra.
  - destruct (round_half_even_floor a), (round_half_even_floor b); lia.
Qed.

Lemma round_pos_nonneg a : (0 < a)%Q → (0 <= round_pos a)%Q.
Proof.
  intros Ha. unfold round_pos. set (e := Z.max _ _).
  pose proof (pow2_pos e) as He.
  apply Qmult_le_0_compat; [|by apply Qlt_le_weak].
  rewrite <-(Zle_Qle 0). apply round_half_even_ge.
  apply Qle_shift_div_l; [done|]. rewrite Qmult_0_l. by apply Qlt_le_weak.
Qed.

Lemma round_pos_mono a b :
  (0 < a)%Q → (a <= b)%Q → (round_pos a <= round_pos b)%Q.
Proof.
  intros Ha Hab. assert (0 < b)%Q as Hb by lra.
  pose proof (ilog2_mono a b Ha Hab) as Hlog.
  destruct (ilog2_spec a Ha) as [_ Ha2].
  destruct (ilog2_spec b Hb) as [Hb1 _].
  unfold round_pos.
  set (ea := Z.max (ilog2 a - 52) (-1074)).
  set (eb := Z.max (ilog2 b - 52) (-1074)).
  pose proof (pow2_pos ea) as Hea. pose proof (pow2_pos eb) as Heb.
  destruct (decide (ea = eb)) as [Heq|Hne].
  - rewrite Heq. apply Qmult_le_compat_r; [|by apply Qlt_le_weak].
    rewrite <-Zle_Qle. apply round_half_even_mono.
    apply Qmult_le_compat_r; [done|]. by apply Qinv_le_0_compat, Qlt_le_weak.
  - assert (ea < eb) as Hlt by lia.
    assert (eb = ilog2 b - 52) as Hebn by lia.
    apply Qle_trans with (inject_Z (2 ^ 53) * 2 ^ ea)%Q.
    + apply Qmult_le_compat_r; [|by apply Qlt_le_weak]. rewrite <-Zle_Qle.
      apply round_half_even_le. apply Qle_shift_div_r; [done|].
      rewrite Zpower_Qpower by lia. change (inject_Z 2) with 2%Q.
      rewrite <-Qpower_plus by done.
      apply Qle_trans with (2 ^ (ilog2 a + 1))%Q; [by apply Qlt_le_weak|].
      apply pow2_le. lia.
    + apply Qle_trans with (inject_Z (2 ^ 52) * 2 ^ eb)%Q.
      * rewrite !Zpower_Qpower by lia. change (inject_Z 2) with 2%Q.
        rewrite <-!Qpower_plus by done. apply pow2_le. lia.
      * apply Qmult_le_compat_r; [|by apply Qlt_le_weak]. rewrite <-Zle_Qle.
        apply round_half_even_ge. apply Qle_shift_div_l; [done|].
        rewrite Zpower_Qpower by lia. change (inject_Z 2) with 2%Q.
        rewrite <-Qpower_plus by done.
        by replace (52 + eb) with (ilog2 b) by lia.
Qed.

Lemma float64Q_mono a b : (a <= b)%Q → (float64Q a <= float64Q b)%Q.
Proof.
  intros Hab. unfold float64Q.
  destruct a as [[|na|na] da], b as [[|nb|nb] db]; cbn [Qnum];
    try (exfalso; unfold Qle in Hab; simpl in Hab; lia).
  - apply Qle_refl.
  - by apply round_pos_nonneg.
  - by apply round_pos_mono.
  - apply (Qopp_le_compat 0). by apply round_pos_nonneg.
  - apply Qle_trans with 0%Q.
    + apply (Qopp_le_compat 0). by apply round_pos_nonneg.
    + by apply round_pos_nonneg.
  - apply Qopp_le_compat. apply round_pos_mono; [done|].
    by apply Qopp_le_compat.
Qed.

Lemma float64_mono (a b : Qc) : (a ≤ b)%Qc → (float64 a ≤ float64 b)%Qc.
Proof.
  intros Hab. unfold float64, Qcle. cbn [this Q2Qc].
  rewrite !Qred_correct. by apply float64Q_mono.
Qed.

(** * Properties *)

(** ** Rows *)

#[global] Instance day_row_laws : RowLaws day_record.
Proof. split; try done. by intros []. Qed.

#[global] Instance patient_row_laws : RowLaws patient_record.
Proof. split; try done. by intros [[] ? ? ? ? ?]. Qed.

(** ** Lists *)

Lemma Ok_inj {A} (x y : A) : Ok x = Ok y → x = y.
Proof. by intros [=]. Qed.

Lemma foldl_pointwise {A B} (f g : A → B → A) a l :
  (∀ a b, f a b = g a b) → foldl f a l = foldl g a l.
Proof.
  intros Hfg. revert a. induction l as [|b l IH]; intros a; [done|].
  simpl. by rewrite Hfg, IH.
Qed.

Lemma unique_elem `{EqDecision A} (l : list A) x : x ∈ unique l ↔ x ∈ l.
Proof.
  induction l as [|y l IH]; simpl; [done|].
  rewrite !elem_of_cons, list_elem_of_filter, IH.
  destruct (decide (x = y)); naive_solver.
Qed.

Lemma unique_NoDup `{EqDecision A} (l : list A) : NoDup (unique l).
Proof.
  induction l as [|y l IH]; simpl; constructor.
  - rewrite list_elem_of_filter. naive_solver.
  - by apply NoDup_filter.
Qed.

Lemma filter_all {A} (P : A → Prop) `{!∀ x, Decision (P x)} (l : list A) :
  Forall P l → filter P l = l.
Proof.
  induction 1 as [|x l Hx _ IH]; [done|].
  by rewrite filter_cons_True, IH.
Qed.

Lemma filter_none {A} (P : A → Prop) `{!∀ x, Decision (P x)} (l : list A) :
  Forall (λ x, ¬ P x) l → filter P l = [].
Proof.
  induction 1 as [|x l Hx _ IH]; [done|].
  by rewrite filter_cons_False.
Qed.

Lemma filter_comm {A} (P Q : A → Prop)
    `{!∀ x, Decision (P x), !∀ x, Decision (Q x)} (l : list A) :
  filter P (filter Q l) = filter Q (filter P l).
Proof. rewrite !list_filter_filter. apply list_filter_iff. naive_solver. Qed.

Lemma filter_fmap_stable {A} (P : A → Prop) `{!∀ x, Decision (P x)}
    (f : A → A) (l : list A) :
  Forall (λ x, P (f x) ↔ P x) l → filter P (f <$> l) = f <$> filter P l.
Proof.
  induction 1 as [|x l Hx _ IH]; [done|]. rewrite fmap_cons, !filter_cons.
  destruct (decide (P x)).
  - rewrite decide_True by naive_solver. by rewrite fmap_cons, IH.
  - rewrite decide_False by naive_solver. done.
Qed.

Lemma fmap_snd_filter {A B} (P : B → Prop) `{!∀ x, Decision (P x)}
    (l : list (A * B)) :
  (filter (λ ir, P ir.2) l).*2 = filter P l.*2.
Proof.
  induction l as [|[i r] l IH]; [done|]. rewrite fmap_cons, !filter_cons. simpl.
  destruct (decide (P r)); by rewrite ?fmap_cons, IH.
Qed.

Lemma labels_inj {A} (l : list (nat * A)) i a b :
  NoDup l.*1 → (i, a) ∈ l → (i, b) ∈ l → a = b.
Proof.
  induction l as [|[j c] l IH]; intros Hnd Ha Hb; [by apply elem_of_nil in Ha|].
  rewrite fmap_cons in Hnd. apply NoDup_cons in Hnd as [Hj Hnd].
  apply elem_of_cons in Ha as [Ha|Ha], Hb as [Hb|Hb]; simplify_eq; try done.
  - destruct Hj. by apply (list_elem_of_fmap_2 fst _ (j, b)).
  - destruct Hj. by apply (list_elem_of_fmap_2 fst _ (j, a)).
  - by apply IH.
Qed.

Lemma filter_labels_app {A} (t d : list (nat * A)) :
  NoDup (t ++ d).*1 → filter (λ ir, ir.1 ∉ d.*1) (t ++ d) = t.
Proof.
  rewrite fmap_app. intros (_ & Hdisj & _)%NoDup_app.
  rewrite filter_app, (filter_none _ d), app_nil_r.
  - apply filter_all, Forall_forall. intros ir Hir. apply Hdisj.
    by apply list_elem_of_fmap_2.
  - apply Forall_forall. intros ir Hir Hn. apply Hn.
    by apply list_elem_of_fmap_2.
Qed.

Lemma filter_labels_take {A} (l : list (nat * A)) k :
  NoDup l.*1 → filter (λ ir, ir.1 ∉ (drop k l).*1) l = take k l.
Proof.
  intros Hnd. rewrite <-(take_drop k l) in Hnd.
  apply filter_labels_app in Hnd. by rewrite take_drop in Hnd.
Qed.

Lemma filter_labels_NoDup {A} (P : nat * A → Prop) `{!∀ x, Decision (P x)}
    (l : list (nat * A)) :
  NoDup l.*1 → NoDup (filter P l).*1.
Proof.
  intros Hnd. eapply sublist_NoDup; [exact Hnd|].
  apply fmap_sublist, sublist_filter.
Qed.

Lemma zip_take_short {A B} (l : list A) (k : list B) n :
  (length k ≤ n)%nat → zip (take n l) k = zip l k.
Proof.
  revert l k. induction n as [|n IH]; intros [|x l] [|y k] ?;
    simpl in *; try done; try lia.
  f_equal. apply IH. lia.
Qed.

(** ** Frames *)

Section frame_lemmas.
Context {R : Type} `{RowLaws R}.
Implicit Types (df sub : frame R) (rows : list R) (s : Z).

Lemma read_csv_labels rows : NoDup (read_csv rows).*1.
Proof.
  unfold read_csv. rewrite fst_zip by (by rewrite length_seq).
  apply NoDup_seq.
Qed.

Lemma to_csv_read_csv rows : to_csv (read_csv rows) = rows.
Proof. unfold to_csv, read_csv. apply snd_zip. by rewrite length_seq. Qed.

Lemma mask_stay_rows s df : (mask_stay s df).*2 = stay_rows s df.*2.
Proof. unfold mask_stay, stay_rows. exact (fmap_snd_filter (λ r : R, row_sid r = s) df). Qed.

Lemma mask_stay_sid s df : Forall (λ r, row_sid r = s) (mask_stay s df).*2.
Proof.
  rewrite mask_stay_rows. apply Forall_forall. intros r.
  unfold stay_rows. rewrite list_elem_of_filter. tauto.
Qed.

Lemma mask_stay_labels s df : NoDup df.*1 → NoDup (mask_stay s df).*1.
Proof. apply filter_labels_NoDup. Qed.

Lemma mask_stay_idemp s df : mask_stay s (mask_stay s df) = mask_stay s df.
Proof. unfold mask_stay. apply list_filter_filter_l. done. Qed.

Lemma mask_drop_stay s df : mask_stay s (drop_stay s df) = [].
Proof.
  unfold mask_stay, drop_stay. rewrite list_filter_filter.
  apply filter_none, Forall_forall. naive_solver.
Qed.

Lemma mask_drop_stay_ne s s' df :
  s' ≠ s → mask_stay s' (drop_stay s df) = mask_stay s' df.
Proof.
  intros. unfold mask_stay, drop_stay. rewrite list_filter_filter.
  apply list_filter_iff. naive_solver.
Qed.

Lemma drop_stay_labels s df : NoDup df.*1 → NoDup (drop_stay s df).*1.
Proof. apply filter_labels_NoDup. Qed.

Lemma drop_labels_labels ls df : NoDup df.*1 → NoDup (drop_labels ls df).*1.
Proof. apply filter_labels_NoDup. Qed.

Lemma mask_drop_labels s k df :
  NoDup df.*1 →
  mask_stay s (drop_labels (drop k (mask_stay s df)).*1 df)
  = take k (mask_stay s df).
Proof.
  intros Hnd. unfold drop_labels, mask_stay at 1. rewrite filter_comm.
  apply filter_labels_take. by apply mask_stay_labels.
Qed.

Lemma mask_drop_labels_ne s s' ls df :
  NoDup df.*1 → s' ≠ s → ls ⊆ (mask_stay s df).*1 →
  mask_stay s' (drop_labels ls df) = mask_stay s' df.
Proof.
  intros Hnd Hne Hls. unfold drop_labels, mask_stay at 1. rewrite filter_comm.
  apply filter_all, Forall_forall. intros [i r] Hir Hi. simpl in Hi.
  apply Hls, list_elem_of_fmap in Hi as ([j r'] & -> & Hr'). simpl in *.
  apply list_elem_of_filter in Hir as [Hs' Hir], Hr' as [Hs Hr']. simpl in *.
  assert (r = r') by eauto using labels_inj. congruence.
Qed.


Lemma loc_row_label s sub (ir : nat * R) : (loc_row s sub ir).1 = ir.1.
Proof. unfold loc_row. by repeat case_match. Qed.

Lemma loc_row_sid s sub (ir : nat * R) :
  Forall (λ r, row_sid r = s) sub.*2 →
  row_sid (loc_row s sub ir).2 = row_sid ir.2.
Proof.
  intros Hsub. unfold loc_row. case_bool_decide as Hr; [|done].
  destruct (_ !! ir.1) as [r'|] eqn:Hi; [|done].
  apply elem_of_list_to_map_2, (list_elem_of_fmap_2 snd) in Hi.
  rewrite Forall_forall in Hsub. apply Hsub in Hi. simpl in *. congruence.
Qed.

Lemma loc_assign_labels s sub df : (loc_assign s sub df).*1 = df.*1.
Proof.
  unfold loc_assign. rewrite <-list_fmap_compose. apply list_fmap_ext.
  intros i ir _. apply loc_row_label.
Qed.

Lemma mask_loc_assign_gen s s' sub df :
  Forall (λ r, row_sid r = s) sub.*2 →
  mask_stay s' (loc_assign s sub df) = loc_row s sub <$> mask_stay s' df.
Proof.
  intros Hsub. unfold mask_stay, loc_assign. apply filter_fmap_stable.
  apply Forall_forall. intros ir _. by rewrite loc_row_sid.
Qed.

Lemma mask_loc_assign_ne s s' sub df :
  s' ≠ s → Forall (λ r, row_sid r = s) sub.*2 →
  mask_stay s' (loc_assign s sub df) = mask_stay s' df.
Proof.
  intros Hne Hsub. rewrite mask_loc_assign_gen by done.
  rewrite <-(list_fmap_id (mask_stay s' df)) at 2.
  apply list_fmap_ext. intros i ir Hir.
  apply list_elem_of_lookup_2, list_elem_of_filter in Hir as [Hr _].
  unfold loc_row. rewrite bool_decide_eq_false_2; [done|congruence].
Qed.

Lemma mask_loc_assign s sub df :
  NoDup df.*1 → sub.*1 = (mask_stay s df).*1 →
  Forall (λ r, row_sid r = s) sub.*2 →
  mask_stay s (loc_assign s sub df) = sub.
Proof.
  intros Hnd Hlab Hsid.
  assert (NoDup sub.*1) as Hnd' by (rewrite Hlab; by apply mask_stay_labels).
  rewrite mask_loc_assign_gen by done.
  apply list_eq. intros j. rewrite list_lookup_fmap.
  assert (sub.*1 !! j = (mask_stay s df).*1 !! j) as Hj by by rewrite Hlab.
  rewrite !list_lookup_fmap in Hj.
  destruct (mask_stay s df !! j) as [[i r]|] eqn:Hm;
    destruct (sub !! j) as [[i' r']|] eqn:Hs; simplify_eq/=; [|done].
  apply list_elem_of_lookup_2, list_elem_of_filter in Hm as [Hr _].
  simpl in Hr. unfold loc_row. simpl. rewrite bool_decide_eq_true_2 by done.
  apply list_elem_of_lookup_2 in Hs.
  by rewrite (elem_of_list_to_map_1 _ _ _ Hnd' Hs).
Qed.

(** *** Operations on the columns *)

Lemma cell_of_set_cell f g c (r : R) :
  cell_of g (set_cell f c r) = if decide (f = g) then c else cell_of g r.
Proof.
  unfold cell_of, set_cell. rewrite row_vals_with.
  destruct (decide (f = g)) as [->|].
  - by rewrite lookup_total_insert_eq.
  - by rewrite lookup_total_insert_ne.
Qed.

Lemma row_sid_set_cell f c (r : R) : row_sid (set_cell f c r) = row_sid r.
Proof. apply row_sid_with. Qed.

Lemma length_set_cells f cs rows :
  length cs = length rows → length (set_cells f cs rows) = length rows.
Proof. intros. unfold set_cells. rewrite length_zip_with. lia. Qed.

Lemma cells_set_cells f cs rows :
  length cs = length rows → cells f (set_cells f cs rows) = cs.
Proof.
  unfold cells, set_cells. revert rows.
  induction cs as [|c cs IH]; intros [|r rows] ?; simplify_eq/=; [done|].
  rewrite cell_of_set_cell, decide_True by done. f_equal. by apply IH.
Qed.

Lemma cells_set_cells_ne f g cs rows :
  f ≠ g → length cs = length rows →
  cells g (set_cells f cs rows) = cells g rows.
Proof.
  unfold cells, set_cells. intros Hne. revert rows.
  induction cs as [|c cs IH]; intros [|r rows] ?; simplify_eq/=; [done|].
  rewrite cell_of_set_cell, decide_False by done. f_equal. by apply IH.
Qed.

Lemma sid_set_cells f cs rows :
  row_sid <$> set_cells f cs rows = row_sid <$> take (length cs) rows.
Proof.
  unfold set_cells. revert rows.
  induction cs as [|c cs IH]; intros [|r rows]; simpl; try done.
  by rewrite row_sid_set_cell, IH.
Qed.

Section apply_columns.
Context (g : list cell → list cell).
Context (g_length : ∀ l, length (g l) = length l).

Lemma apply_columns_aux fs rows :
  let rows' := foldl (λ rows f, set_cells f (g (cells f rows)) rows) rows fs in
  NoDup fs →
  length rows' = length rows ∧
  row_sid <$> rows' = row_sid <$> rows ∧
  ∀ f, cells f rows' = if decide (f ∈ fs) then g (cells f rows)
                       else cells f rows.
Proof.
  simpl. revert rows. induction fs as [|f0 fs IH]; intros rows Hnd.
  { by repeat split. }
  apply NoDup_cons in Hnd as [Hf0 Hnd]. simpl.
  assert (length (g (cells f0 rows)) = length rows) as Hlen
    by (unfold cells; by rewrite g_length, length_fmap).
  destruct (IH (set_cells f0 (g (cells f0 rows)) rows) Hnd)
    as (IH1 & IH2 & IH3).
  split; [|split].
  - by rewrite IH1, length_set_cells.
  - rewrite IH2, sid_set_cells, Hlen. by rewrite firstn_all.
  - intros f. rewrite IH3. destruct (decide (f = f0)) as [->|Hne].
    + rewrite decide_False by done. rewrite decide_True by set_solver.
      by apply cells_set_cells.
    + rewrite (cells_set_cells_ne f0 f) by done.
      destruct (decide (f ∈ fs)).
      * by rewrite decide_True by set_solver.
      * by rewrite decide_False by set_solver.
Qed.

End apply_columns.

End frame_lemmas.

Lemma FEATURES_NoDup : NoDup FEATURES.
Proof. apply (bool_decide_unpack _). by vm_compute. Qed.

Section stage_lemmas.
Context {R : Type} `{RowLaws R}.
Implicit Types (df sub : frame R) (rows : list R) (s : Z).

Lemma Forall_sid_fmap s rows rows' :
  row_sid <$> rows' = row_sid <$> rows →
  Forall (λ r, row_sid r = s) rows → Forall (λ r, row_sid r = s) rows'.
Proof.
  intros Heq Hall.
  apply (Forall_fmap row_sid (λ x, x = s)) in Hall.
  apply (Forall_fmap row_sid (λ x, x = s)). by rewrite Heq.
Qed.

Lemma apply_columns_length g rows :
  (∀ l, length (g l) = length l) →
  length (apply_columns g rows) = length rows.
Proof. intros Hg. apply (apply_columns_aux g Hg), FEATURES_NoDup. Qed.

Lemma apply_columns_sid g rows :
  (∀ l, length (g l) = length l) →
  row_sid <$> apply_columns g rows = row_sid <$> rows.
Proof. intros Hg. apply (apply_columns_aux g Hg), FEATURES_NoDup. Qed.

Lemma apply_columns_cells g rows f :
  (∀ l, length (g l) = length l) → f ∈ FEATURES →
  cells f (apply_columns g rows) = g (cells f rows).
Proof.
  intros Hg Hf.
  destruct (apply_columns_aux g Hg FEATURES rows FEATURES_NoDup) as (_&_&Hc).
  unfold apply_columns. by rewrite Hc, decide_True.
Qed.

Lemma apply_columns_cells_other g rows f :
  (∀ l, length (g l) = length l) → f ∉ FEATURES →
  cells f (apply_columns g rows) = cells f rows.
Proof.
  intros Hg Hf.
  destruct (apply_columns_aux g Hg FEATURES rows FEATURES_NoDup) as (_&_&Hc).
  unfold apply_columns. by rewrite Hc, decide_False.
Qed.

Lemma ffill_from_length p l : length (ffill_from p l) = length l.
Proof. revert p. induction l; intros; simpl; by f_equal. Qed.

Lemma ffill_length l : length (ffill l) = length l.
Proof. apply ffill_from_length. Qed.

Lemma bfill_length l : length (bfill l) = length l.
Proof. unfold bfill. by rewrite length_reverse, ffill_length, length_reverse. Qed.

Lemma on_data_labels g df :
  length (g df.*2) = length df → (on_data g df).*1 = df.*1.
Proof. intros Hg. unfold on_data. apply fst_zip. rewrite length_fmap. lia. Qed.

Lemma on_data_rows g df :
  length (g df.*2) = length df → (on_data g df).*2 = g df.*2.
Proof. intros Hg. unfold on_data. apply snd_zip. rewrite length_fmap. lia. Qed.

Lemma fill_frame_eq sub :
  bfill_frame (ffill_frame sub)
  = zip sub.*1 (apply_columns bfill (apply_columns ffill sub.*2)).
Proof.
  unfold bfill_frame, ffill_frame.
  assert (length (apply_columns ffill sub.*2) = length sub) as Hlen
    by (rewrite apply_columns_length, length_fmap; auto using ffill_length).
  unfold on_data at 1. by rewrite on_data_labels, on_data_rows.
Qed.

Lemma fill_length rows :
  length (apply_columns bfill (apply_columns ffill rows)) = length rows.
Proof.
  rewrite !apply_columns_length; auto using ffill_length, bfill_length.
Qed.

Lemma fill_or_drop_length rows :
  (length (fill_or_drop rows) ≤ length rows)%nat.
Proof.
  unfold fill_or_drop. destruct (existsb _ _).
  - apply Nat.le_0_l.
  - by rewrite fill_length.
Qed.

Lemma fill_nas_or_drop_spec df s :
  NoDup df.*1 →
  mask_stay s (fill_nas_or_drop df s FEATURES)
  = zip (mask_stay s df).*1 (fill_or_drop (mask_stay s df).*2)
  ∧ (∀ s', s' ≠ s →
       mask_stay s' (fill_nas_or_drop df s FEATURES) = mask_stay s' df)
  ∧ NoDup (fill_nas_or_drop df s FEATURES).*1.
Proof.
  intros Hnd. unfold fill_nas_or_drop, fill_or_drop, col.
  destruct (existsb _ FEATURES).
  { rewrite mask_drop_stay, zip_with_nil_r.
    auto using mask_drop_stay_ne, drop_stay_labels. }
  rewrite fill_frame_eq.
  pose proof (mask_stay_sid s df) as Hsub.
  remember (mask_stay s df) as sub eqn:Esub.
  remember (apply_columns bfill (apply_columns ffill sub.*2)) as rows eqn:Erows.
  assert (length rows = length sub.*1) as Hlen
    by (subst rows; by rewrite fill_length, !length_fmap).
  assert (Forall (λ r, row_sid r = s) (zip sub.*1 rows).*2) as Hsid.
  { rewrite snd_zip by lia. eapply Forall_sid_fmap; [|apply Hsub].
    subst rows.
    rewrite !apply_columns_sid; auto using ffill_length, bfill_length. }
  split; [|split].
  - apply mask_loc_assign; [done| |done]. rewrite <-Esub. apply fst_zip. lia.
  - intros s' Hs'. by apply mask_loc_assign_ne.
  - by rewrite loc_assign_labels.
Qed.

Lemma truncate_at_gap_spec df s k :
  NoDup df.*1 →
  mask_stay s (truncate_at_gap df s k)
  = (if bool_decide (k ≠ -1) then take (Z.to_nat k) (mask_stay s df)
     else mask_stay s df)
  ∧ (∀ s', s' ≠ s → mask_stay s' (truncate_at_gap df s k) = mask_stay s' df)
  ∧ NoDup (truncate_at_gap df s k).*1.
Proof.
  intros Hnd. unfold truncate_at_gap. case_bool_decide; [|done].
  split; [|split].
  - by apply mask_drop_labels.
  - intros s' Hs'. apply (mask_drop_labels_ne s); [done..|].
    rewrite fmap_drop. apply subseteq_drop.
  - by apply drop_labels_labels.
Qed.

Lemma impute_stay_spec df s :
  NoDup df.*1 →
  mask_stay s (impute_stay df s)
  = zip (mask_stay s df).*1 (impute_rows (mask_stay s df).*2)
  ∧ (∀ s', s' ≠ s → mask_stay s' (impute_stay df s) = mask_stay s' df)
  ∧ NoDup (impute_stay df s).*1.
Proof.
  intros Hnd.
  assert (mask_stay s (drop_stay s df) = zip (mask_stay s df).*1 []
          ∧ (∀ s', s' ≠ s → mask_stay s' (drop_stay s df) = mask_stay s' df)
          ∧ NoDup (drop_stay s df).*1) as Hdropped.
  { rewrite mask_drop_stay, zip_with_nil_r.
    auto using mask_drop_stay_ne, drop_stay_labels. }
  unfold impute_stay, impute_rows, structural_prefix, col.
  rewrite length_fmap.
  destruct (bool_decide (length (mask_stay s df) < 3)%nat); [done|].
  destruct (negb (existsb isfinite _)); [done|].
  destruct (bool_decide (get_nan_index _ = 2)); [done|].
  destruct (truncate_at_gap_spec df s
              (get_nan_index (cells "creatinine" (mask_stay s df).*2)) Hnd)
    as (Ht & Hne & Hnd').
  destruct (fill_nas_or_drop_spec _ s Hnd') as (Hf & Hfne & Hfnd).
  split; [|split]; [|intros s' Hs'; rewrite Hfne, Hne; done|done].
  rewrite Hf, Ht. destruct (bool_decide (get_nan_index _ ≠ -1)); [|done].
  rewrite !fmap_take. apply zip_take_short.
  etrans; [apply fill_or_drop_length|]. rewrite length_take. lia.
Qed.

End stage_lemmas.

(** ** The loop over the stays *)

Section loop_lemmas.
Context {R : Type} `{RowLaws R}.
Implicit Types (df sub : frame R) (rows : list R) (s : Z).

Lemma for_each_stay_spec body g ids df :
  acts_on_stay body g → NoDup ids → NoDup df.*1 →
  (∀ s, s ∈ ids → ∃ rows, g (mask_stay s df).*2 = Ok rows) →
  ∃ out, for_each_stay body df ids = Ok out ∧ NoDup out.*1 ∧
         (∀ s, s ∈ ids → g (mask_stay s df).*2 = Ok (mask_stay s out).*2) ∧
         (∀ s, s ∉ ids → mask_stay s out = mask_stay s df).
Proof.
  intros Hbody. revert df.
  induction ids as [|s0 ids IH]; intros df Hids Hnd Hok.
  { exists df. repeat split; try done. intros s Hs. by apply elem_of_nil in Hs. }
  apply NoDup_cons in Hids as [Hs0 Hids].
  destruct (Hok s0) as [rows0 Hrows0]; [by left|].
  destruct (Hbody df s0 rows0 Hnd Hrows0) as (df' & Hstep & Hmask & Hne & Hnd').
  destruct (IH df' Hids Hnd') as (out & Hout & Hndout & Hin & Hnotin).
  { intros s Hs. rewrite Hne by (intros ->; done). apply Hok. by right. }
  exists out. simpl. rewrite Hstep. simpl. repeat split; try done.
  - intros s [->|Hs]%elem_of_cons.
    + by rewrite (Hnotin s0 Hs0), Hmask.
    + rewrite <-(Hne s) by (intros ->; done). by apply Hin.
  - intros s Hs. apply not_elem_of_cons in Hs as [Hs Hs'].
    by rewrite (Hnotin s Hs'), Hne.
Qed.

Lemma for_each_stay_pure (f : frame R → Z → frame R) df ids :
  for_each_stay (λ df s, Ok (f df s)) df ids = Ok (foldl f df ids).
Proof. revert df. induction ids as [|s ids IH]; intros df; simpl; auto. Qed.

Lemma stay_ids_elem s df : s ∈ stay_ids df ↔ s ∈ row_sid <$> df.*2.
Proof.
  unfold stay_ids. rewrite unique_elem, <-list_fmap_compose. done.
Qed.

Lemma stay_rows_absent s rows : s ∉ row_sid <$> rows → stay_rows s rows = [].
Proof.
  intros Hs. apply filter_none, Forall_forall. intros r Hr <-.
  apply Hs. by apply list_elem_of_fmap_2.
Qed.

(** A stage reads the table, loops over its stays and writes the result:
    every stay of the output is the image of the stay of the input. *)
Lemma stage_spec body g (t : list R) :
  acts_on_stay body g →
  (∀ s, s ∈ row_sid <$> t → ∃ rows, g (stay_rows s t) = Ok rows) →
  ∃ out,
    to_csv <$> for_each_stay body (read_csv t) (stay_ids (read_csv t)) = Ok out
    ∧ ∀ s, (s ∈ row_sid <$> t → g (stay_rows s t) = Ok (stay_rows s out))
           ∧ (s ∉ row_sid <$> t → stay_rows s out = []).
Proof.
  intros Hbody Hok.
  destruct (for_each_stay_spec body g (stay_ids (read_csv t)) (read_csv t))
    as (out & Hout & Hnd & Hin & Hnotin);
    [done|apply unique_NoDup|apply read_csv_labels| |].
  { intros s Hs%stay_ids_elem. rewrite mask_stay_rows.
    fold (to_csv (read_csv t)) in *. rewrite to_csv_read_csv in *. auto. }
  exists (to_csv out). rewrite Hout. split; [done|]. intros s.
  unfold to_csv. rewrite <-mask_stay_rows. split.
  - intros Hs. rewrite <-Hin.
    + rewrite mask_stay_rows. fold (to_csv (read_csv t)).
      by rewrite to_csv_read_csv.
    + apply stay_ids_elem. fold (to_csv (read_csv t)).
      by rewrite to_csv_read_csv.
  - intros Hs. rewrite Hnotin.
    + rewrite mask_stay_rows. fold (to_csv (read_csv t)).
      rewrite to_csv_read_csv. by apply stay_rows_absent.
    + rewrite stay_ids_elem. fold (to_csv (read_csv t)).
      by rewrite to_csv_read_csv.
Qed.

(** *** The imputer, stay by stay *)

Lemma structural_prefix_length rows kept :
  structural_prefix rows = Some kept → (length kept ≤ length rows)%nat.
Proof.
  unfold structural_prefix. intros Hk.
  repeat case_match; simplify_eq; [rewrite length_take|]; lia.
Qed.

Lemma impute_rows_length rows :
  (length (impute_rows rows) ≤ length rows)%nat.
Proof.
  unfold impute_rows. destruct (structural_prefix rows) as [kept|] eqn:Hk.
  - etrans; [apply fill_or_drop_length|]. by eapply structural_prefix_length.
  - apply Nat.le_0_l.
Qed.

Lemma impute_stay_acts :
  acts_on_stay (λ df s, Ok (impute_stay df s)) (λ rows, Ok (impute_rows rows)).
Proof.
  intros df s rows Hnd [= <-].
  destruct (impute_stay_spec df s Hnd) as (Hm & Hne & Hnd').
  exists (impute_stay df s). repeat split; try done.
  rewrite Hm. apply snd_zip. rewrite length_fmap.
  etrans; [apply impute_rows_length|]. by rewrite length_fmap.
Qed.

Lemma impute_holes_stay (t : list R) s :
  stay_rows s (impute_holes t) = impute_rows (stay_rows s t).
Proof.
  destruct (stage_spec _ _ t impute_stay_acts) as (out & Hout & Hs); [eauto|].
  rewrite for_each_stay_pure in Hout. injection Hout as <-.
  unfold impute_holes. destruct (Hs s) as [Hin Hnotin].
  destruct (decide (s ∈ row_sid <$> t)) as [Hel|Hel].
  - specialize (Hin Hel). by injection Hin as <-.
  - rewrite Hnotin, stay_rows_absent by done. done.
Qed.

End loop_lemmas.

(** ** Filling and the gap scan *)

Lemma isfinite_Fin c : isfinite c = true ↔ ∃ q, c = Fin q.
Proof. destruct c; naive_solver. Qed.

Lemma ffill_from_finite p l :
  isfinite p = true → Forall (λ c, isfinite c = true) (ffill_from p l).
Proof.
  revert p. induction l as [|c l IH]; intros p Hp; simpl; constructor.
  - by destruct (isfinite c) eqn:Hc.
  - apply IH. by destruct (isfinite c) eqn:Hc.
Qed.

Lemma ffill_from_last p l :
  isfinite p = true ∨ existsb isfinite l = true → l ≠ [] →
  ∃ z, last (ffill_from p l) = Some z ∧ isfinite z = true.
Proof.
  revert p. induction l as [|c l IH]; intros p Hp Hl; [done|]. simpl.
  assert (isfinite (if isfinite c then c else p) = true
          ∨ existsb isfinite l = true) as Hy.
  { simpl in Hp. destruct (isfinite c) eqn:Hc; naive_solver. }
  destruct l as [|c' l].
  - simpl. destruct Hy as [Hy|?]; [eauto|done].
  - destruct (IH _ Hy) as (z & Hz & Hfin); [done|].
    exists z. split; [|done]. simpl in *. done.
Qed.

Lemma existsb_isfinite_nonempty l : existsb isfinite l = true → l ≠ [].
Proof. by destruct l. Qed.

(** Once a column holds a finite value, forward fill then backward fill
    leaves no missing value in it. *)
Lemma fill_finite l :
  existsb isfinite l = true →
  Forall (λ c, isfinite c = true) (bfill (ffill l)).
Proof.
  intros Hl. unfold bfill. apply Forall_reverse.
  destruct (ffill_from_last NaN l) as (z & Hz & Hfin);
    [by right|by apply existsb_isfinite_nonempty|].
  fold (ffill l) in Hz. rewrite <-head_reverse in Hz.
  destruct (reverse (ffill l)) as [|z' rest]; simplify_eq/=.
  unfold ffill. simpl. rewrite Hfin. constructor; [done|].
  by apply ffill_from_finite.
Qed.

(** Filling changes no value that was there. *)
Lemma ffill_from_keeps p l i q :
  l !! i = Some (Fin q) → ffill_from p l !! i = Some (Fin q).
Proof.
  revert p i. induction l as [|c l IH]; intros p [|i] Hi; simplify_eq/=;
    [done|]. by apply IH.
Qed.

Lemma bfill_ffill_keeps l i q :
  l !! i = Some (Fin q) → bfill (ffill l) !! i = Some (Fin q).
Proof.
  intros Hi. unfold bfill.
  assert (i < length l)%nat as Hlt by (by eapply lookup_lt_Some).
  rewrite reverse_lookup
    by (by rewrite ffill_length, length_reverse, ffill_length).
  apply ffill_from_keeps.
  rewrite ffill_length, length_reverse, ffill_length.
  rewrite reverse_lookup by (rewrite ffill_length; lia).
  rewrite ffill_length.
  replace (length l - S (length l - S i))%nat with i by lia.
  by apply ffill_from_keeps.
Qed.

Lemma get_nan_index_gap l k : first_gap l k → get_nan_index l = Z.of_nat k.
Proof.
  intros (Hk & Hnan & Hfin). unfold get_nan_index.
  assert (list_find (λ x : bool, x = true)
            (drop 2 ((λ c, negb (isfinite c)) <$> l)) = Some ((k - 2)%nat, true))
    as ->.
  { apply list_find_Some. split; [|split; [done|]].
    - rewrite lookup_drop, list_lookup_fmap.
      replace (2 + (k - 2))%nat with k by lia. by rewrite Hnan.
    - intros j y. rewrite lookup_drop, list_lookup_fmap. intros Hj Hlt.
      destruct (Hfin (2 + j)%nat) as [q Hq]; [lia|].
      rewrite Hq in Hj. by simplify_eq/=. }
  lia.
Qed.

Lemma get_nan_index_no_gap l : no_gap l → get_nan_index l = -1.
Proof.
  intros Hno. unfold get_nan_index.
  assert (list_find (λ x : bool, x = true)
            (drop 2 ((λ c, negb (isfinite c)) <$> l)) = None) as ->; [|done].
  apply list_find_None, Forall_lookup. intros j y.
  rewrite lookup_drop, list_lookup_fmap. intros Hj.
  destruct (l !! (2 + j)%nat) as [c|] eqn:Hc; simplify_eq/=.
  rewrite (Hno (2 + j)%nat c); [done|lia|done].
Qed.

(** The scan finds a first gap or none. *)
Lemma get_nan_index_cases l :
  (get_nan_index l = -1 ∧ no_gap l) ∨
  (∃ k, get_nan_index l = Z.of_nat k ∧ first_gap l k ∧ (k < length l)%nat).
Proof.
  unfold get_nan_index.
  destruct (list_find _ _) as [[i b]|] eqn:Hfind.
  - right. exists (i + 2)%nat. split; [lia|].
    apply list_find_Some in Hfind as (Hi & -> & Hbefore).
    rewrite lookup_drop, list_lookup_fmap in Hi.
    replace (2 + i)%nat with (i + 2)%nat in Hi by lia.
    destruct (l !! (i + 2)%nat) as [c|] eqn:Hc; simplify_eq/=.
    split; [|by eapply lookup_lt_Some].
    split; [lia|]. split; [by destruct c|].
    intros j Hj. destruct (l !! j) as [c'|] eqn:Hc'.
    + destruct c' as [|q]; [|eauto].
      destruct (Hbefore (j - 2)%nat true); [|lia|done].
      rewrite lookup_drop, list_lookup_fmap.
      replace (2 + (j - 2))%nat with j by lia. by rewrite Hc'.
    + apply lookup_ge_None in Hc'. apply lookup_lt_Some in Hc. lia.
  - left. split; [done|]. intros j c Hj Hc.
    apply list_find_None in Hfind.
    rewrite Forall_lookup in Hfind.
    destruct c as [|q]; [|done].
    destruct (Hfind (j - 2)%nat true); [|done].
    rewrite lookup_drop, list_lookup_fmap.
    replace (2 + (j - 2))%nat with j by lia. by rewrite Hc.
Qed.

(** ** The imputer on one stay *)

Section impute_rows_lemmas.
Context {R : Type} `{RowLaws R}.
Implicit Types (rows kept : list R).

Lemma structural_prefix_inv rows kept :
  structural_prefix rows = Some kept →
  (3 ≤ length rows)%nat ∧
  existsb isfinite (drop 2 (cells "creatinine" rows)) = true ∧
  ((no_gap (cells "creatinine" rows) ∧ kept = rows) ∨
   (∃ k, first_gap (cells "creatinine" rows) k ∧ (2 < k < length rows)%nat ∧
         kept = take k rows)).
Proof.
  unfold structural_prefix. intros Hk.
  case_bool_decide as Hlen; [done|].
  destruct (existsb isfinite _) eqn:Hfin; [|done]. simpl in Hk.
  case_bool_decide as Htwo; [done|].
  split; [lia|]. split; [done|].
  destruct (get_nan_index_cases (cells "creatinine" rows))
    as [[Hidx Hno]|(k & Hidx & Hgap & Hlt)]; rewrite Hidx in *.
  - rewrite bool_decide_eq_false_2 in Hk by (intros Hn; by apply Hn).
    left. by simplify_eq.
  - rewrite bool_decide_eq_true_2 in Hk by lia.
    right. exists k. rewrite Nat2Z.id in Hk. simplify_eq.
    split; [done|]. split; [|done].
    unfold cells in Hlt. rewrite length_fmap in Hlt.
    destruct Hgap as (? & _). lia.
Qed.

Lemma structural_prefix_gap rows k :
  (3 ≤ length rows)%nat →
  existsb isfinite (drop 2 (cells "creatinine" rows)) = true →
  first_gap (cells "creatinine" rows) k →
  structural_prefix rows = if decide (k = 2%nat) then None else Some (take k rows).
Proof.
  intros Hlen Hfin Hgap. unfold structural_prefix.
  rewrite bool_decide_eq_false_2 by lia. rewrite Hfin. simpl.
  rewrite (get_nan_index_gap _ k Hgap). destruct (decide (k = 2%nat)) as [->|Hk].
  - by rewrite bool_decide_eq_true_2.
  - rewrite bool_decide_eq_false_2 by lia.
    rewrite bool_decide_eq_true_2 by lia. by rewrite Nat2Z.id.
Qed.

Lemma structural_prefix_no_gap rows :
  (3 ≤ length rows)%nat →
  existsb isfinite (drop 2 (cells "creatinine" rows)) = true →
  no_gap (cells "creatinine" rows) →
  structural_prefix rows = Some rows.
Proof.
  intros Hlen Hfin Hno. unfold structural_prefix.
  rewrite bool_decide_eq_false_2 by lia. rewrite Hfin. simpl.
  rewrite (get_nan_index_no_gap _ Hno).
  rewrite bool_decide_eq_false_2 by lia.
  by rewrite bool_decide_eq_false_2 by (intros Hn; by apply Hn).
Qed.

Lemma structural_prefix_kept_length rows kept :
  structural_prefix rows = Some kept → (3 ≤ length kept)%nat.
Proof.
  intros (Hlen & _ & [[_ ->]|(k & _ & Hk & ->)])%structural_prefix_inv;
    [done|]. rewrite length_take. lia.
Qed.

Lemma fill_or_drop_dropped rows f :
  f ∈ FEATURES → all_missing f rows → fill_or_drop rows = [].
Proof.
  intros Hf Hmiss. unfold fill_or_drop.
  assert (existsb (λ feature, negb (existsb isfinite (cells feature rows)))
            FEATURES = true) as ->; [|done].
  apply existsb_exists. exists f. split; [by apply list_elem_of_In|].
  unfold all_missing in Hmiss. by rewrite Hmiss.
Qed.

Lemma fill_or_drop_filled rows :
  (∀ f, f ∈ FEATURES → ¬ all_missing f rows) →
  fill_or_drop rows = apply_columns bfill (apply_columns ffill rows).
Proof.
  intros Hall. unfold fill_or_drop.
  destruct (existsb _ FEATURES) eqn:Hex; [|done].
  apply existsb_exists in Hex as (f & Hf%list_elem_of_In & Hmiss).
  destruct (Hall f Hf). unfold all_missing.
  by destruct (existsb isfinite (cells f rows)).
Qed.

Lemma fill_or_drop_cases rows :
  (∃ f, f ∈ FEATURES ∧ all_missing f rows ∧ fill_or_drop rows = []) ∨
  ((∀ f, f ∈ FEATURES → ¬ all_missing f rows) ∧
   fill_or_drop rows = apply_columns bfill (apply_columns ffill rows)).
Proof.
  unfold fill_or_drop.
  destruct (existsb _ FEATURES) eqn:Hex.
  - left. apply existsb_exists in Hex as (f & Hf%list_elem_of_In & Hmiss).
    exists f. split; [done|]. split; [|done]. unfold all_missing.
    by destruct (existsb isfinite (cells f rows)).
  - right. split; [|done]. intros f Hf Hmiss.
    assert (existsb (λ feature, negb (existsb isfinite (cells feature rows)))
              FEATURES = true) as Htrue; [|congruence].
    apply existsb_exists. exists f. split; [by apply list_elem_of_In|].
    unfold all_missing in Hmiss. by rewrite Hmiss.
Qed.

Lemma fill_cells rows f :
  f ∈ FEATURES →
  cells f (apply_columns bfill (apply_columns ffill rows))
  = bfill (ffill (cells f rows)).
Proof.
  intros Hf.
  rewrite !apply_columns_cells; auto using ffill_length, bfill_length.
Qed.

Lemma fill_cells_other rows f :
  f ∉ FEATURES →
  cells f (apply_columns bfill (apply_columns ffill rows)) = cells f rows.
Proof.
  intros Hf.
  rewrite !apply_columns_cells_other; auto using ffill_length, bfill_length.
Qed.

(** Apart from the float columns the filled rows are the rows given. *)
Lemma set_cells_erase f cs rows :
  length cs = length rows →
  row_with ∅ <$> set_cells f cs rows = row_with ∅ <$> rows.
Proof.
  unfold set_cells. revert rows.
  induction cs as [|c cs IH]; intros [|r rows] ?; simplify_eq/=; [done|].
  unfold set_cell at 1. rewrite row_with_with. f_equal. by apply IH.
Qed.

Lemma apply_columns_erase g rows :
  (∀ l, length (g l) = length l) →
  row_with ∅ <$> apply_columns g rows = row_with ∅ <$> rows.
Proof.
  intros Hg. unfold apply_columns. generalize FEATURES. intros fs.
  revert rows. induction fs as [|f fs IH]; intros rows; [done|].
  simpl. rewrite IH. apply set_cells_erase.
  unfold cells. by rewrite Hg, length_fmap.
Qed.

End impute_rows_lemmas.

(** ** The labeler on one stay *)

Lemma assign_aki_labels s ls (df : frame patient_record) :
  (assign_aki s ls df).*1 = df.*1.
Proof.
  revert ls. induction df as [|[i r] df IH]; intros ls; [done|]. simpl.
  case_bool_decide; [destruct ls|]; simpl; by rewrite IH.
Qed.

Lemma mask_assign_aki_ne s s' ls (df : frame patient_record) :
  s' ≠ s → mask_stay s' (assign_aki s ls df) = mask_stay s' df.
Proof.
  intros Hne. revert ls.
  induction df as [|[i r] df IH]; intros ls; [done|]. simpl.
  unfold mask_stay in *. case_bool_decide as Hr; [destruct ls as [|l ls]|];
    rewrite !filter_cons; simpl in *.
  - rewrite !decide_False by congruence. apply IH.
  - rewrite !decide_False by congruence. apply IH.
  - destruct (decide (stay_id (day r) = s')); by rewrite IH.
Qed.

Lemma mask_assign_aki s ls (df : frame patient_record) :
  length (mask_stay s df) = length ls →
  (mask_stay s (assign_aki s ls df)).*2
  = zip_with (λ l r, with_aki (Some l) r) ls (mask_stay s df).*2.
Proof.
  revert ls. induction df as [|[i r] df IH]; intros ls.
  { simpl. by destruct ls. }
  simpl. unfold mask_stay in *. rewrite !filter_cons. simpl.
  case_bool_decide as Hr.
  - rewrite decide_True by done. destruct ls as [|l ls]; [done|].
    intros [= Hlen]. rewrite filter_cons. simpl.
    rewrite decide_True by done. simpl. f_equal. by apply IH.
  - rewrite decide_False by done. intros Hlen. rewrite filter_cons. simpl.
    rewrite decide_False by done. by apply IH.
Qed.

Lemma index_reverse_last {A} (l : list A) x :
  index (reverse l) 0 = Ok x → drop (length l - 1) l = [x].
Proof.
  unfold index. destruct (reverse l !! 0%nat) as [y|] eqn:Hy; [|done].
  intros [= ->]. rewrite <-head_lookup in Hy.
  rewrite head_reverse in Hy. revert Hy.
  induction l as [|a l _] using rev_ind; [done|].
  rewrite last_snoc. intros [= ->].
  rewrite length_app. simpl.
  replace (length l + 1 - 1)%nat with (length l + 0)%nat by lia.
  by rewrite drop_app_length'.
Qed.

Lemma index_fmap_is_Ok {A B} (f : A → B) (l : list A) y :
  index (f <$> l) 0 = Ok y → l ≠ [].
Proof. by destruct l. Qed.

Lemma index_reverse_nonempty {A} (l : list A) :
  l ≠ [] → ∃ x, index (reverse l) 0 = Ok x.
Proof.
  induction l as [|a l _] using rev_ind; [done|]. intros _.
  rewrite reverse_snoc. by exists a.
Qed.

Lemma label_stay_acts : acts_on_stay label_stay label_rows.
Proof.
  intros df s rows Hnd. unfold label_rows, label_stay, col.
  assert (∀ out, out = []
          → ∃ df', (Ok (drop_stay s df) : res (frame patient_record)) = Ok df'
                   ∧ (mask_stay s df').*2 = out
                   ∧ (∀ s', s' ≠ s → mask_stay s' df' = mask_stay s' df)
                   ∧ NoDup df'.*1) as Hdropped.
  { intros out ->. exists (drop_stay s df). rewrite mask_drop_stay.
    auto using mask_drop_stay_ne, drop_stay_labels. }
  remember (mask_stay s df) as sub eqn:Esub.
  destruct (index (black <$> sub.*2) 0) as [b|] eqn:Hb; [|done].
  assert (sub.*1 ≠ []) as Hne.
  { apply index_fmap_is_Ok in Hb. by destruct sub. }
  destruct (index (age <$> sub.*2) 0) as [a|]; [|done].
  destruct (index (gender <$> sub.*2) 0) as [g|]; [|done].
  cbn [mbind res_bind].
  case_bool_decide; [intros [= <-]; by apply Hdropped|].
  destruct (or_else _ _) as [pre|]; [|done]. cbn [mbind res_bind].
  destruct pre; [intros [= <-]; by apply Hdropped|].
  destruct (mapM _ (drop 1 _)) as [aki1|]; [|done]. cbn [mbind res_bind].
  destruct (mapM _ (drop 2 _)) as [aki2|]; [|done]. cbn [mbind res_bind].
  remember (0 :: zip_with _ aki1 aki2) as labels eqn:Elabels.
  destruct (index_reverse_nonempty _ Hne) as [last Hlast]. rewrite Hlast.
  cbn [mbind res_bind].
  apply index_reverse_last in Hlast.
  rewrite length_fmap, <-fmap_drop in Hlast.
  assert (mask_stay s (drop_labels [last] df)
          = take (length sub - 1) sub) as Hkept.
  { rewrite <-Hlast, Esub. by apply mask_drop_labels. }
  assert (∀ s', s' ≠ s → mask_stay s' (drop_labels [last] df)
                          = mask_stay s' df) as Hkept_ne.
  { intros s' Hs'. apply (mask_drop_labels_ne s); [done..|].
    rewrite <-Hlast, <-Esub, fmap_drop. apply subseteq_drop. }
  unfold loc_assign_aki. rewrite Hkept.
  rewrite ?length_take, ?length_fmap, ?length_take.
  case_bool_decide as Hlen; [|done]. intros Hrows. cbn [mbind res_bind].
  injection Hrows as <-.
  remember (assign_aki s labels (drop_labels [last] df)) as df2 eqn:Edf2.
  assert (NoDup df2.*1) as Hnd2.
  { subst df2. rewrite assign_aki_labels. by apply drop_labels_labels. }
  assert ((mask_stay s df2).*2
          = zip_with (λ l r, with_aki (Some l) r) labels
              (take (length sub.*2 - 1) sub.*2)) as Hdf2.
  { subst df2. rewrite mask_assign_aki.
    - by rewrite Hkept, fmap_take, length_fmap.
    - rewrite Hkept, length_take. lia. }
  assert (∀ s', s' ≠ s → mask_stay s' df2 = mask_stay s' df) as Hdf2_ne.
  { intros s' Hs'. subst df2. rewrite mask_assign_aki_ne by done. auto. }
  rewrite length_fmap in Hdf2.
  case_bool_decide as Htrunc.
  - eexists. split; [done|]. split; [|split].
    + rewrite mask_drop_labels by done. by rewrite fmap_take, Hdf2.
    + intros s' Hs'. rewrite (mask_drop_labels_ne s); [auto|done..|].
      rewrite fmap_drop. apply subseteq_drop.
    + by apply drop_labels_labels.
  - exists df2. split; [done|]. split; [|split]; [|done..].
    rewrite length_fmap, length_drop in Htrunc.
    rewrite <-(take_ge (mask_stay s df2) 8) by lia.
    by rewrite fmap_take, Hdf2.
Qed.

Lemma mapM_res_Ok {A B} (f : A → res B) (g : A → B) (l : list A) :
  (∀ x, f x = Ok (g x)) → mapM f l = Ok (g <$> l).
Proof.
  intros Hf. induction l as [|x l IH]; [done|].
  cbn [mapM]. rewrite Hf. cbn. rewrite IH. done.
Qed.

Lemma diffs_lookup (scr : list cell) (j : nat) a b :
  scr !! j = Some a → scr !! S j = Some b →
  zip_with float_sub (drop 1 scr) (take (length scr - 1) scr) !! j
  = Some (float_sub b a).
Proof.
  intros Ha Hb. rewrite lookup_zip_with, lookup_drop. simpl. rewrite Hb. simpl.
  rewrite lookup_take_lt; [by rewrite Ha|].
  apply lookup_lt_Some in Hb. lia.
Qed.

Lemma labelled_length stay :
  length (labelled stay) = (length stay - 1)%nat.
Proof. unfold labelled. rewrite length_imap, length_take. lia. Qed.

(** The labels the loop computes are the next-day labels. *)
Lemma computed_labels (stay : list patient_record) r0 :
  head stay = Some r0 →
  let scr := cells "creatinine" stay in
  let diffs := zip_with float_sub (drop 1 scr) (take (length scr - 1) scr) in
  let aki1 := (λ x, float_ge x (Fin (dec 0.3))) <$> drop 1 diffs in
  let aki2 := aki_by_level (black r0) (age r0) (gender r0) <$> drop 2 scr in
  zip_with (λ l r, with_aki (Some l) r)
    (0 :: zip_with (λ a b : bool, if a || b then 1 else 0) aki1 aki2)
    (take (length stay - 1) stay)
  = labelled stay.
Proof.
  intros Hhead scr diffs aki1 aki2. unfold labelled. apply list_eq. intros i.
  rewrite lookup_zip_with, list_lookup_imap.
  destruct (decide (i < length stay - 1)%nat) as [Hi|Hi].
  2:{ rewrite (lookup_ge_None_2 (take _ _)) by (rewrite length_take; lia).
      simpl. by destruct (_ !! i). }
  rewrite lookup_take_lt by done.
  destruct (lookup_lt_is_Some_2 stay i) as [r Hr]; [lia|]. rewrite Hr.
  destruct i as [|j]; [by destruct stay|].
  rewrite lookup_cons, lookup_zip_with.
  destruct (lookup_lt_is_Some_2 scr (S j)) as [a Ha];
    [unfold scr, cells; rewrite length_fmap; lia|].
  destruct (lookup_lt_is_Some_2 scr (S (S j))) as [b Hb];
    [unfold scr, cells; rewrite length_fmap; lia|].
  unfold aki1, aki2. rewrite !list_lookup_fmap, !lookup_drop.
  unfold diffs. rewrite (diffs_lookup scr (1 + j) a b Ha Hb).
  replace (2 + j)%nat with (S (S j)) by lia. rewrite Hb. simpl.
  unfold next_day_label. destruct stay as [|r0' stay']; [done|].
  simplify_eq/=.
  rewrite (list_lookup_total_correct _ _ _ Ha).
  rewrite (list_lookup_total_correct _ _ _ Hb).
  done.
Qed.

Lemma label_rows_spec (r0 r1 : patient_record) rest :
  let stay := r0 :: r1 :: rest in
  let c0 := cell_of "creatinine" r0 in
  let c1 := cell_of "creatinine" r1 in
  label_rows stay
  = Ok (if bool_decide (age r0 < 20)
           || aki_by_diff c0 c1
           || aki_by_level (black r0) (age r0) (gender r0) c0
           || aki_by_level (black r0) (age r0) (gender r0) c1
        then [] else take 8 (labelled stay)).
Proof.
  intros stay c0 c1. unfold label_rows.
  change (index (black <$> stay) 0) with (Ok (black r0)).
  change (index (age <$> stay) 0) with (Ok (age r0)).
  change (index (gender <$> stay) 0) with (Ok (gender r0)).
  cbn [mbind res_bind].
  case_bool_decide as Hage; [done|]. cbn [orb].
  remember (cells "creatinine" stay) as scr eqn:Escr.
  remember (zip_with float_sub (drop 1 scr) (take (length scr - 1) scr))
    as diffs eqn:Ediffs.
  assert (scr !! 0%nat = Some c0 ∧ scr !! 1%nat = Some c1) as [H0 H1]
    by by subst scr.
  assert (index diffs 0 = Ok (float_sub c1 c0)) as ->.
  { unfold index. subst diffs. by rewrite (diffs_lookup scr 0 c0 c1). }
  assert (index scr 0 = Ok c0) as -> by (unfold index; by rewrite H0).
  assert (index scr 1 = Ok c1) as -> by (unfold index; by rewrite H1).
  cbn [mbind res_bind has_aki or_else].
  fold (aki_by_diff c0 c1).
  fold (aki_by_level (black r0) (age r0) (gender r0) c0).
  fold (aki_by_level (black r0) (age r0) (gender r0) c1).
  destruct (aki_by_diff c0 c1); [done|]. cbn [orb].
  destruct (aki_by_level _ _ _ c0); [done|]. cbn [orb].
  destruct (aki_by_level _ _ _ c1); [done|]. cbn [mbind res_bind].
  rewrite (mapM_res_Ok (λ x, Ok (float_ge x (Fin (dec 0.3))))
             (λ x, float_ge x (Fin (dec 0.3)))) by reflexivity.
  cbn [mbind res_bind].
  rewrite (mapM_res_Ok
             (λ x, Ok (float_ge x
                         (float_mul (Fin (dec 1.5))
                            (Fin (get_baseline (black r0) (age r0)
                                    (gender r0))))))
             (aki_by_level (black r0) (age r0) (gender r0))) by reflexivity.
  cbn [mbind res_bind].
  subst diffs scr. rewrite (computed_labels stay r0) by done.
  rewrite bool_decide_eq_true_2; [done|].
  rewrite length_take. cbn [length].
  rewrite length_zip_with, !length_fmap, !length_drop, length_zip_with.
  rewrite length_drop, length_take. unfold cells. rewrite length_fmap.
  unfold stay. cbn [length]. lia.
Qed.

(** ** Rational arithmetic *)

Lemma this_plus (a b : Qc) : (this (a + b)%Qc == this a + this b)%Q.
Proof. apply Qred_correct. Qed.

Lemma this_mult (a b : Qc) : (this (a * b)%Qc == this a * this b)%Q.
Proof. apply Qred_correct. Qed.

Lemma this_opp (a : Qc) : (this (- a)%Qc == - this a)%Q.
Proof. apply Qred_correct. Qed.

Lemma this_minus (a b : Qc) : (this (a - b)%Qc == this a - this b)%Q.
Proof. unfold Qcminus. rewrite this_plus, this_opp. reflexivity. Qed.

Lemma this_of_nat n : (this (Qc_of_nat n) == inject_Z (Z.of_nat n))%Q.
Proof. apply Qred_correct. Qed.

Lemma this_dec x : (this (dec x) == x)%Q.
Proof. apply Qred_correct. Qed.

Ltac qc_to_q :=
  unfold Qcle, Qclt in *;
  repeat (rewrite ?this_plus, ?this_mult, ?this_minus, ?this_opp,
            ?this_of_nat, ?this_dec in * );
  change (this 0%Qc) with 0%Q in *; change (this 1%Qc) with 1%Q in *.

Lemma interpolate_between (a b f : Qc) :
  (a ≤ b → 0 ≤ f → f ≤ 1 → a ≤ a + f * (b - a) ∧ a + f * (b - a) ≤ b)%Qc.
Proof. intros Hab Hf0 Hf1. qc_to_q. split; nra. Qed.

Lemma interpolate_mono (a b f g : Qc) :
  (a ≤ b → f ≤ g → a + f * (b - a) ≤ a + g * (b - a))%Qc.
Proof. intros Hab Hf. qc_to_q. nra. Qed.

Lemma floor_nonneg (h : Qc) : (0 ≤ h)%Qc → (0 ≤ Qfloor h)%Z.
Proof.
  intros Hh. change 0%Z with (Qfloor 0). apply Qfloor_resp_le. exact Hh.
Qed.

Lemma floor_bounds (h : Qc) :
  (0 ≤ h)%Qc →
  (0 ≤ h - Qc_of_nat (Z.to_nat (Qfloor h)))%Qc ∧
  (h - Qc_of_nat (Z.to_nat (Qfloor h)) ≤ 1)%Qc.
Proof.
  intros Hh. pose proof (floor_nonneg h Hh) as Hfl. qc_to_q.
  rewrite Z2Nat.id by done.
  pose proof (Qfloor_le h) as Hle. pose proof (Qlt_floor h) as Hlt.
  rewrite inject_Z_plus in Hlt. change (inject_Z 1) with 1%Q in Hlt.
  split; lra.
Qed.

Lemma floor_mono (h1 h2 : Qc) :
  (0 ≤ h1)%Qc → (h1 ≤ h2)%Qc →
  (Z.to_nat (Qfloor h1) ≤ Z.to_nat (Qfloor h2))%nat.
Proof.
  intros H0 Hle. apply Z2Nat.inj_le.
  - by apply floor_nonneg.
  - apply floor_nonneg. by etrans.
  - by apply Qfloor_resp_le.
Qed.

Lemma floor_le_nat (h : Qc) n :
  (h ≤ Qc_of_nat n)%Qc → (Z.to_nat (Qfloor h) ≤ n)%nat.
Proof.
  intros Hle. qc_to_q. apply Qfloor_resp_le in Hle.
  rewrite Qfloor_Z in Hle. lia.
Qed.

(** ** Quantiles *)

Lemma sorted_nth (xs : list Qc) d i j :
  StronglySorted Qcle xs → (i ≤ j)%nat → (j < length xs)%nat →
  (nth i xs d ≤ nth j xs d)%Qc.
Proof.
  intros Hs. revert i j. induction Hs as [|x xs Hs IH Hx]; intros i j Hij Hj.
  { simpl in Hj. lia. }
  destruct i as [|i], j as [|j]; simpl in *; try lia.
  - reflexivity.
  - rewrite Forall_forall in Hx. apply Hx, list_elem_of_In, nth_In. lia.
  - apply IH; lia.
Qed.

Lemma interpolate_sorted_mono (xs : list Qc) x0 (h1 h2 : Qc) :
  StronglySorted Qcle xs → xs ≠ [] →
  (0 ≤ h1)%Qc → (h1 ≤ h2)%Qc → (h2 ≤ Qc_of_nat (length xs - 1))%Qc →
  (interpolate xs x0 h1 ≤ interpolate xs x0 h2)%Qc.
Proof.
  intros Hs Hne H0 H12 Hn. unfold interpolate.
  assert (0 < length xs)%nat as Hlen by (destruct xs; simpl; [done|lia]).
  assert (0 ≤ h2)%Qc as H0' by by etrans.
  pose proof (floor_mono h1 h2 H0 H12) as Hlo.
  pose proof (floor_le_nat h2 _ Hn) as Hhi.
  destruct (floor_bounds h1 H0) as [Hf1 Hf1'].
  destruct (floor_bounds h2 H0') as [Hf2 Hf2'].
  set (l1 := Z.to_nat (Qfloor h1)) in *.
  set (l2 := Z.to_nat (Qfloor h2)) in *.
  assert (∀ l, (l ≤ length xs - 1)%nat →
            (nth l xs x0 ≤ nth ((l + 1) `min` (length xs - 1)) xs x0)%Qc)
    as Hstep by (intros l Hl; apply sorted_nth; [done|lia..]).
  destruct (decide (l1 = l2)) as [Heq|Hneq].
  - rewrite Heq in *. apply interpolate_mono; [apply Hstep; lia|].
    qc_to_q. lra.
  - destruct (interpolate_between (nth l1 xs x0)
                (nth ((l1 + 1) `min` (length xs - 1)) xs x0)
                (h1 - Qc_of_nat l1)) as [_ Hup]; [apply Hstep; lia|done..|].
    destruct (interpolate_between (nth l2 xs x0)
                (nth ((l2 + 1) `min` (length xs - 1)) xs x0)
                (h2 - Qc_of_nat l2)) as [Hdown _]; [apply Hstep; lia|done..|].
    etrans; [exact Hup|]. etrans; [|exact Hdown].
    apply sorted_nth; [done|lia..].
Qed.

Lemma quantile_mono (q1 q2 : Qc) (column : list cell) :
  (0 ≤ q1)%Qc → (q1 ≤ q2)%Qc → (q2 ≤ 1)%Qc →
  cell_lt (quantile q2 column) (quantile q1 column) = false.
Proof.
  intros H0 H12 H1. unfold quantile.
  pose proof (StronglySorted_merge_sort Qcle (finite_values column)) as Hs.
  destruct (merge_sort Qcle (finite_values column)) as [|x0 xs] eqn:Hxs;
    [done|].
  unfold cell_lt, cell_gt, Qc_ltb. apply bool_decide_eq_false_2.
  apply Qcle_not_lt. apply interpolate_sorted_mono; [done|done|..].
  - qc_to_q. assert (0 <= inject_Z (Z.of_nat (length (x0 :: xs) - 1)))%Q.
    { change 0%Q with (inject_Z 0). rewrite <-Zle_Qle. lia. }
    nra.
  - qc_to_q. assert (0 <= inject_Z (Z.of_nat (length (x0 :: xs) - 1)))%Q.
    { change 0%Q with (inject_Z 0). rewrite <-Zle_Qle. lia. }
    nra.
  - qc_to_q. assert (0 <= inject_Z (Z.of_nat (length (x0 :: xs) - 1)))%Q.
    { change 0%Q with (inject_Z 0). rewrite <-Zle_Qle. lia. }
    nra.
Qed.

Lemma clip_bounds (column : list cell) :
  cell_lt (quantile (dec 0.99) column) (quantile (dec 0.01) column) = false.
Proof. by apply quantile_mono. Qed.

(** ** The clipper on the rows *)

Section clipper_lemmas.
Context {R : Type} `{RowLaws R}.
Implicit Types (df : frame R) (rows : list R).

Lemma set_cell_set_cell f a b (r : R) :
  set_cell f a (set_cell f b r) = set_cell f a r.
Proof.
  unfold set_cell. by rewrite row_vals_with, row_with_with, insert_insert_eq.
Qed.

Lemma set_cell_erase f c (r : R) : row_with ∅ (set_cell f c r) = row_with ∅ r.
Proof. unfold set_cell. by rewrite row_with_with. Qed.

Lemma length_assign_where mask f b rows :
  length mask = length rows → length (assign_where mask f b rows) = length rows.
Proof. intros. unfold assign_where. rewrite length_zip_with. lia. Qed.

Lemma assign_where_none mask f b rows :
  existsb id mask = false → length mask = length rows →
  assign_where mask f b rows = rows.
Proof.
  unfold assign_where. revert rows.
  induction mask as [|m mask IH]; intros [|r rows] Hex Hlen;
    simplify_eq/=; [done|].
  apply orb_false_iff in Hex as [-> Hex]. f_equal. by apply IH.
Qed.

Lemma assign_where_clip f lower upper rows cs :
  cs = cells f rows →
  assign_where ((λ x, cell_lt x lower) <$> cs) f lower
    (assign_where ((λ x, cell_gt x upper) <$> cs) f upper rows)
  = clip_row f lower upper <$> rows.
Proof.
  intros ->. unfold assign_where, cells.
  induction rows as [|r rows IH]; [done|]. simpl. f_equal; [|apply IH].
  unfold clip_row.
  destruct (cell_gt (cell_of f r) upper), (cell_lt (cell_of f r) lower);
    try done.
  apply set_cell_set_cell.
Qed.

Lemma on_data_id df : on_data (λ rows, rows) df = df.
Proof. apply zip_fst_snd. Qed.

Lemma on_data_compose g1 g2 df :
  length (g1 df.*2) = length df →
  on_data g2 (on_data g1 df) = on_data (λ rows, g2 (g1 rows)) df.
Proof.
  intros Hlen. unfold on_data at 1. rewrite on_data_labels, on_data_rows; done.
Qed.

Lemma clip_feature_rows df f : clip_feature df f = on_data (clip_rows f) df.
Proof.
  unfold clip_feature, col.
  set (cs := cells f df.*2).
  set (upper := quantile (dec 0.99) cs). set (lower := quantile (dec 0.01) cs).
  assert (length cs = length df) as Hcs
    by (unfold cs, cells; by rewrite !length_fmap).
  assert ((if existsb id ((λ x, cell_gt x upper) <$> cs)
           then on_data (assign_where ((λ x, cell_gt x upper) <$> cs) f upper)
                  df
           else df)
          = on_data (assign_where ((λ x, cell_gt x upper) <$> cs) f upper) df)
    as ->.
  { destruct (existsb _ _) eqn:Hex; [done|]. unfold on_data.
    rewrite assign_where_none; [by rewrite zip_fst_snd|done|].
    by rewrite !length_fmap. }
  set (df1 := on_data _ df).
  assert (length df1.*2 = length df) as Hdf1.
  { unfold df1. rewrite on_data_rows;
      rewrite length_assign_where; rewrite !length_fmap; done. }
  assert ((if existsb id ((λ x, cell_lt x lower) <$> cs)
           then on_data (assign_where ((λ x, cell_lt x lower) <$> cs) f lower)
                  df1
           else df1)
          = on_data (assign_where ((λ x, cell_lt x lower) <$> cs) f lower) df1)
    as ->.
  { destruct (existsb _ _) eqn:Hex; [done|]. unfold on_data.
    rewrite assign_where_none; [by rewrite zip_fst_snd|done|].
    rewrite length_fmap. lia. }
  unfold df1. rewrite on_data_compose
    by (rewrite length_assign_where; rewrite !length_fmap; done).
  unfold on_data. f_equal. by apply assign_where_clip.
Qed.

Lemma length_clip_rows f rows : length (clip_rows f rows) = length rows.
Proof. unfold clip_rows. by rewrite length_fmap. Qed.

Lemma to_csv_foldl_on_data (g : string → list R → list R) fs df :
  (∀ f rows, length (g f rows) = length rows) →
  to_csv (foldl (λ df f, on_data (g f) df) df fs)
  = foldl (λ rows f, g f rows) df.*2 fs.
Proof.
  intros Hg. revert df. induction fs as [|f fs IH]; intros df; [done|].
  simpl. rewrite IH, on_data_rows; [done|]. by rewrite Hg, length_fmap.
Qed.

Lemma transform_outliers_rows (t : list R) :
  transform_outliers t = foldl (λ rows f, clip_rows f rows) t FEATURES.
Proof.
  unfold transform_outliers.
  rewrite (foldl_pointwise _ (λ df f, on_data (clip_rows f) df))
    by (intros; apply clip_feature_rows).
  rewrite to_csv_foldl_on_data by apply length_clip_rows.
  fold (to_csv (read_csv t)). by rewrite to_csv_read_csv.
Qed.

Lemma cell_of_clip_row f g lower upper (r : R) :
  cell_of g (clip_row f lower upper r)
  = if decide (f = g) then clip_cell lower upper (cell_of g r)
    else cell_of g r.
Proof.
  unfold clip_row, clip_cell. destruct (decide (f = g)) as [->|Hne].
  - repeat case_match; rewrite ?cell_of_set_cell, ?decide_True; done.
  - repeat case_match; rewrite ?cell_of_set_cell, ?decide_False; done.
Qed.

Lemma cells_clip_rows f rows :
  cells f (clip_rows f rows)
  = clip_cell (quantile (dec 0.01) (cells f rows))
              (quantile (dec 0.99) (cells f rows)) <$> cells f rows.
Proof.
  unfold clip_rows, cells. rewrite <-!list_fmap_compose.
  apply list_fmap_ext. intros i r _. simpl.
  by rewrite cell_of_clip_row, decide_True.
Qed.

Lemma cells_clip_rows_ne f g rows :
  f ≠ g → cells g (clip_rows f rows) = cells g rows.
Proof.
  intros Hne. unfold clip_rows, cells. rewrite <-!list_fmap_compose.
  apply list_fmap_ext. intros i r _. simpl.
  by rewrite cell_of_clip_row, decide_False.
Qed.

Lemma clip_rows_erase f rows :
  row_with ∅ <$> clip_rows f rows = row_with ∅ <$> rows.
Proof.
  unfold clip_rows. rewrite <-list_fmap_compose.
  apply list_fmap_ext. intros i r _. simpl. unfold clip_row.
  repeat case_match; by rewrite ?set_cell_erase.
Qed.

(** After the loop over the features each feature column is the column of
    the input clipped at its own percentiles. *)
Lemma clip_fold fs rows :
  NoDup fs →
  let rows' := foldl (λ rows f, clip_rows f rows) rows fs in
  length rows' = length rows ∧
  row_with ∅ <$> rows' = row_with ∅ <$> rows ∧
  ∀ f, cells f rows'
       = if decide (f ∈ fs)
         then clip_cell (quantile (dec 0.01) (cells f rows))
                        (quantile (dec 0.99) (cells f rows)) <$> cells f rows
         else cells f rows.
Proof.
  simpl. revert rows. induction fs as [|f0 fs IH]; intros rows Hnd.
  { by repeat split. }
  apply NoDup_cons in Hnd as [Hf0 Hnd]. simpl.
  destruct (IH (clip_rows f0 rows) Hnd) as (IH1 & IH2 & IH3).
  split; [|split].
  - by rewrite IH1, length_clip_rows.
  - by rewrite IH2, clip_rows_erase.
  - intros f. rewrite IH3. destruct (decide (f = f0)) as [->|Hne].
    + rewrite decide_False by done. rewrite decide_True by set_solver.
      apply cells_clip_rows.
    + rewrite !(cells_clip_rows_ne f0 f) by done.
      destruct (decide (f ∈ fs)).
      * by rewrite decide_True by set_solver.
      * by rewrite decide_False by set_solver.
Qed.

Lemma Qc_ltb_irrefl a : Qc_ltb a a = false.
Proof. apply bool_decide_eq_false_2, (irreflexivity Qclt). Qed.

Lemma clip_cell_within lower upper x :
  cell_lt upper lower = false → within lower upper (clip_cell lower upper x).
Proof.
  unfold within, clip_cell, cell_lt, cell_gt. intros Hb.
  destruct lower as [|l], upper as [|u], x as [|x]; try done.
  - destruct (Qc_ltb u x) eqn:Hux; [|done]. by rewrite Qc_ltb_irrefl.
  - destruct (Qc_ltb x l) eqn:Hxl; [|done]. by rewrite Qc_ltb_irrefl.
  - destruct (Qc_ltb x l) eqn:Hxl; [by rewrite Qc_ltb_irrefl|].
    destruct (Qc_ltb u x) eqn:Hux; [|done]. by rewrite Qc_ltb_irrefl.
Qed.

Lemma clip_row_within f lower upper (r : R) :
  within lower upper (cell_of f r) → clip_row f lower upper r = r.
Proof. unfold within, clip_row. by intros [-> ->]. Qed.

Lemma clip_fold_fixed fs rows :
  (∀ f, f ∈ fs →
     Forall (within (quantile (dec 0.01) (cells f rows))
                    (quantile (dec 0.99) (cells f rows))) (cells f rows)) →
  foldl (λ rows f, clip_rows f rows) rows fs = rows.
Proof.
  induction fs as [|f fs IH]; intros Hall; [done|]. simpl.
  assert (clip_rows f rows = rows) as ->.
  { unfold clip_rows. transitivity (id <$> rows); [|apply list_fmap_id].
    apply list_fmap_ext. intros i r Hr. simpl. apply clip_row_within.
    specialize (Hall f (list_elem_of_here _ _)).
    rewrite Forall_lookup in Hall. apply (Hall i).
    unfold cells. by rewrite list_lookup_fmap, Hr. }
  apply IH. intros f' Hf'. apply Hall. by right.
Qed.

End clipper_lemmas.

(** ** Strings and keys *)

Lemma before_append c s rest :
  occurs c s = false → before c (s +:+ String c rest) = s.
Proof.
  induction s as [|a s IH]; simpl.
  - intros _. by rewrite Ascii.eqb_refl.
  - intros [Ha Hs]%orb_false_iff. rewrite Ha. f_equal. by apply IH.
Qed.

Lemma append_inj_r s a b : s +:+ a = s +:+ b → a = b.
Proof. induction s as [|c s IH]; simpl; [done|]. intros [= ?]. auto. Qed.

Lemma uint_no_underscore d :
  occurs "_" (NilEmpty.string_of_uint d) = false.
Proof. induction d; simpl; done. Qed.

Lemma str_no_underscore n : occurs "_" (str n) = false.
Proof.
  unfold str. destruct (Z.to_int n) as [d|d]; simpl.
  - destruct d; try done; apply (uint_no_underscore (_ d)).
  - destruct d; try done; apply (uint_no_underscore (_ d)).
Qed.

(** [int(str(n)) == n] *)
Lemma int_str n : int (str n) = Ok n.
Proof.
  unfold int, str. rewrite NilZero.isi.
  - by rewrite DecimalZ.of_to.
  - destruct n; simpl; try done. intros [= Hp]. by apply DecimalPos.Unsigned.to_uint_nonnil in Hp.
  - destruct n; simpl; try done. intros [= Hp]. by apply DecimalPos.Unsigned.to_uint_nonnil in Hp.
Qed.

Lemma str_inj n m : str n = str m → n = m.
Proof.
  intros Heq. assert (int (str n) = int (str m)) as Hint by by rewrite Heq.
  rewrite !int_str in Hint. by apply Ok_inj in Hint.
Qed.

Lemma before_stay_day_key stay day :
  before "_" (stay_day_key stay day) = str stay.
Proof. apply before_append, str_no_underscore. Qed.

(** The key of a day determines the stay and the day. *)
Lemma stay_day_key_inj stay day stay' day' :
  stay_day_key stay day = stay_day_key stay' day' → stay = stay' ∧ day = day'.
Proof.
  intros Heq.
  assert (str stay = str stay') as Hstr.
  { rewrite <-(before_stay_day_key stay day), Heq.
    apply before_stay_day_key. }
  apply str_inj in Hstr as ->. split; [done|].
  unfold stay_day_key in Heq. apply append_inj_r in Heq. by injection Heq.
Qed.

(** ** The aggregator *)

Lemma mapM_res_Ok_elem {A B} (f : A → res B) (g : A → B) (l : list A) :
  (∀ x, x ∈ l → f x = Ok (g x)) → mapM f l = Ok (g <$> l).
Proof.
  induction l as [|x l IH]; intros Hf; [done|].
  cbn [mapM]. rewrite Hf by left. cbn. rewrite IH; [done|].
  intros y Hy. apply Hf. by right.
Qed.

Lemma filter_fmap_pre {A B} (P : B → Prop) `{!∀ x, Decision (P x)}
    (f : A → B) (l : list A) :
  filter P (f <$> l) = f <$> filter (λ x, P (f x)) l.
Proof.
  induction l as [|x l IH]; [done|]. rewrite fmap_cons, !filter_cons.
  destruct (decide (P (f x))); by rewrite ?fmap_cons, IH.
Qed.

Lemma filter_iff_elem {A} (P Q : A → Prop)
    `{!∀ x, Decision (P x), !∀ x, Decision (Q x)} (l : list A) :
  (∀ x, x ∈ l → (P x ↔ Q x)) → filter P l = filter Q l.
Proof.
  induction l as [|x l IH]; intros Hiff; [done|]. rewrite !filter_cons.
  assert (filter P l = filter Q l) as -> by (apply IH; intros; apply Hiff; by right).
  destruct (decide (P x)) as [HP|HP].
  - rewrite decide_True; [done|]. by apply (Hiff x); [left|].
  - rewrite decide_False; [done|]. intros HQ. apply HP. by apply (Hiff x); [left|].
Qed.

Lemma foldl_insert_is_Some {A V} (kf : A → string) (vf : A → V)
    (l : list A) (m : gmap string V) k :
  is_Some (m !! k) ∨ k ∈ kf <$> l →
  is_Some (foldl (λ m t, <[kf t := vf t]> m) m l !! k).
Proof.
  revert m. induction l as [|x l IH]; intros m Hk; simpl.
  { destruct Hk as [?|Hk]; [done|]. by apply elem_of_nil in Hk. }
  apply IH. destruct (decide (kf x = k)) as [<-|Hne].
  - left. by rewrite lookup_insert_eq.
  - rewrite lookup_insert_ne by done. destruct Hk as [?|Hk]; [by left|].
    right. rewrite fmap_cons in Hk. by apply elem_of_cons in Hk as [?|?].
Qed.

Lemma list_to_map_total (h : string → cell) (cols : list string) f :
  (list_to_map ((λ f, (f, h f)) <$> cols) : gmap string cell) !!! f
  = if decide (f ∈ cols) then h f else NaN.
Proof.
  induction cols as [|c cols IH]; [done|].
  rewrite fmap_cons, list_to_map_cons. destruct (decide (c = f)) as [->|Hne].
  - rewrite lookup_total_insert_eq. by rewrite decide_True by left.
  - rewrite lookup_total_insert_ne, IH by done.
    destruct (decide (f ∈ cols)).
    + by rewrite decide_True by (by right).
    + rewrite decide_False; [done|].
      intros [?|?]%elem_of_cons; [congruence|done].
Qed.

Lemma merge_sort_elem (keys : list string) k :
  k ∈ merge_sort str_le keys ↔ k ∈ keys.
Proof. by rewrite merge_sort_Permutation. Qed.

(** A cell of the pivot table is the mean over the group, also when the
    feature has no column. *)
Lemma pivot_table_cell (df : list tagged) key vals f :
  (key, vals) ∈ pivot_table df → vals !!! f = pivot_cell df key f.
Proof.
  unfold pivot_table. intros (k & [= -> ->] & Hk)%list_elem_of_fmap.
  rewrite list_to_map_total. case_decide as Hf; [done|].
  unfold pivot_cell. rewrite filter_none; [done|].
  apply Forall_forall. intros t Ht [_ Hfeat]. apply Hf.
  apply merge_sort_elem, unique_elem, list_elem_of_fmap. eauto.
Qed.

Lemma pivot_table_index (df : list tagged) :
  (pivot_table df).*1
  = merge_sort str_le (unique ((λ t : tagged, t.1.1.1) <$> df)).
Proof.
  unfold pivot_table. rewrite <-list_fmap_compose.
  etrans; [|apply list_fmap_id]. by apply list_fmap_ext.
Qed.

Lemma pivot_table_keys (df : list tagged) key :
  key ∈ (pivot_table df).*1 ↔ key ∈ (λ t : tagged, t.1.1.1) <$> df.
Proof. by rewrite pivot_table_index, merge_sort_elem, unique_elem. Qed.

Lemma pivot_table_keys_NoDup (df : list tagged) : NoDup (pivot_table df).*1.
Proof.
  rewrite pivot_table_index, merge_sort_Permutation. apply unique_NoDup.
Qed.

Lemma finite_values_Fin (qs : list Qc) : finite_values (Fin <$> qs) = qs.
Proof.
  induction qs as [|q qs IH]; [done|].
  unfold finite_values in *. rewrite fmap_cons. cbn [omap list_omap].
  by rewrite IH.
Qed.

Lemma nanmean_finite (qs : list Qc) :
  qs ≠ [] →
  nanmean (Fin <$> qs) = Fin (Qc_sum qs / Qc_of_nat (length qs))%Qc.
Proof. unfold nanmean. rewrite finite_values_Fin. by destruct qs. Qed.

Lemma tag_elem (input : list event) (t : tagged) :
  t ∈ tag <$> input → ∃ e, e ∈ input ∧ t = tag e.
Proof. intros (e & -> & He)%list_elem_of_fmap. eauto. Qed.

(** With every item in the catalog the aggregator returns the rows of the
    pivot table, each with the stay of its key. *)
Lemma partition_rows_pivot (input : list event) :
  (∀ e, e ∈ input → is_Some (features_reversed !! itemid e)) →
  ∃ out, partition_rows input = Ok out ∧
    (λ r, (stay_day r, vals r)) <$> out = pivot_table (tag <$> input) ∧
    ∀ r stay day, r ∈ out → stay_day r = stay_day_key stay day →
      stay_id r = stay.
Proof.
  intros Hknown. unfold partition_rows.
  rewrite (mapM_res_Ok_elem _ tag).
  2:{ intros e He. destruct (Hknown e He) as [f Hf]. unfold tag.
      by rewrite Hf. }
  cbn [mbind res_bind].
  set (df := tag <$> input).
  set (m := foldl (λ (m : gmap string Z) (t : tagged), <[t.1.1.1 := t.1.2]> m)
              ∅ df).
  pose (g := λ kv : string * gmap string cell,
          DayRecord kv.1
            (match int (before "_" kv.1) with Ok z => z | Raise _ => 0 end)
            (default 0 (m !! kv.1)) kv.2).
  assert (∀ kv, kv ∈ pivot_table df →
            ∃ e, e ∈ input ∧ kv.1 = ev_stay_day e) as Hkey.
  { intros kv Hkv. apply (list_elem_of_fmap_2 fst) in Hkv.
    apply pivot_table_keys, list_elem_of_fmap in Hkv as (t & Hk & Ht).
    apply tag_elem in Ht as (e & He & ->). eauto. }
  rewrite (mapM_res_Ok_elem _ g).
  2:{ intros kv Hkv. destruct (Hkey kv Hkv) as (e & He & Hk).
      unfold g. rewrite Hk. unfold ev_stay_day.
      rewrite before_stay_day_key, int_str. cbn [mbind res_bind].
      destruct (foldl_insert_is_Some (λ t : tagged, t.1.1.1)
                  (λ t : tagged, t.1.2) df ∅
                  (stay_day_key (ev_stay_id e) (chartday e))) as [z Hz].
      { right. apply list_elem_of_fmap. exists (tag e). split; [done|].
        by apply list_elem_of_fmap_2. }
      fold m in Hz. by rewrite Hz. }
  eexists. split; [done|]. split.
  - rewrite <-list_fmap_compose. etrans; [|apply list_fmap_id].
    apply list_fmap_ext. by intros i [k v] _.
  - intros r stay day (kv & -> & Hkv)%list_elem_of_fmap Hday.
    destruct (Hkey kv Hkv) as (e & He & Hk). unfold g in *. simpl in *.
    rewrite Hday, before_stay_day_key, int_str. done.
Qed.

(** ** When the labeler fails *)

Lemma label_stay_raises (df : frame patient_record) s e :
  NoDup df.*1 →
  label_rows (mask_stay s df).*2 = Raise e → label_stay df s = Raise e.
Proof.
  intros Hnd. unfold label_rows, label_stay, col.
  remember (mask_stay s df) as sub eqn:Esub.
  destruct (index (black <$> sub.*2) 0) as [b|] eqn:Hb; [|cbn [mbind res_bind]; by intros [= ->]].
  assert (sub.*1 ≠ []) as Hne.
  { apply index_fmap_is_Ok in Hb. by destruct sub. }
  destruct (index (age <$> sub.*2) 0) as [a|]; [|cbn [mbind res_bind]; by intros [= ->]].
  destruct (index (gender <$> sub.*2) 0) as [g|]; [|cbn [mbind res_bind]; by intros [= ->]].
  cbn [mbind res_bind].
  case_bool_decide; [done|].
  destruct (or_else _ _) as [pre|]; [|cbn [mbind res_bind]; by intros [= ->]]. cbn [mbind res_bind].
  destruct pre; [done|].
  destruct (mapM _ (drop 1 _)) as [aki1|]; [|cbn [mbind res_bind]; by intros [= ->]]. cbn [mbind res_bind].
  destruct (mapM _ (drop 2 _)) as [aki2|]; [|cbn [mbind res_bind]; by intros [= ->]]. cbn [mbind res_bind].
  remember (0 :: zip_with _ aki1 aki2) as labels eqn:Elabels.
  destruct (index_reverse_nonempty _ Hne) as [last Hlast]. rewrite Hlast.
  cbn [mbind res_bind].
  apply index_reverse_last in Hlast.
  rewrite length_fmap, <-fmap_drop in Hlast.
  assert (mask_stay s (drop_labels [last] df)
          = take (length sub - 1) sub) as Hkept.
  { rewrite <-Hlast, Esub. by apply mask_drop_labels. }
  unfold loc_assign_aki. rewrite Hkept.
  rewrite ?length_take, ?length_fmap, ?length_take.
  case_bool_decide; [done|]. by intros [= ->].
Qed.

Lemma for_each_stay_fails {R} `{RowLaws R}
    (body : frame R → Z → res (frame R)) (g : list R → res (list R))
    ids (df : frame R) s e :
  acts_on_stay body g →
  (∀ df s e, NoDup df.*1 → g (mask_stay s df).*2 = Raise e →
             body df s = Raise e) →
  NoDup ids → NoDup df.*1 →
  s ∈ ids → g (mask_stay s df).*2 = Raise e →
  (∀ s' e', s' ∈ ids → g (mask_stay s' df).*2 = Raise e' → e' = e) →
  for_each_stay body df ids = Raise e.
Proof.
  intros Hacts Hfails. revert df.
  induction ids as [|s0 ids IH]; intros df Hids Hnd Hs Hraise Hsame.
  { by apply elem_of_nil in Hs. }
  apply NoDup_cons in Hids as [Hs0 Hids]. simpl.
  destruct (g (mask_stay s0 df).*2) as [rows0|e0] eqn:Hg0.
  - destruct (Hacts df s0 rows0 Hnd Hg0) as (df' & -> & _ & Hne & Hnd').
    cbn [mbind res_bind].
    assert (s ≠ s0) as Hss0 by (intros ->; congruence).
    apply elem_of_cons in Hs as [?|Hs]; [done|].
    apply IH; [done..| |].
    + by rewrite Hne.
    + intros s' e' Hs' He'. apply (Hsame s'); [by right|].
      rewrite <-(Hne s'); [done|]. by intros ->.
  - rewrite (Hfails df s0 e0 Hnd Hg0). cbn [mbind res_bind].
    f_equal. apply (Hsame s0); [by left|done].
Qed.

Lemma label_rows_single (r : patient_record) :
  label_rows [r] = if bool_decide (age r < 20) then Ok [] else Raise IndexError.
Proof.
  unfold label_rows.
  change (index (black <$> [r]) 0) with (Ok (black r)).
  change (index (age <$> [r]) 0) with (Ok (age r)).
  change (index (gender <$> [r]) 0) with (Ok (gender r)).
  cbn [mbind res_bind]. by case_bool_decide.
Qed.

Lemma label_rows_raises (rows : list patient_record) e :
  rows ≠ [] → label_rows rows = Raise e →
  e = IndexError ∧ ∃ r, rows = [r] ∧ 20 ≤ age r.
Proof.
  intros Hne. destruct rows as [|r0 [|r1 rest]]; [done| |].
  - rewrite label_rows_single. case_bool_decide; [done|].
    intros [= <-]. split; [done|]. exists r0. split; [done|lia].
  - by rewrite label_rows_spec.
Qed.

(** ** The demographic joiner *)

Lemma mapM_res_Forall2 {A B} (f : A → res B) (l : list A) (l' : list B) :
  mapM f l = Ok l' → Forall2 (λ x y, f x = Ok y) l l'.
Proof.
  revert l'. induction l as [|x l IH]; intros l' Hl.
  - cbn in Hl. apply Ok_inj in Hl as <-. constructor.
  - cbn [mapM] in Hl. destruct (f x) as [y|] eqn:Hy; [|done].
    cbn [mbind res_bind] in Hl. destruct (mapM f l) as [ys|]; [|done].
    cbn [mbind mret res_bind res_ret] in Hl. apply Ok_inj in Hl as <-.
    constructor; [done|by apply IH].
Qed.


Lemma mapM_res_Raise_inv {A B} (f : A → res B) (l : list A) e :
  mapM f l = Raise e → ∃ x, x ∈ l ∧ f x = Raise e.
Proof.
  induction l as [|x l IH]; intros Hl; [done|].
  cbn [mapM] in Hl. destruct (f x) as [y|e'] eqn:Hy.
  - cbn [mbind res_bind] in Hl. destruct (mapM f l) as [ys|e'']; [done|].
    cbn [mbind res_bind] in Hl. injection Hl as ->.
    destruct IH as (z & Hz & Hfz); [done|]. exists z. split; [by right|done].
  - cbn [mbind res_bind] in Hl. injection Hl as ->. exists x.
    split; [by left|done].
Qed.

(** A dictionary built from rows holds, for a key, the value of the last
    row with that key. *)
Lemma foldl_insert_lookup `{Countable K} {A V} (key : A → K) (value : A → V)
    (rows : list A) (k : K) :
  foldl (λ (m : gmap K V) row, <[key row := value row]> m) ∅ rows !! k
  = value <$> last (filter (λ r, key r = k) rows).
Proof.
  induction rows as [|r rows IH] using rev_ind; [done|].
  rewrite foldl_app, filter_app. cbn [foldl].
  rewrite filter_cons, filter_nil.
  destruct (decide (key r = k)) as [->|Hne].
  - by rewrite lookup_insert_eq, last_snoc.
  - by rewrite lookup_insert_ne, app_nil_r.
Qed.

Lemma dict_zip_lookup {A V} (key : A → Z) (value : A → V) rows k :
  dict_zip key value rows !! k
  = value <$> last (filter (λ r, key r = k) rows).
Proof. apply foldl_insert_lookup. Qed.


Lemma getitem_Ok {V} (m : gmap Z V) k v : getitem m k = Ok v ↔ m !! k = Some v.
Proof. unfold getitem. destruct (m !! k); split; congruence. Qed.

Lemma getitem_Raise {V} (m : gmap Z V) k e :
  getitem m k = Raise e → e = KeyError ∧ m !! k = None.
Proof. unfold getitem. destruct (m !! k); [done|]. by intros [= <-]. Qed.

Lemma int_Raise s e : int s = Raise e → e = ValueError.
Proof. unfold int. destruct (NilZero.int_of_string s); [done|]. by intros [= <-]. Qed.

(** The word is found exactly in the texts that hold it somewhere, up to the
    case of the letters. *)
Lemma starts_with_ci_spec word s :
  starts_with_ci word s = true ↔
  ∃ mid suf, s = mid +:+ suf ∧ casefold mid = casefold word.
Proof.
  revert s. induction word as [|w word IH]; intros s.
  - split; [|done]. intros _. by exists EmptyString, s.
  - destruct s as [|c s]; cbn [starts_with_ci].
    + split; [done|]. intros (mid & suf & Hs & Hmid).
      destruct mid; [done|]. discriminate Hs.
    + rewrite andb_true_iff, IH. split.
      * intros [Hc%Ascii.eqb_eq (mid & suf & -> & Hmid)].
        exists (String c mid), suf. split; [done|].
        cbn [casefold]. by rewrite Hc, Hmid.
      * intros (mid & suf & Hs & Hmid). destruct mid as [|m mid]; [done|].
        cbn [casefold] in Hmid. injection Hmid as Hm Hmid.
        cbn in Hs. injection Hs as -> ->. split.
        -- by apply Ascii.eqb_eq.
        -- eauto.
Qed.

Lemma contains_ci_spec word s :
  contains_ci word s = true ↔
  ∃ pre mid suf, s = pre +:+ mid +:+ suf ∧ casefold mid = casefold word.
Proof.
  induction s as [|c s IH]; cbn [contains_ci];
    rewrite orb_true_iff, starts_with_ci_spec.
  - split.
    + intros [(mid & suf & ? & ?)|?]; [|done]. by exists EmptyString, mid, suf.
    + intros (pre & mid & suf & Hs & Hmid). left. destruct pre; [|done].
      by exists mid, suf.
  - rewrite IH. split.
    + intros [(mid & suf & ? & ?)|(pre & mid & suf & -> & ?)].
      * by exists EmptyString, mid, suf.
      * by exists (String c pre), mid, suf.
    + intros (pre & mid & suf & Hs & Hmid). destruct pre as [|c' pre].
      * left. by exists mid, suf.
      * right. cbn in Hs. injection Hs as -> ->. by exists pre, mid, suf.
Qed.

Lemma day_record_eta (r : day_record) :
  DayRecord (stay_day r) (stay_id r) (subject_id r) (vals r) = r.
Proof. by destruct r. Qed.

Lemma str_accessor_Ok column column' :
  str_accessor column = Ok column' → column' = column ∧ column ≠ [].
Proof. destruct column; [done|]. by intros [= <-]. Qed.

(** What a successful join did, row by row, on a table that has rows. *)
Lemma add_patient_info_Ok adm icu pat input out :
  add_patient_info adm icu pat input = Ok out →
  input ≠ [] ∧
  Forall2 (λ r p, ∃ stay hadm a g eth,
      int (before "_" (stay_day r)) = Ok stay ∧
      dict_zip icu_stay_id icu_hadm_id icu !! stay = Some hadm ∧
      dict_zip pat_subject_id anchor_age pat !! subject_id r = Some a ∧
      dict_zip pat_subject_id pat_gender pat !! subject_id r = Some g ∧
      dict_zip adm_hadm_id ethnicity adm !! hadm = Some eth ∧
      p = join_row r (stay, hadm, a, g, eth)) input out.
Proof.
  unfold add_patient_info.
  destruct (mapM (λ r, int _) input) as [stays|] eqn:Hstays;
    cbn [mbind res_bind]; [|done].
  destruct (mapM _ stays) as [hadms|] eqn:Hhadms; cbn [mbind res_bind];
    [|done].
  destruct (mapM (λ r, getitem (dict_zip _ anchor_age _) _) input)
    as [ages|] eqn:Hages; cbn [mbind res_bind]; [|done].
  destruct (mapM (λ r, getitem (dict_zip _ pat_gender _) _) input)
    as [genders|] eqn:Hgenders; cbn [mbind res_bind]; [|done].
  destruct (mapM _ hadms) as [eths|] eqn:Heths; cbn [mbind res_bind];
    [|done].
  apply mapM_res_Forall2 in Hstays, Hhadms, Hages, Hgenders, Heths.
  destruct (str_accessor eths) as [eths'|] eqn:Hacc; cbn [mbind res_bind];
    [|done].
  apply str_accessor_Ok in Hacc as [-> Hne].
  intros Hout. apply Ok_inj in Hout as <-. split.
  { intros ->. apply Forall2_nil_inv_l in Hstays as ->.
    apply Forall2_nil_inv_l in Hhadms as ->.
    by apply Forall2_nil_inv_l in Heths. }
  clear Hne.
  revert hadms ages genders eths Hhadms Hages Hgenders Heths.
  induction Hstays as [|r stay input stays Hr _ IH];
    intros hadms ages genders eths Hhadms Hages Hgenders Heths.
  { constructor. }
  inversion Hhadms as [|? hadm ? hadms' Hhadm Hhadms']; subst.
  inversion Hages as [|? a ? ages' Ha Hages']; subst.
  inversion Hgenders as [|? g ? genders' Hg Hgenders']; subst.
  inversion Heths as [|? eth ? eths' Heth Heths']; subst.
  cbn [zip zip_with]. constructor; [|by apply IH].
  exists stay, hadm, a, g, eth. by rewrite <-!getitem_Ok.
Qed.

Lemma Forall2_elem_l {A B} (P : A → B → Prop) l k x :
  Forall2 P l k → x ∈ l → ∃ y, y ∈ k ∧ P x y.
Proof.
  intros HF [i Hi]%list_elem_of_lookup.
  destruct (Forall2_lookup_l _ _ _ _ _ HF Hi) as (y & Hy & HP).
  exists y. split; [by eapply list_elem_of_lookup_2|done].
Qed.

Lemma Forall2_elem_r {A B} (P : A → B → Prop) l k y :
  Forall2 P l k → y ∈ k → ∃ x, x ∈ l ∧ P x y.
Proof.
  intros HF [i Hi]%list_elem_of_lookup.
  destruct (Forall2_lookup_r _ _ _ _ _ HF Hi) as (x & Hx & HP).
  exists x. split; [by eapply list_elem_of_lookup_2|done].
Qed.

(** How a join fails. *)
Lemma add_patient_info_Raise adm icu pat input e :
  add_patient_info adm icu pat input = Raise e →
  (e = ValueError ∧
   ∃ r, r ∈ input ∧ int (before "_" (stay_day r)) = Raise ValueError) ∨
  (e = KeyError ∧ input ≠ [] ∧
   ∀ r, r ∈ input → ∃ stay, int (before "_" (stay_day r)) = Ok stay) ∨
  (e = AttributeError ∧ input = []).
Proof.
  unfold add_patient_info.
  destruct (mapM (λ r, int _) input) as [stays|e0] eqn:Hstays;
    cbn [mbind res_bind].
  2:{ intros [= ->]. left.
      apply mapM_res_Raise_inv in Hstays as (r & Hr & Hint).
      pose proof (int_Raise _ _ Hint) as ->. eauto. }
  intros Hrun. right.
  apply mapM_res_Forall2 in Hstays.
  assert (∀ r, r ∈ input → ∃ stay, int (before "_" (stay_day r)) = Ok stay)
    as Hparse.
  { intros r Hr. destruct (Forall2_elem_l _ _ _ _ Hstays Hr) as (s & _ & ?).
    eauto. }
  assert (∀ {A} (l : list A) (x : A), x ∈ l → l ≠ []) as Hne
    by (intros A l x Hx ->; by apply elem_of_nil in Hx).
  revert Hrun.
  destruct (mapM _ stays) as [hadms|e1] eqn:Hhadms; cbn [mbind res_bind].
  2:{ intros [= ->]. left.
      apply mapM_res_Raise_inv in Hhadms as (x & Hin & Hx).
      apply getitem_Raise in Hx as [-> _]. repeat split; [|done].
      destruct (Forall2_elem_r _ _ _ _ Hstays Hin) as (r & Hr & _). eauto. }
  destruct (mapM (λ r, getitem (dict_zip _ anchor_age _) _) input)
    as [ages|e2] eqn:Hages; cbn [mbind res_bind].
  2:{ intros [= ->]. left.
      apply mapM_res_Raise_inv in Hages as (x & Hin & Hx).
      apply getitem_Raise in Hx as [-> _]. repeat split; eauto. }
  destruct (mapM (λ r, getitem (dict_zip _ pat_gender _) _) input)
    as [genders|e3] eqn:Hgenders; cbn [mbind res_bind].
  2:{ intros [= ->]. left.
      apply mapM_res_Raise_inv in Hgenders as (x & Hin & Hx).
      apply getitem_Raise in Hx as [-> _]. repeat split; eauto. }
  apply mapM_res_Forall2 in Hhadms.
  destruct (mapM _ hadms) as [eths|e4] eqn:Heths; cbn [mbind res_bind].
  2:{ intros [= ->]. left.
      apply mapM_res_Raise_inv in Heths as (x & Hin & Hx).
      apply getitem_Raise in Hx as [-> _]. repeat split; [|done].
      destruct (Forall2_elem_r _ _ _ _ Hhadms Hin) as (stay & Hstay & _).
      destruct (Forall2_elem_r _ _ _ _ Hstays Hstay) as (r & Hr & _). eauto. }
  apply mapM_res_Forall2 in Heths.
  destruct eths as [|eth eths]; cbn [str_accessor mbind res_bind]; [|done].
  intros [= <-]. right. split; [done|].
  apply Forall2_nil_inv_r in Heths as ->.
  apply Forall2_nil_inv_r in Hhadms as ->.
  by apply Forall2_nil_inv_r in Hstays.
Qed.
(** ** Theorems on the baseline table and the KDIGO test *)

(** C7: for every age of at least 20 and flags in {0,1}, [get_baseline]
    returns the cell of the specification's table for the age bracket, the
    race flag and the sex. *)
Theorem get_baseline_table (black age gender : Z) :
  20 ≤ age → black ∈ [0; 1] → gender ∈ [0; 1] →
  ∃ b, age_bracket age = Some b ∧
       get_baseline black age gender
       = baseline_table b (bool_decide (black = 1)) (bool_decide (gender = 1)).
Proof.
  intros Hage Hb Hg. unfold age_bracket, get_baseline.
  repeat (case_bool_decide || case_match); try lia; eauto.
Qed.

(** C7, the two cells quoted by the specification:
    black male aged 30 is 1.4, other female aged 60 is 0.8. *)
Lemma get_baseline_table_witness :
  get_baseline 1 30 1 = dec 1.4 ∧ get_baseline 0 60 0 = dec 0.8.
Proof.
  split.
  - destruct (get_baseline_table 1 30 1) as (b & Hb & ->);
      [lia | set_solver | set_solver |].
    vm_compute in Hb. injection Hb as <-. reflexivity.
  - destruct (get_baseline_table 0 60 0) as (b & Hb & ->);
      [lia | set_solver | set_solver |].
    vm_compute in Hb. injection Hb as <-. reflexivity.
Defined.



(** C9: when both a difference and a level are passed no error is raised;
    the difference alone decides, whatever the level and the demographics. *)
Theorem has_aki_both_supplied (d s : cell) (black age gender : option Z) :
  has_aki (Some d) (Some s) black age gender = Ok (float_ge d (Fin (dec 0.3))).
Proof. reflexivity. Qed.

(** ** Theorems on the stay imputer *)

Lemma creatinine_feature : "creatinine"%string ∈ FEATURES.
Proof. by apply (bool_decide_unpack _). Qed.

Lemma impute_rows_kept (rows : list day_record) :
  impute_rows rows ≠ [] →
  ∃ kept, structural_prefix rows = Some kept ∧
          (∀ f, f ∈ FEATURES → ¬ all_missing f kept) ∧
          impute_rows rows = apply_columns bfill (apply_columns ffill kept).
Proof.
  unfold impute_rows. destruct (structural_prefix rows) as [kept|]; [|done].
  intros Hne. exists kept. split; [done|].
  destruct (fill_or_drop_cases kept) as [(f & _ & _ & Hf)|[Hall Hf]];
    [congruence|done].
Qed.

(** C2: every stay in the output of the imputer has at least three days, and
    its creatinine is a finite number on day 0 and on day 1. *)
Theorem impute_holes_creatinine_defined (t : list day_record) (s : Z) :
  stay_rows s (impute_holes t) ≠ [] →
  (3 ≤ length (stay_rows s (impute_holes t)))%nat ∧
  ∀ i, (i < 2)%nat →
    ∃ q, cells "creatinine" (stay_rows s (impute_holes t)) !! i = Some (Fin q).
Proof.
  rewrite impute_holes_stay.
  intros (kept & Hkept & Hall & ->)%impute_rows_kept.
  apply structural_prefix_kept_length in Hkept.
  split; [by rewrite fill_length|]. intros i Hi.
  rewrite fill_cells by apply creatinine_feature.
  assert (Forall (λ c, isfinite c = true)
            (bfill (ffill (cells "creatinine" kept)))) as Hfin.
  { apply fill_finite. specialize (Hall _ creatinine_feature).
    unfold all_missing in Hall. by destruct (existsb _ _). }
  destruct (bfill (ffill (cells "creatinine" kept)) !! i) as [c|] eqn:Hc.
  - eapply Forall_lookup_1 in Hfin; [|done]. apply isfinite_Fin in Hfin.
    destruct Hfin as [q ->]. eauto.
  - apply lookup_ge_None in Hc.
    rewrite bfill_length, ffill_length in Hc. unfold cells in Hc.
    rewrite length_fmap in Hc. lia.
Qed.

Lemma impute_holes_creatinine_defined_witness :
  ∃ q, cells "creatinine" (stay_rows 1 (impute_holes creatinine_table)) !! 0%nat
       = Some (Fin q).
Proof.
  apply (impute_holes_creatinine_defined creatinine_table 1).
  - vm_compute. discriminate.
  - lia.
Defined.

(** C5: for a stay of at least three days with a finite creatinine from day 2
    on, let k be the first day from day 2 on without creatinine.  If k = 2 the
    stay is dropped; if k > 2 the days from k on are removed and the days
    0..k-1 go on to the fill; without such a k the whole stay goes on. *)
Theorem impute_holes_gap_rule (t : list day_record) (s : Z) :
  (3 ≤ length (stay_rows s t))%nat →
  existsb isfinite (drop 2 (cells "creatinine" (stay_rows s t))) = true →
  (first_gap (cells "creatinine" (stay_rows s t)) 2 →
     stay_rows s (impute_holes t) = []) ∧
  (∀ k, (2 < k)%nat → first_gap (cells "creatinine" (stay_rows s t)) k →
     structural_prefix (stay_rows s t) = Some (take k (stay_rows s t)) ∧
     stay_rows s (impute_holes t) = fill_or_drop (take k (stay_rows s t))) ∧
  (no_gap (cells "creatinine" (stay_rows s t)) →
     structural_prefix (stay_rows s t) = Some (stay_rows s t) ∧
     stay_rows s (impute_holes t) = fill_or_drop (stay_rows s t)).
Proof.
  intros Hlen Hfin. rewrite impute_holes_stay. unfold impute_rows.
  split; [|split].
  - intros Hgap. by rewrite (structural_prefix_gap _ 2 Hlen Hfin Hgap).
  - intros k Hk Hgap. rewrite (structural_prefix_gap _ k Hlen Hfin Hgap).
    by rewrite decide_False by lia.
  - intros Hno. by rewrite (structural_prefix_no_gap _ Hlen Hfin Hno).
Qed.

Lemma impute_holes_gap_rule_witness :
  length (stay_rows 1 (impute_holes creatinine_table)) = 4%nat.
Proof.
  destruct (impute_holes_gap_rule creatinine_table 1) as (_ & Hk & _).
  - vm_compute. lia.
  - by vm_compute.
  - destruct (Hk 4%nat) as [_ ->].
    + lia.
    + split; [lia|]. split; [by vm_compute|].
      intros j Hj. assert (j = 2 ∨ j = 3)%nat as [-> | ->] by lia;
        vm_compute; eauto.
    + by vm_compute.
Defined.

(** C6, as the code has it: when a stay passes the structural checks and
    [kept] is what they keep of it, the stay is dropped if a feature has no
    finite value in [kept]; otherwise each feature column of the output is
    the column of [kept] filled forward and then backward, holds no missing
    value, and all else in the rows is unchanged.  *)
Theorem impute_holes_fill (t : list day_record) (s : Z)
    (kept : list day_record) :
  structural_prefix (stay_rows s t) = Some kept →
  ((∃ f, f ∈ FEATURES ∧ all_missing f kept) →
     stay_rows s (impute_holes t) = []) ∧
  ((∀ f, f ∈ FEATURES → ¬ all_missing f kept) →
     with_vals ∅ <$> stay_rows s (impute_holes t) = with_vals ∅ <$> kept ∧
     ∀ f,
       (f ∈ FEATURES →
          cells f (stay_rows s (impute_holes t)) = bfill (ffill (cells f kept))
          ∧ Forall (λ c, isfinite c = true)
                   (cells f (stay_rows s (impute_holes t)))) ∧
       (f ∉ FEATURES → cells f (stay_rows s (impute_holes t)) = cells f kept)).
Proof.
  intros Hkept. rewrite impute_holes_stay. unfold impute_rows. rewrite Hkept.
  split.
  - intros (f & Hf & Hmiss). by eapply fill_or_drop_dropped.
  - intros Hall. rewrite (fill_or_drop_filled _ Hall). split.
    + change (with_vals ∅) with (row_with (R:=day_record) ∅).
      rewrite !apply_columns_erase; auto using ffill_length, bfill_length.
    + intros f. split; [|apply fill_cells_other].
      intros Hf. rewrite fill_cells by done. split; [done|].
      apply fill_finite. specialize (Hall f Hf). unfold all_missing in Hall.
      by destruct (existsb _ _).
Qed.

(** The column [NaN, 5, NaN, 7, NaN] becomes [5, 5, 5, 7, 7]. *)
Lemma impute_holes_fill_witness :
  cells "glucose" (stay_rows 1 (impute_holes glucose_table))
  = [Fin (dec 5); Fin (dec 5); Fin (dec 5); Fin (dec 7); Fin (dec 7)].
Proof.
  destruct (impute_holes_fill glucose_table 1 (stay_rows 1 glucose_table))
    as [_ Hfill]; [by vm_compute|].
  destruct Hfill as [_ Hcells].
  - apply Forall_forall. apply (bool_decide_unpack _). by vm_compute.
  - destruct (Hcells "glucose"%string) as [[-> _] _].
    + by apply (bool_decide_unpack _).
    + by vm_compute.
Defined.

(** C6, the example as stated: the glucose column [NaN, 5, NaN, 7, NaN] of a
    stay does not become [5, 5, 7, 7, 7]. *)
Lemma impute_holes_fill_counterexample :
  cells "glucose" (stay_rows 1 glucose_table)
  = [NaN; Fin (dec 5); NaN; Fin (dec 7); NaN] ∧
  cells "glucose" (stay_rows 1 (impute_holes glucose_table))
  ≠ [Fin (dec 5); Fin (dec 5); Fin (dec 7); Fin (dec 7); Fin (dec 7)].
Proof.
  split; [by vm_compute|]. vm_compute. intros Heq. discriminate Heq.
Qed.

(** ** Theorems on the AKI labeler *)

(** On a table whose stays have at least three days the labeler returns,
    and every stay of its output is [label_rows] of the stay. *)
Lemma add_aki_labels_stay (t : list patient_record) :
  (∀ s, s ∈ row_sid <$> t → (3 ≤ length (stay_rows s t))%nat) →
  ∃ out, add_aki_labels t = Ok out ∧
    ∀ s, (s ∈ row_sid <$> t → label_rows (stay_rows s t) = Ok (stay_rows s out))
         ∧ (s ∉ row_sid <$> t → stay_rows s out = []).
Proof.
  intros Hlen. apply (stage_spec label_stay label_rows t label_stay_acts).
  intros s Hs. specialize (Hlen s Hs).
  destruct (stay_rows s t) as [|r0 [|r1 rest]]; simpl in Hlen; [lia..|].
  rewrite label_rows_spec. eauto.
Qed.

Lemma stay_rows_present {R} `{Row R} (s : Z) (rows : list R) :
  stay_rows s rows ≠ [] → s ∈ row_sid <$> rows.
Proof.
  intros Hne. destruct (decide (s ∈ row_sid <$> rows)); [done|].
  by rewrite stay_rows_absent in Hne.
Qed.






(** ** Theorems on the outlier clipper *)

(** C1, as the code has it: a pass of the clipper keeps the number of rows
    and leaves every value of a feature column within the 1st and 99th
    percentiles of that column of its input; a second pass changes nothing
    when the percentiles of every feature column of the clipped table are
    those of the input. *)
Theorem transform_outliers_second_pass (t : list patient_record) :
  length (transform_outliers t) = length t ∧
  (∀ f, f ∈ FEATURES →
     Forall (within (quantile (dec 0.01) (cells f t))
                    (quantile (dec 0.99) (cells f t)))
            (cells f (transform_outliers t))) ∧
  ((∀ f, f ∈ FEATURES →
      quantile (dec 0.01) (cells f (transform_outliers t))
      = quantile (dec 0.01) (cells f t) ∧
      quantile (dec 0.99) (cells f (transform_outliers t))
      = quantile (dec 0.99) (cells f t)) →
   transform_outliers (transform_outliers t) = transform_outliers t).
Proof.
  assert (∀ f, f ∈ FEATURES →
     Forall (within (quantile (dec 0.01) (cells f t))
                    (quantile (dec 0.99) (cells f t)))
            (cells f (transform_outliers t))) as Hwithin.
  { intros f Hf. rewrite transform_outliers_rows.
    destruct (clip_fold FEATURES t FEATURES_NoDup) as (_ & _ & Hcells).
    rewrite Hcells, decide_True by done.
    apply Forall_fmap, Forall_forall. intros x _.
    apply clip_cell_within, clip_bounds. }
  split; [|split; [done|]].
  - rewrite transform_outliers_rows.
    by destruct (clip_fold FEATURES t FEATURES_NoDup) as (-> & _).
  - intros Hsame. rewrite (transform_outliers_rows (transform_outliers t)).
    apply clip_fold_fixed. intros f Hf.
    destruct (Hsame f Hf) as [-> ->]. by apply Hwithin.
Qed.

Lemma transform_outliers_second_pass_witness :
  transform_outliers (transform_outliers ramp_table)
  = transform_outliers ramp_table.
Proof.
  apply (proj2 (proj2 (transform_outliers_second_pass ramp_table))).
  apply Forall_forall, (bool_decide_unpack _). by vm_compute.
Defined.

(** C1, as stated: on the creatinine column 0, 10, 20 the first pass gives
    0.2, 10, 19.8; the 1st percentile of that is 0.396, above 0.2, and the
    second pass gives another table. *)
Lemma transform_outliers_counterexample :
  cells "creatinine" (transform_outliers clip_table)
  = [Fin (dec 0.2); Fin (dec 10); Fin (dec 19.8)] ∧
  quantile (dec 0.01) (cells "creatinine" (transform_outliers clip_table))
  = Fin (dec 0.396) ∧
  transform_outliers (transform_outliers clip_table)
  ≠ transform_outliers clip_table.
Proof.
  split; [|split].
  - apply (bool_decide_unpack _). by vm_compute.
  - apply (bool_decide_unpack _). by vm_compute.
  - intros Heq. apply (f_equal (cells "creatinine")) in Heq. revert Heq.
    apply (bool_decide_unpack _). by vm_compute.
Qed.

(** ** Theorems on the feature aggregator *)

(** C10: when every item of the input is in the catalog, the aggregator
    returns one Day-Record per stay and day with an event, and the value of
    a feature in the record of a stay and a day is the mean ([np.nanmean])
    of the values of the events of that stay and day whose item maps to the
    feature, the inch heights (items 226707 and 1394) multiplied by 2.54
    first: NaN when there is none, the sum over the count when all are
    numbers. *)
Theorem partition_rows_mean (input : list event) :
  (∀ e, e ∈ input → is_Some (features_reversed !! itemid e)) →
  ∃ out, partition_rows input = Ok out ∧
    NoDup (stay_day <$> out) ∧
    (∀ key, key ∈ stay_day <$> out ↔ key ∈ ev_stay_day <$> input) ∧
    ∀ r stay day f, r ∈ out → stay_day r = stay_day_key stay day →
      let values :=
        convert <$> filter (λ e, ev_stay_id e = stay ∧ chartday e = day ∧
                                 features_reversed !! itemid e = Some f) input in
      stay_id r = stay ∧
      cell_of f r = nanmean values ∧
      (values = [] → cell_of f r = NaN) ∧
      (∀ qs, qs ≠ [] → values = Fin <$> qs →
         cell_of f r = Fin (Qc_sum qs / Qc_of_nat (length qs))%Qc).
Proof.
  intros Hknown.
  destruct (partition_rows_pivot input Hknown) as (out & Hout & Hpivot & Hstay).
  exists out. split; [done|].
  assert (stay_day <$> out = (pivot_table (tag <$> input)).*1) as Hkeys.
  { rewrite <-Hpivot, <-list_fmap_compose. done. }
  split; [|split].
  - rewrite Hkeys. apply pivot_table_keys_NoDup.
  - intros key. rewrite Hkeys, pivot_table_keys, <-list_fmap_compose. done.
  - intros r stay day f Hr Hday values.
    assert (cell_of f r = nanmean values) as Hmean.
    { assert ((stay_day r, vals r) ∈ pivot_table (tag <$> input)) as Hin.
      { rewrite <-Hpivot.
        by apply (list_elem_of_fmap_2 (λ r, (stay_day r, vals r))). }
      apply (pivot_table_cell _ _ _ f) in Hin.
      change (cell_of f r) with (vals r !!! f). rewrite Hin.
      unfold pivot_cell, values. rewrite filter_fmap_pre, <-list_fmap_compose.
      f_equal. rewrite (filter_iff_elem _
        (λ e, ev_stay_id e = stay ∧ chartday e = day ∧
              features_reversed !! itemid e = Some f)); [done|].
      intros e He. unfold tag. cbn [fst snd]. rewrite Hday.
      destruct (Hknown e He) as [f' Hf']. rewrite Hf'. cbn [default].
      unfold ev_stay_day, id. split.
      - intros [[-> ->]%stay_day_key_inj ->]. done.
      - intros (-> & -> & [= ->]). done. }
    split; [by eapply Hstay|]. split; [done|]. split.
    + intros Hnil. by rewrite Hmean, Hnil.
    + intros qs Hqs Hvals. by rewrite Hmean, Hvals, nanmean_finite.
Qed.

(** The events of the sample give two Day-Records; on the second day the
    height of 70 inches is 177.8 and the glucose the mean 110 of 100 and
    120, and on the first the creatinine is NaN. *)
Lemma partition_rows_mean_witness :
  ∃ out, partition_rows sample_events = Ok out ∧
    stay_day <$> out = ["12_2020-01-01"; "12_2020-01-02"]%string ∧
    cell_of "height" <$> out = [NaN; Fin (dec 177.8)] ∧
    cell_of "glucose" <$> out = [NaN; Fin (dec 110)] ∧
    cell_of "creatinine" <$> out = [NaN; NaN].
Proof.
  destruct (partition_rows_mean sample_events) as (out & Hout & _).
  - apply Forall_forall, (bool_decide_unpack _). by vm_compute.
  - exists out. split; [done|].
    assert (partition_rows sample_events = Ok out) as Hrun by done.
    vm_compute in Hrun. apply Ok_inj in Hrun. subst out.
    repeat split; apply (bool_decide_unpack _); by vm_compute.
Defined.

(** ** Further properties of the stay imputer *)

(** What the imputer returns for a stay depends on the rows of that stay
    alone, wherever they lie in the table and whatever the other stays
    hold. *)
Theorem impute_holes_stay_local (t t' : list day_record) (s : Z) :
  stay_rows s t = stay_rows s t' →
  stay_rows s (impute_holes t) = stay_rows s (impute_holes t').
Proof. intros Heq. by rewrite !impute_holes_stay, Heq. Qed.

Lemma impute_holes_stay_local_witness :
  stay_rows 1 (impute_holes glucose_table)
  = stay_rows 1 (impute_holes (stay_rows 1 glucose_table)).
Proof.
  apply (impute_holes_stay_local glucose_table (stay_rows 1 glucose_table) 1).
  by vm_compute.
Defined.

(** A stay of fewer than three days is dropped. *)
Theorem impute_holes_short_stay (t : list day_record) (s : Z) :
  (length (stay_rows s t) < 3)%nat → stay_rows s (impute_holes t) = [].
Proof.
  intros Hlen. rewrite impute_holes_stay. unfold impute_rows, structural_prefix.
  by rewrite bool_decide_eq_true_2.
Qed.

Lemma impute_holes_short_stay_witness :
  stay_rows 2 (impute_holes creatinine_table) = [].
Proof.
  apply (impute_holes_short_stay creatinine_table 2). vm_compute. lia.
Defined.

(** A stay without a finite creatinine from day 2 on is dropped. *)
Theorem impute_holes_no_late_creatinine (t : list day_record) (s : Z) :
  existsb isfinite (drop 2 (cells "creatinine" (stay_rows s t))) = false →
  stay_rows s (impute_holes t) = [].
Proof.
  intros Hnone. rewrite impute_holes_stay. unfold impute_rows, structural_prefix.
  rewrite Hnone. by case_bool_decide.
Qed.

Lemma impute_holes_no_late_creatinine_witness :
  stay_rows 1 (impute_holes late_table) = [].
Proof. apply (impute_holes_no_late_creatinine late_table 1). by vm_compute. Defined.

Lemma elem_stay_rows {R} `{Row R} (rows : list R) r :
  r ∈ rows → r ∈ stay_rows (row_sid r) rows.
Proof. intros Hr. by apply list_elem_of_filter. Qed.

Lemma cells_elem {R} `{Row R} f (rows : list R) r :
  r ∈ rows → cell_of f r ∈ cells f rows.
Proof. intros Hr. unfold cells. by apply list_elem_of_fmap_2. Qed.

Lemma impute_holes_finite (t : list day_record) r f :
  r ∈ impute_holes t → f ∈ FEATURES → isfinite (cell_of f r) = true.
Proof.
  intros Hr Hf.
  apply elem_stay_rows in Hr. set (s := row_sid r) in *.
  assert (stay_rows s (impute_holes t) ≠ []) as Hne
    by (intros Hnil; rewrite Hnil in Hr; by apply elem_of_nil in Hr).
  rewrite impute_holes_stay in Hr, Hne.
  apply impute_rows_kept in Hne as (kept & _ & Hall & Hfill).
  rewrite Hfill in Hr. apply (cells_elem f) in Hr.
  rewrite fill_cells in Hr by done.
  assert (Forall (λ c, isfinite c = true) (bfill (ffill (cells f kept))))
    as Hfin.
  { apply fill_finite. specialize (Hall f Hf). unfold all_missing in Hall.
    by destruct (existsb _ _). }
  rewrite Forall_forall in Hfin. exact (Hfin _ Hr).
Qed.

(** The output of the imputer is free of gaps: every feature of every row
    is a finite number. *)
Theorem impute_holes_gap_free (t : list day_record) :
  Forall (λ r, Forall (λ f, isfinite (cell_of f r) = true) FEATURES)
         (impute_holes t).
Proof.
  apply Forall_forall. intros r Hr. apply Forall_forall. intros f Hf.
  by apply (impute_holes_finite t).
Qed.

Lemma fill_keeps {R} `{RowLaws R} (rows : list R) :
  Forall2 (λ r' r, row_with ∅ r' = row_with ∅ r ∧
                   ∀ f q, cell_of f r = Fin q → cell_of f r' = Fin q)
          (apply_columns bfill (apply_columns ffill rows)) rows.
Proof.
  apply Forall2_same_length_lookup_2; [apply fill_length|].
  intros i r' r Hr' Hr. split.
  - assert ((row_with ∅ <$> apply_columns bfill (apply_columns ffill rows)) !! i
            = (row_with ∅ <$> rows) !! i) as Heq
      by (rewrite !apply_columns_erase; auto using ffill_length, bfill_length).
    rewrite !list_lookup_fmap, Hr', Hr in Heq. by injection Heq.
  - intros f q Hq.
    assert (cells f rows !! i = Some (Fin q)) as Hcol
      by (unfold cells; by rewrite list_lookup_fmap, Hr, <-Hq).
    assert (cells f (apply_columns bfill (apply_columns ffill rows)) !! i
            = Some (cell_of f r')) as Hcol'
      by (unfold cells; by rewrite list_lookup_fmap, Hr').
    destruct (decide (f ∈ FEATURES)) as [Hf|Hf].
    + rewrite fill_cells in Hcol' by done.
      rewrite (bfill_ffill_keeps _ _ _ Hcol) in Hcol'. by injection Hcol'.
    + rewrite fill_cells_other in Hcol' by done. congruence.
Qed.

(** The rows the imputer returns for a stay are the first rows of the stay,
    in order: all but their float columns is unchanged, and so is every
    value that was a number; only missing values are written. *)
Theorem impute_holes_keeps_observed (t : list day_record) (s : Z) :
  Forall2 (λ r' r, with_vals ∅ r' = with_vals ∅ r ∧
                   ∀ f q, cell_of f r = Fin q → cell_of f r' = Fin q)
    (stay_rows s (impute_holes t))
    (take (length (stay_rows s (impute_holes t))) (stay_rows s t)).
Proof.
  rewrite impute_holes_stay. unfold impute_rows.
  destruct (structural_prefix (stay_rows s t)) as [kept|] eqn:Hkept;
    [|constructor].
  destruct (fill_or_drop_cases kept) as [(f & _ & _ & ->)|[_ ->]];
    [constructor|].
  rewrite fill_length.
  assert (take (length kept) (stay_rows s t) = kept) as ->.
  { apply structural_prefix_inv in Hkept
      as (_ & _ & [[_ ->]|(k & _ & Hk & ->)]).
    - by rewrite firstn_all.
    - rewrite length_take. f_equal. lia. }
  exact (fill_keeps kept).
Qed.

(** The scan of [get_nan_index] returns -1 exactly when no value from index
    2 on is missing, and otherwise the first such index; what lies at
    indices 0 and 1 plays no part. *)
Theorem get_nan_index_scan (series : list cell) :
  (get_nan_index series = -1 ↔ no_gap series) ∧
  (∀ k : nat, get_nan_index series = Z.of_nat k ↔ first_gap series k) ∧
  (∀ a b a' b' rest,
     get_nan_index (a :: b :: rest) = get_nan_index (a' :: b' :: rest)).
Proof.
  split; [|split].
  - split; [|apply get_nan_index_no_gap]. intros Hidx.
    destruct (get_nan_index_cases series) as [[_ ?]|(k & Hk & _)]; [done|lia].
  - intros k. split; [|apply get_nan_index_gap]. intros Hidx.
    destruct (get_nan_index_cases series) as [[? _]|(k' & Hk & Hgap & _)];
      [lia|]. by replace k with k' by lia.
  - done.
Qed.

(** ** Further properties of the AKI labeler *)

Lemma stay_rows_elem_sid {R} `{Row R} (s : Z) (rows : list R) :
  s ∈ row_sid <$> rows → stay_rows s rows ≠ [].
Proof.
  intros (r & -> & Hr)%list_elem_of_fmap Hnil.
  apply elem_stay_rows in Hr. rewrite Hnil in Hr. by apply elem_of_nil in Hr.
Qed.

Lemma add_aki_labels_single_day (t : list patient_record) s r :
  stay_rows s t = [r] → 20 ≤ age r → add_aki_labels t = Raise IndexError.
Proof.
  intros Hs Hage. unfold add_aki_labels.
  rewrite (for_each_stay_fails label_stay label_rows _ _ s IndexError);
    [done|apply label_stay_acts|apply @label_stay_raises|apply unique_NoDup
    |apply read_csv_labels|..].
  - apply stay_ids_elem. fold (to_csv (read_csv t)).
    rewrite to_csv_read_csv. apply stay_rows_present. by rewrite Hs.
  - rewrite mask_stay_rows. fold (to_csv (read_csv t)).
    rewrite to_csv_read_csv, Hs, label_rows_single.
    by rewrite bool_decide_eq_false_2 by lia.
  - intros s' e' Hs'%stay_ids_elem. rewrite mask_stay_rows.
    fold (to_csv (read_csv t)) in *. rewrite to_csv_read_csv in *.
    intros He'. apply label_rows_raises in He' as [-> _]; [done|].
    by apply stay_rows_elem_sid.
Qed.

(** When the labeler returns, every stay of its output is [label_rows] of
    the stay of the input. *)
Lemma add_aki_labels_Ok_stays (t out : list patient_record) :
  add_aki_labels t = Ok out →
  ∀ s, (s ∈ row_sid <$> t → label_rows (stay_rows s t) = Ok (stay_rows s out))
       ∧ (s ∉ row_sid <$> t → stay_rows s out = []).
Proof.
  intros Hout.
  destruct (stage_spec label_stay label_rows t label_stay_acts)
    as (out' & Hout' & Hstays).
  - intros s Hs%stay_rows_elem_sid.
    destruct (label_rows (stay_rows s t)) as [rows|e] eqn:Hrows; [eauto|].
    apply label_rows_raises in Hrows as (_ & r & Hr & Hage); [|done].
    rewrite (add_aki_labels_single_day t s r Hr Hage) in Hout. done.
  - unfold add_aki_labels in Hout. rewrite Hout' in Hout.
    apply Ok_inj in Hout. by subst out'.
Qed.

(** The labeler fails exactly on a stay of a single day whose age is 20 or
    more, where [diffs[0]] does not exist, and then with [IndexError]; the
    assertions of [has_aki] and the length check of the label assignment
    never fail. *)
Theorem add_aki_labels_errors (t : list patient_record) :
  ((∃ s r, stay_rows s t = [r] ∧ 20 ≤ age r) →
     add_aki_labels t = Raise IndexError) ∧
  ((∀ s r, stay_rows s t = [r] → age r < 20) →
     ∃ out, add_aki_labels t = Ok out).
Proof.
  split.
  - intros (s & r & Hs & Hage). by eapply add_aki_labels_single_day.
  - intros Hsingle.
    destruct (stage_spec label_stay label_rows t label_stay_acts)
      as (out & Hout & _); [|by exists out].
    intros s Hs%stay_rows_elem_sid.
    destruct (label_rows (stay_rows s t)) as [rows|e] eqn:Hrows; [eauto|].
    apply label_rows_raises in Hrows as (_ & r & Hr & Hage); [|done].
    specialize (Hsingle s r Hr). lia.
Qed.

Lemma add_aki_labels_errors_witness :
  add_aki_labels single_day_table = Raise IndexError.
Proof.
  apply (proj1 (add_aki_labels_errors single_day_table)).
  exists 2, (sample_patient 2 "2020-01-01" 1.0 45 1 0).
  split; [by vm_compute|]. vm_compute. discriminate.
Defined.

Lemma label_rows_output (rows out : list patient_record) :
  label_rows rows = Ok out →
  (length out ≤ 8)%nat ∧ (length out ≤ length rows - 1)%nat ∧
  Forall2 (λ r' r, with_aki None r' = with_aki None r ∧
                   (aki r' = Some 0 ∨ aki r' = Some 1))
          out (take (length out) rows).
Proof.
  destruct rows as [|r0 [|r1 rest]].
  - done.
  - rewrite label_rows_single. case_bool_decide; [|done].
    intros [= <-]. repeat split; simpl; try lia. constructor.
  - rewrite label_rows_spec. intros Hout%Ok_inj. subst out.
    destruct (_ || _).
    { repeat split; simpl; try lia. constructor. }
    split; [rewrite length_take; lia|].
    split; [rewrite length_take, labelled_length; lia|].
    apply Forall2_same_length_lookup_2;
      [rewrite !length_take, labelled_length; cbn [length]; lia|].
    intros i r' r Hr' Hr.
    apply lookup_take_Some in Hr' as [Hr' _].
    apply lookup_take_Some in Hr as [Hr _].
    unfold labelled in Hr'. rewrite list_lookup_imap in Hr'.
    apply fmap_Some in Hr' as (r'' & Hr'' & ->).
    apply lookup_take_Some in Hr'' as [Hr'' _].
    assert (r'' = r) as -> by congruence.
    split; [done|]. simpl. unfold next_day_label.
    destruct i; [by left|]. destruct (_ || _); auto.
Qed.

(** When the labeler returns, every row of its output carries a label 0 or
    1, and what it returns for a stay is at most 8 of the first days of the
    stay, never the last one, each equal to the row of the input in every
    column but the label. *)
Theorem add_aki_labels_output (t out : list patient_record) :
  add_aki_labels t = Ok out →
  Forall (λ r, aki r = Some 0 ∨ aki r = Some 1) out ∧
  ∀ s, (length (stay_rows s out) ≤ 8)%nat ∧
       (length (stay_rows s out) ≤ length (stay_rows s t) - 1)%nat ∧
       Forall2 (λ r' r, with_aki None r' = with_aki None r)
               (stay_rows s out)
               (take (length (stay_rows s out)) (stay_rows s t)).
Proof.
  intros Hout. pose proof (add_aki_labels_Ok_stays t out Hout) as Hstays.
  assert (∀ s, (length (stay_rows s out) ≤ 8)%nat ∧
       (length (stay_rows s out) ≤ length (stay_rows s t) - 1)%nat ∧
       Forall2 (λ r' r, with_aki None r' = with_aki None r ∧
                   (aki r' = Some 0 ∨ aki r' = Some 1))
               (stay_rows s out)
               (take (length (stay_rows s out)) (stay_rows s t))) as Hall.
  { intros s. destruct (Hstays s) as [Hin Hnotin].
    destruct (decide (s ∈ row_sid <$> t)) as [Hs|Hs].
    - by apply label_rows_output, Hin.
    - rewrite (Hnotin Hs). repeat split; simpl; try lia. constructor. }
  split.
  - apply Forall_forall. intros r Hr. apply elem_stay_rows in Hr.
    destruct (Hall (row_sid r)) as (_ & _ & Hrows).
    apply list_elem_of_lookup in Hr as [i Hi].
    destruct (Forall2_lookup_l _ _ _ _ _ Hrows Hi) as (r0 & _ & _ & Haki).
    done.
  - intros s. destruct (Hall s) as (? & ? & Hrows). repeat split; [done..|].
    eapply Forall2_impl; [exact Hrows|]. by intros ?? [? _].
Qed.

Lemma add_aki_labels_output_witness :
  ∃ out, add_aki_labels labels_table = Ok out ∧
    Forall (λ r, aki r = Some 0 ∨ aki r = Some 1) out ∧
    ∀ s, (length (stay_rows s out) ≤ 8)%nat ∧
         (length (stay_rows s out) ≤ length (stay_rows s labels_table) - 1)%nat ∧
         Forall2 (λ r' r, with_aki None r' = with_aki None r)
                 (stay_rows s out)
                 (take (length (stay_rows s out)) (stay_rows s labels_table)).
Proof.
  destruct (add_aki_labels labels_table) as [out|] eqn:Hrun.
  - exists out. split; [done|]. by apply add_aki_labels_output.
  - vm_compute in Hrun. discriminate Hrun.
Defined.

(** What the labeler returns for a stay depends on the rows of that stay
    alone. *)
Theorem add_aki_labels_stay_local (t t' out out' : list patient_record) s :
  add_aki_labels t = Ok out → add_aki_labels t' = Ok out' →
  stay_rows s t = stay_rows s t' →
  stay_rows s out = stay_rows s out'.
Proof.
  intros Hout Hout' Heq.
  destruct (add_aki_labels_Ok_stays t out Hout s) as [Hin Hnotin].
  destruct (add_aki_labels_Ok_stays t' out' Hout' s) as [Hin' Hnotin'].
  destruct (decide (s ∈ row_sid <$> t)) as [Hs|Hs].
  - assert (s ∈ row_sid <$> t') as Hs'.
    { apply stay_rows_present. rewrite <-Heq. by apply stay_rows_elem_sid. }
    specialize (Hin Hs). specialize (Hin' Hs'). rewrite Heq in Hin.
    rewrite Hin in Hin'. by apply Ok_inj in Hin'.
  - assert (s ∉ row_sid <$> t') as Hs'.
    { intros Hs'%stay_rows_elem_sid. rewrite <-Heq in Hs'.
      by apply stay_rows_present in Hs'. }
    by rewrite Hnotin, Hnotin'.
Qed.

Lemma add_aki_labels_stay_local_witness :
  ∃ out out', add_aki_labels labels_table = Ok out ∧
    add_aki_labels (stay_rows 1 labels_table) = Ok out' ∧
    stay_rows 1 out = stay_rows 1 out'.
Proof.
  destruct (add_aki_labels labels_table) as [out|] eqn:Hrun;
    [|vm_compute in Hrun; discriminate Hrun].
  destruct (add_aki_labels (stay_rows 1 labels_table)) as [out'|] eqn:Hrun';
    [|vm_compute in Hrun'; discriminate Hrun'].
  exists out, out'. split; [done|]. split; [done|].
  apply (add_aki_labels_stay_local labels_table (stay_rows 1 labels_table)
           out out' 1 Hrun Hrun').
  by vm_compute.
Defined.

(** ** Further properties of the baseline table and the KDIGO test *)

Lemma get_baseline_bounds (black age gender : Z) :
  (dec 0.8 ≤ get_baseline black age gender)%Qc ∧
  (get_baseline black age gender ≤ dec 1.5)%Qc.
Proof.
  unfold get_baseline.
  repeat case_bool_decide; split; apply (bool_decide_unpack _); by vm_compute.
Qed.

(** Whatever the arguments, the baseline lies between 0.8 and 1.5: the
    function has no failing case, also for ages and flags outside the
    table. *)
Theorem get_baseline_range (black age gender : Z) :
  (dec 0.8 ≤ get_baseline black age gender)%Qc ∧
  (get_baseline black age gender ≤ dec 1.5)%Qc.
Proof. apply get_baseline_bounds. Qed.

(** An age under 20 or over 54 reads the last row of the table; the guard
    on ages under 20 is the labeler's, not the table's. *)
Theorem get_baseline_last_row (black age gender : Z) :
  age < 20 ∨ 54 < age →
  get_baseline black age gender = get_baseline black 55 gender.
Proof.
  intros Hage. unfold get_baseline.
  rewrite !(bool_decide_eq_false_2 (_ ≤ age ≤ _)) by lia. done.
Qed.

Lemma get_baseline_last_row_witness :
  get_baseline 1 7 1 = get_baseline 1 55 1.
Proof. apply (get_baseline_last_row 1 7 1). left. lia. Defined.

(** The level test against the baseline: a creatinine of 2.25 or more
    triggers for every patient, one under 1.2 for none. *)
Theorem has_aki_level_thresholds (x : Qc) (black age gender : Z) :
  ((dec 2.25 ≤ x)%Qc →
     has_aki None (Some (Fin x)) (Some black) (Some age) (Some gender)
     = Ok true) ∧
  ((x < dec 1.2)%Qc →
     has_aki None (Some (Fin x)) (Some black) (Some age) (Some gender)
     = Ok false).
Proof.
  cbn [has_aki]. unfold float_ge, float_mul.
  cbn [as_double cell_mul cell_ge]. unfold Qc_leb.
  set (threshold := float64 (float64 (float64 (dec 1.5)
                      * float64 (get_baseline black age gender)))).
  assert (float64 (dec 1.2) < threshold ∧ threshold ≤ float64 (dec 2.25))%Qc
    as [Hlo Hhi].
  { unfold threshold, get_baseline.
    repeat case_bool_decide; split; apply (bool_decide_unpack _);
      by vm_compute. }
  split; intros Hx; f_equal.
  - apply bool_decide_eq_true_2.
    apply Qcle_trans with (float64 (dec 2.25)); [done|].
    by apply float64_mono.
  - apply bool_decide_eq_false_2. intros Hle.
    assert (float64 x ≤ float64 (dec 1.2))%Qc as Hmono
      by by apply float64_mono, Qclt_le_weak.
    apply (Qclt_not_le _ _ Hlo). by apply Qcle_trans with (float64 x).
Qed.

Lemma has_aki_level_thresholds_witness :
  has_aki None (Some (Fin (dec 3))) (Some 0) (Some 33) (Some 1) = Ok true.
Proof.
  apply (proj1 (has_aki_level_thresholds (dec 3) 0 33 1)).
  apply (bool_decide_unpack _). by vm_compute.
Defined.

(** A missing creatinine triggers neither test: a comparison with NaN is
    false, so a NaN flows through the labeler as "no AKI". *)
Lemma has_aki_nan (black age gender : Z) :
  has_aki (Some NaN) None None None None = Ok false ∧
  has_aki None (Some NaN) (Some black) (Some age) (Some gender) = Ok false ∧
  (∀ c, aki_by_diff NaN c = false ∧ aki_by_diff c NaN = false).
Proof. repeat split; try done; by destruct c. Qed.

(** ** Further properties of the outlier clipper *)

(** Each feature column of the output is the column of the input clipped
    at the percentiles of that input column: the columns do not interact,
    and the order in which the features are visited plays no part. *)
Theorem transform_outliers_columnwise (t : list patient_record) :
  Forall (λ f, cells f (transform_outliers t)
               = clip_cell (quantile (dec 0.01) (cells f t))
                           (quantile (dec 0.99) (cells f t)) <$> cells f t)
         FEATURES.
Proof.
  apply Forall_forall. intros f Hf. rewrite transform_outliers_rows.
  destruct (clip_fold FEATURES t FEATURES_NoDup) as (_ & _ & Hcells).
  by rewrite Hcells, decide_True.
Qed.

Lemma clip_cell_finite lower upper x :
  isfinite x = true → isfinite (clip_cell lower upper x) = true.
Proof.
  unfold clip_cell, cell_lt, cell_gt.
  destruct x as [|x]; [done|]. intros _.
  destruct lower as [|l], upper as [|u]; repeat case_match; done.
Qed.

Lemma clip_cell_NaN lower upper : clip_cell lower upper NaN = NaN.
Proof. by destruct lower, upper. Qed.

(** The clipper neither fills a missing value nor creates one: a cell of
    the output is NaN exactly where the cell of the input is. *)
Theorem transform_outliers_keeps_missing (t : list patient_record) (f : string) :
  isfinite <$> cells f (transform_outliers t) = isfinite <$> cells f t.
Proof.
  rewrite transform_outliers_rows.
  destruct (clip_fold FEATURES t FEATURES_NoDup) as (_ & _ & Hcells).
  rewrite Hcells. case_decide; [|done].
  rewrite <-list_fmap_compose. apply list_fmap_ext. intros i x _.
  cbn [compose]. destruct x as [|x].
  - by rewrite clip_cell_NaN.
  - by rewrite clip_cell_finite.
Qed.

(** The clipper writes feature columns only: the ids, the demographics and
    the labels of every row, and every other float column, are those of the
    input. *)
Theorem transform_outliers_keeps_rest (t : list patient_record) :
  aki <$> transform_outliers t = aki <$> t ∧
  (λ r, (stay_day (day r), stay_id (day r), subject_id (day r),
         hadm_id r, age r, gender r, black r)) <$> transform_outliers t
  = (λ r, (stay_day (day r), stay_id (day r), subject_id (day r),
           hadm_id r, age r, gender r, black r)) <$> t ∧
  ∀ f, f ∉ FEATURES → cells f (transform_outliers t) = cells f t.
Proof.
  rewrite transform_outliers_rows.
  destruct (clip_fold FEATURES t FEATURES_NoDup) as (_ & Herase & Hcells).
  split; [|split].
  - apply (f_equal (fmap aki)) in Herase.
    by rewrite <-!list_fmap_compose in Herase.
  - apply (f_equal (fmap (λ r, (stay_day (day r), stay_id (day r),
                                subject_id (day r), hadm_id r, age r,
                                gender r, black r)))) in Herase.
    by rewrite <-!list_fmap_compose in Herase.
  - intros f Hf. by rewrite Hcells, decide_False.
Qed.

Lemma transform_outliers_keeps_rest_witness :
  cells "urine" (transform_outliers clip_table) = cells "urine" clip_table.
Proof.
  apply (proj2 (proj2 (transform_outliers_keeps_rest clip_table))).
  apply (bool_decide_unpack _). by vm_compute.
Defined.

Lemma finite_values_elem (column : list cell) q :
  q ∈ finite_values column ↔ Fin q ∈ column.
Proof.
  unfold finite_values. rewrite list_elem_of_omap. split.
  - intros ([|q'] & Hc & [= <-]). done.
  - intros Hq. exists (Fin q). done.
Qed.

(** A percentile is a value between two finite values of the column, so
    clipping never moves a value out of the observed range; and the lower
    percentile is never above the upper one. *)
Theorem quantile_in_range (q1 q2 : Qc) (column : list cell) :
  (0 ≤ q1)%Qc → (q1 ≤ q2)%Qc → (q2 ≤ 1)%Qc →
  cell_lt (quantile q2 column) (quantile q1 column) = false ∧
  ∀ v, quantile q1 column = Fin v →
    ∃ a b, Fin a ∈ column ∧ Fin b ∈ column ∧ (a ≤ v)%Qc ∧ (v ≤ b)%Qc.
Proof.
  intros H0 H12 H1. split; [by apply quantile_mono|].
  unfold quantile.
  pose proof (StronglySorted_merge_sort Qcle (finite_values column)) as Hs.
  pose proof (merge_sort_Permutation Qcle (finite_values column)) as Hperm.
  destruct (merge_sort Qcle (finite_values column)) as [|x0 xs] eqn:Hxs;
    [done|].
  intros v [= <-]. unfold interpolate.
  set (n := length (x0 :: xs)) in *.
  set (h := (q1 * Qc_of_nat (n - 1))%Qc).
  assert (0 ≤ h)%Qc as Hh0.
  { unfold h. qc_to_q.
    assert (0 <= inject_Z (Z.of_nat (n - 1)))%Q
      by (change 0%Q with (inject_Z 0); rewrite <-Zle_Qle; lia).
    nra. }
  assert (h ≤ Qc_of_nat (n - 1))%Qc as Hhn.
  { assert (q1 ≤ 1)%Qc as Hq1 by by etrans.
    unfold h. qc_to_q.
    assert (0 <= inject_Z (Z.of_nat (n - 1)))%Q
      by (change 0%Q with (inject_Z 0); rewrite <-Zle_Qle; lia).
    nra. }
  pose proof (floor_le_nat h _ Hhn) as Hlo.
  destruct (floor_bounds h Hh0) as [Hf0 Hf1].
  set (lo := Z.to_nat (Qfloor h)) in *.
  assert (0 < n)%nat as Hn by (unfold n; simpl; lia).
  assert (nth lo (x0 :: xs) x0 ≤ nth ((lo + 1) `min` (n - 1)) (x0 :: xs) x0)%Qc
    as Hstep by (apply sorted_nth; [done|lia|fold n; lia]).
  destruct (interpolate_between _ _ _ Hstep Hf0 Hf1) as [Hdown Hup].
  exists (nth lo (x0 :: xs) x0), (nth ((lo + 1) `min` (n - 1)) (x0 :: xs) x0).
  split; [|split; [|done]].
  - apply finite_values_elem. rewrite <-Hperm.
    apply list_elem_of_In, nth_In. fold n. lia.
  - apply finite_values_elem. rewrite <-Hperm.
    apply list_elem_of_In, nth_In. fold n. lia.
Qed.

Lemma quantile_in_range_witness :
  cell_lt (quantile (dec 0.99) (cells "creatinine" clip_table))
          (quantile (dec 0.01) (cells "creatinine" clip_table)) = false.
Proof.
  apply (quantile_in_range (dec 0.01) (dec 0.99));
    apply (bool_decide_unpack _); by vm_compute.
Defined.

(** ** Further properties of the feature aggregator *)

Lemma mapM_res_Raise {A B} (f : A → res B) (l : list A) e :
  (∃ x, x ∈ l ∧ f x = Raise e) →
  (∀ x e', x ∈ l → f x = Raise e' → e' = e) →
  mapM f l = Raise e.
Proof.
  induction l as [|x l IH]; intros (y & Hy & Hfy) Hsame.
  { by apply elem_of_nil in Hy. }
  cbn [mapM]. destruct (f x) as [b|e'] eqn:Hfx.
  - cbn. rewrite IH; [done| |].
    + apply elem_of_cons in Hy as [->|Hy]; [congruence|eauto].
    + intros z e' Hz. apply Hsame. by right.
  - cbn. f_equal. apply (Hsame x); [by left|done].
Qed.

(** An event whose item is not in the catalog makes the aggregator fail
    with [KeyError], whatever else the input holds. *)
Theorem partition_rows_unknown_item (input : list event) :
  (∃ e, e ∈ input ∧ features_reversed !! itemid e = None) →
  partition_rows input = Raise KeyError.
Proof.
  intros (e & He & Hnone). unfold partition_rows.
  rewrite (mapM_res_Raise _ _ KeyError); [done| |].
  - exists e. split; [done|]. by rewrite Hnone.
  - intros x e' _. by destruct (features_reversed !! itemid x); intros [=].
Qed.

Lemma partition_rows_unknown_item_witness :
  partition_rows (sample_events ++ [Event 12 5 220045 "2020-01-02" NaN])
  = Raise KeyError.
Proof.
  apply partition_rows_unknown_item.
  exists (Event 12 5 220045 "2020-01-02" NaN). split.
  - apply elem_of_app. right. by left.
  - by vm_compute.
Defined.

(** The inverted catalog maps an item to a feature exactly when the catalog
    lists the item under that feature. *)
Theorem features_reversed_catalog (item : Z) (f : string) :
  features_reversed !! item = Some f ↔
  ∃ ids, (f, ids) ∈ features ∧ item ∈ ids.
Proof.
  set (pairs := features ≫= λ kv, (λ v2, (v2, kv.1)) <$> kv.2).
  assert (features_reversed = list_to_map pairs) as ->
    by (apply (bool_decide_unpack _); by vm_compute).
  assert (NoDup pairs.*1) as Hnd
    by (apply (bool_decide_unpack _); by vm_compute).
  rewrite <-(elem_of_list_to_map _ _ _ Hnd). unfold pairs.
  rewrite list_elem_of_bind. split.
  - intros ([f' ids] & (v2 & [= -> ->] & Hv2)%list_elem_of_fmap & Hkv).
    eauto.
  - intros (ids & Hf & Hitem). exists (f, ids). split; [|done].
    apply list_elem_of_fmap. eauto.
Qed.

(** The key of a Day-Record determines its stay and its day: two events
    share a key exactly when they share both, and the stay id is read back
    from the key. *)
Theorem stay_day_key_faithful (stay stay' : Z) (day day' : string) :
  int (before "_" (stay_day_key stay day)) = Ok stay ∧
  (stay_day_key stay day = stay_day_key stay' day' ↔
   stay = stay' ∧ day = day').
Proof.
  split; [by rewrite before_stay_day_key, int_str|]. split.
  - apply stay_day_key_inj.
  - by intros [-> ->].
Qed.

#[global] Instance str_le_total : Total str_le.
Proof. intros a b. apply String.leb_total. Qed.

(** The Day-Records come out sorted by key, one per key. *)
Theorem partition_rows_sorted (input : list event) (out : list day_record) :
  partition_rows input = Ok out →
  Sorted str_le (stay_day <$> out) ∧ NoDup (stay_day <$> out).
Proof.
  unfold partition_rows.
  destruct (mapM _ input) as [df|]; [|done]. cbn [mbind res_bind].
  set (m := foldl _ ∅ df). intros Hout.
  assert (stay_day <$> out = (pivot_table df).*1) as ->.
  { revert out Hout. generalize (pivot_table df). intros l.
    induction l as [|kv l IH]; intros out Hout.
    - cbn in Hout. by apply Ok_inj in Hout as <-.
    - cbn [mapM] in Hout.
      destruct (int (before "_" kv.1)) as [z|]; [|done].
      cbn [mbind res_bind] in Hout.
      destruct (m !! kv.1) as [subject|]; [|done].
      cbn [mbind res_bind] in Hout.
      destruct (mapM _ l) as [rows|] eqn:Hrows; [|done].
      cbn [mbind mret res_bind res_ret] in Hout. apply Ok_inj in Hout as <-.
      rewrite !fmap_cons. f_equal. by apply IH. }
  split.
  - rewrite pivot_table_index. apply Sorted_merge_sort. apply _.
  - apply pivot_table_keys_NoDup.
Qed.

Lemma partition_rows_sorted_witness :
  ∃ out, partition_rows sample_events = Ok out ∧
         Sorted str_le (stay_day <$> out) ∧ NoDup (stay_day <$> out).
Proof.
  destruct (partition_rows sample_events) as [out|] eqn:Hrun.
  - exists out. split; [done|]. by apply (partition_rows_sorted sample_events).
  - vm_compute in Hrun. discriminate Hrun.
Defined.

(** ** The ids of a Day-Record *)

Lemma partition_rows_known events t1 :
  partition_rows events = Ok t1 →
  ∀ e, e ∈ events → is_Some (features_reversed !! itemid e).
Proof.
  intros Hrun e He. unfold partition_rows in Hrun.
  destruct (mapM _ events) as [df|] eqn:Hdf; [|done].
  apply mapM_res_Forall2 in Hdf.
  destruct (Forall2_elem_l _ _ _ _ Hdf He) as (y & _ & Hy).
  destruct (features_reversed !! itemid e); [done|discriminate].
Qed.

(** [icu_subject_mapping] is written once per event, so a Day-Record has
    the subject of the last event of its key, whose stay it has too. *)
Theorem partition_rows_subject (input : list event) (out : list day_record) :
  partition_rows input = Ok out →
  Forall (λ r, ∃ e,
      last (filter (λ e, ev_stay_day e = stay_day r) input) = Some e ∧
      subject_id r = ev_subject_id e ∧ stay_id r = ev_stay_id e) out.
Proof.
  intros Hrun. pose proof (partition_rows_known _ _ Hrun) as Hknown.
  destruct (partition_rows_pivot input Hknown) as (out' & Hout & _ & Hstay).
  rewrite Hrun in Hout. apply Ok_inj in Hout as <-.
  unfold partition_rows in Hrun.
  rewrite (mapM_res_Ok_elem _ tag) in Hrun.
  2:{ intros e He. destruct (Hknown e He) as [f Hf]. unfold tag.
      by rewrite Hf. }
  cbn [mbind res_bind] in Hrun. apply mapM_res_Forall2 in Hrun.
  apply Forall_forall. intros r Hr.
  destruct (Forall2_elem_r _ _ _ _ Hrun Hr) as (kv & _ & Hkv).
  destruct (int (before "_" kv.1)) as [stay|]; [|done].
  cbn [mbind res_bind] in Hkv.
  destruct (foldl _ ∅ (tag <$> input) !! kv.1) as [subject|] eqn:Hsub; [|done].
  apply Ok_inj in Hkv as <-. cbn [stay_day subject_id stay_id] in *.
  rewrite foldl_fmap in Hsub.
  rewrite (foldl_insert_lookup (λ e, ev_stay_day e) ev_subject_id) in Hsub.
  apply fmap_Some in Hsub as (e & He & ->).
  exists e. split; [done|]. split; [done|].
  assert (e ∈ filter (λ e, ev_stay_day e = kv.1) input) as Hin
    by by apply last_Some_elem_of.
  apply list_elem_of_filter in Hin as [Hkey _].
  by apply (Hstay _ (ev_stay_id e) (chartday e) Hr).
Qed.

Lemma partition_rows_subject_witness :
  ∃ out,
    partition_rows (sample_events
                    ++ [Event 12 6 50931 "2020-01-02 23:00:00" NaN]) = Ok out ∧
    Forall (λ r, ∃ e,
      last (filter (λ e, ev_stay_day e = stay_day r)
              (sample_events
               ++ [Event 12 6 50931 "2020-01-02 23:00:00" NaN])) = Some e ∧
      subject_id r = ev_subject_id e ∧ stay_id r = ev_stay_id e) out.
Proof.
  assert (returned (partition_rows
                      (sample_events
                       ++ [Event 12 6 50931 "2020-01-02 23:00:00" NaN]))
          = true) as Hok by by vm_compute.
  destruct (partition_rows _) as [out|] eqn:Hrun; [|discriminate Hok].
  exists out. split; [done|]. by apply partition_rows_subject.
Defined.

(** ** Properties of the demographic joiner *)

(** A successful join returns the input rows in their order, each with its
    key, subject and float columns unchanged, its stay id read from the key,
    the two flags 0 or 1, and no label yet. *)
Theorem add_patient_info_rows adm icu pat input out :
  add_patient_info adm icu pat input = Ok out →
  Forall2 (λ r p,
      stay_day (day p) = stay_day r ∧ subject_id (day p) = subject_id r ∧
      vals (day p) = vals r ∧
      int (before "_" (stay_day r)) = Ok (stay_id (day p)) ∧
      (gender p = 0 ∨ gender p = 1) ∧ (black p = 0 ∨ black p = 1) ∧
      aki p = None) input out.
Proof.
  intros [_ Hout]%add_patient_info_Ok. eapply Forall2_impl; [exact Hout|].
  intros r p (stay & hadm & a & g & eth & Hstay & _ & _ & _ & _ & ->).
  unfold join_row. cbn [day stay_day subject_id vals stay_id gender black aki].
  repeat split; try done.
  - case_bool_decide; auto.
  - destruct (contains_ci _ eth); auto.
Qed.

Lemma add_patient_info_rows_witness :
  ∃ out,
    add_patient_info sample_admissions sample_icustays sample_patients
      creatinine_table = Ok out ∧
    Forall2 (λ r p,
      stay_day (day p) = stay_day r ∧ subject_id (day p) = subject_id r ∧
      vals (day p) = vals r ∧
      int (before "_" (stay_day r)) = Ok (stay_id (day p)) ∧
      (gender p = 0 ∨ gender p = 1) ∧ (black p = 0 ∨ black p = 1) ∧
      aki p = None) creatinine_table out.
Proof.
  assert (returned (add_patient_info sample_admissions sample_icustays
                      sample_patients creatinine_table) = true) as Hok
    by by vm_compute.
  destruct (add_patient_info sample_admissions sample_icustays sample_patients
              creatinine_table) as [out|] eqn:Hrun; [|discriminate Hok].
  exists out. split; [done|].
  by apply (add_patient_info_rows sample_admissions sample_icustays
              sample_patients).
Defined.

(** The values a successful join writes come from the last row of each
    reference table that carries the key: the admission of the stay, the age
    of the subject, gender 1 exactly for [M], and black 1 exactly when the
    ethnicity of the admission holds the word, in any case of its letters. *)
Theorem add_patient_info_reference adm icu pat input out :
  add_patient_info adm icu pat input = Ok out →
  Forall2 (λ r p,
    (∃ i, last (filter (λ i, icu_stay_id i = stay_id (day p)) icu) = Some i ∧
          hadm_id p = icu_hadm_id i) ∧
    (∃ q, last (filter (λ q, pat_subject_id q = subject_id r) pat) = Some q ∧
          age p = anchor_age q ∧ (gender p = 1 ↔ pat_gender q = "M"%string)) ∧
    (∃ a, last (filter (λ a, adm_hadm_id a = hadm_id p) adm) = Some a ∧
          (black p = 1 ↔
           ∃ pre mid suf, ethnicity a = pre +:+ mid +:+ suf ∧
                          casefold mid = "black"%string))) input out.
Proof.
  intros [_ Hout]%add_patient_info_Ok. eapply Forall2_impl; [exact Hout|].
  intros r p (stay & hadm & a & g & eth & _ & Hhadm & Ha & Hg & Heth & ->).
  rewrite dict_zip_lookup in Hhadm. rewrite dict_zip_lookup in Ha.
  rewrite dict_zip_lookup in Hg. rewrite dict_zip_lookup in Heth.
  apply fmap_Some in Hhadm as (i & Hi & ->).
  apply fmap_Some in Ha as (q & Hq & ->).
  apply fmap_Some in Hg as (q' & Hq' & ->).
  apply fmap_Some in Heth as (row & Hrow & ->).
  assert (q' = q) as -> by congruence.
  unfold join_row. cbn [day stay_id hadm_id age gender black].
  split; [by exists i|]. split.
  - exists q. repeat split; [done|..].
    + by case_bool_decide.
    + intros ->. by rewrite bool_decide_eq_true_2.
  - exists row. split; [done|].
    rewrite <-(contains_ci_spec "black" (ethnicity row)).
    by destruct (contains_ci _ _).
Qed.

Lemma add_patient_info_reference_witness :
  ∃ out,
    add_patient_info sample_admissions sample_icustays sample_patients
      [DayRecord "12_2020-01-01" 0 5 ∅] = Ok out ∧
    Forall2 (λ r p,
      (∃ i, last (filter (λ i, icu_stay_id i = stay_id (day p))
                    sample_icustays) = Some i ∧
            hadm_id p = icu_hadm_id i) ∧
      (∃ q, last (filter (λ q, pat_subject_id q = subject_id r)
                    sample_patients) = Some q ∧
            age p = anchor_age q ∧
            (gender p = 1 ↔ pat_gender q = "M"%string)) ∧
      (∃ a, last (filter (λ a, adm_hadm_id a = hadm_id p)
                    sample_admissions) = Some a ∧
            (black p = 1 ↔
             ∃ pre mid suf, ethnicity a = pre +:+ mid +:+ suf ∧
                            casefold mid = "black"%string)))
      [DayRecord "12_2020-01-01" 0 5 ∅] out.
Proof.
  assert (returned (add_patient_info sample_admissions sample_icustays
                      sample_patients [DayRecord "12_2020-01-01" 0 5 ∅])
          = true) as Hok by by vm_compute.
  destruct (add_patient_info sample_admissions sample_icustays sample_patients
              [DayRecord "12_2020-01-01" 0 5 ∅]) as [out|] eqn:Hrun;
    [|discriminate Hok].
  exists out. split; [done|].
  by apply (add_patient_info_reference sample_admissions sample_icustays
              sample_patients).
Defined.





(** ** The stages one after the other *)

(** The aggregator derives the stay id of a row from its key. *)
Lemma partition_rows_keys events t1 :
  partition_rows events = Ok t1 →
  Forall (λ r, ∃ d, stay_day r = stay_day_key (stay_id r) d) t1.
Proof.
  intros Hrun.
  destruct (partition_rows_pivot events) as (out & Hout & Hpivot & Hstay).
  { by eapply partition_rows_known. }
  rewrite Hrun in Hout. apply Ok_inj in Hout as <-.
  apply Forall_forall. intros r Hr.
  assert (stay_day r ∈ (pivot_table (tag <$> events)).*1) as Hkey.
  { rewrite <-Hpivot, <-list_fmap_compose. apply list_elem_of_fmap.
    by exists r. }
  apply pivot_table_keys in Hkey. rewrite <-list_fmap_compose in Hkey.
  apply list_elem_of_fmap in Hkey as (e & Hkey & _).
  exists (chartday e). by rewrite (Hstay r (ev_stay_id e) (chartday e) Hr Hkey).
Qed.

(** A row of the imputer's output is a row of its input, up to the float
    columns. *)
Lemma impute_holes_row_origin (t : list day_record) r :
  r ∈ impute_holes t → ∃ r0, r0 ∈ t ∧ with_vals ∅ r = with_vals ∅ r0.
Proof.
  intros Hr. apply elem_stay_rows in Hr. set (s := row_sid r) in *.
  assert (stay_rows s (impute_holes t) ≠ []) as Hne
    by (intros Hnil; rewrite Hnil in Hr; by apply elem_of_nil in Hr).
  rewrite impute_holes_stay in Hr, Hne.
  apply impute_rows_kept in Hne as (kept & Hkept & _ & Hfill).
  rewrite Hfill in Hr.
  destruct (Forall2_elem_l _ _ _ _ (fill_keeps kept) Hr) as (r0 & Hr0 & Heq & _).
  exists r0. split; [|done].
  assert (kept ⊆ stay_rows s t) as Hsub.
  { apply structural_prefix_inv in Hkept
      as (_ & _ & [[_ ->]|(k & _ & _ & ->)]); [done|apply subseteq_take]. }
  apply Hsub in Hr0. unfold stay_rows in Hr0.
  by apply list_elem_of_filter in Hr0 as [_ ?].
Qed.

Lemma impute_holes_stay_length (t : list day_record) s :
  s ∈ row_sid <$> impute_holes t →
  (3 ≤ length (stay_rows s (impute_holes t)))%nat.
Proof.
  intros Hs%stay_rows_elem_sid. rewrite impute_holes_stay in *.
  apply impute_rows_kept in Hs as (kept & Hkept & _ & ->).
  rewrite fill_length. by eapply structural_prefix_kept_length.
Qed.

(** On rows whose key names their stay, the joiner leaves the Day-Records
    as they are. *)
Lemma add_patient_info_keyed adm icu pat input out :
  Forall (λ r, ∃ d, stay_day r = stay_day_key (stay_id r) d) input →
  add_patient_info adm icu pat input = Ok out → day <$> out = input.
Proof.
  intros Hkeys [_ Hout]%add_patient_info_Ok.
  induction Hout
    as [|r p input out
         (stay & hadm & a & g & eth & Hstay & _ & _ & _ & _ & ->) _ IH];
    [done|].
  apply Forall_cons in Hkeys as [[d Hd] Hkeys].
  rewrite fmap_cons, IH by done. f_equal.
  rewrite Hd, before_stay_day_key, int_str in Hstay.
  apply Ok_inj in Hstay as <-.
  unfold join_row. cbn [day]. apply day_record_eta.
Qed.

Lemma imputed_keys events t1 :
  partition_rows events = Ok t1 →
  Forall (λ r, ∃ d, stay_day r = stay_day_key (stay_id r) d)
         (impute_holes t1).
Proof.
  intros Hpart%partition_rows_keys. rewrite Forall_forall in Hpart.
  apply Forall_forall. intros r Hr.
  apply impute_holes_row_origin in Hr as (r0 & Hr0 & Heq).
  destruct (Hpart r0 Hr0) as [d Hd]. exists d.
  injection Heq as Hsd Hsid _. by rewrite Hsd, Hsid.
Qed.

Lemma stay_rows_day s (t : list patient_record) :
  stay_rows s (day <$> t) = day <$> stay_rows s t.
Proof.
  unfold stay_rows.
  exact (filter_fmap_pre (λ r : day_record, row_sid r = s) day t).
Qed.

(** After the imputer and the joiner, the labeler returns. *)
Lemma add_aki_labels_after_join adm icu pat (t : list day_record) t3 :
  Forall (λ r, ∃ d, stay_day r = stay_day_key (stay_id r) d) (impute_holes t) →
  add_patient_info adm icu pat (impute_holes t) = Ok t3 →
  ∃ t4, add_aki_labels t3 = Ok t4.
Proof.
  intros Hkeys Hjoin.
  pose proof (add_patient_info_keyed _ _ _ _ _ Hkeys Hjoin) as Hday.
  destruct (add_aki_labels_stay t3) as (t4 & Ht4 & _); [|by exists t4].
  intros s Hs.
  assert (row_sid <$> t3 = row_sid <$> impute_holes t) as Hsid
    by by rewrite <-Hday, <-list_fmap_compose.
  rewrite Hsid in Hs. apply impute_holes_stay_length in Hs.
  by rewrite <-Hday, stay_rows_day, length_fmap in Hs.
Qed.

(** A labelled row is a row of the input with a label 0 or 1. *)
Lemma add_aki_labels_row_origin (t out : list patient_record) r :
  add_aki_labels t = Ok out → r ∈ out →
  (aki r = Some 0 ∨ aki r = Some 1) ∧ ∃ r0, r0 ∈ t ∧ day r = day r0.
Proof.
  intros Hout Hr. apply elem_stay_rows in Hr. set (s := row_sid r) in *.
  destruct (add_aki_labels_Ok_stays t out Hout s) as [Hin Hnotin].
  destruct (decide (s ∈ row_sid <$> t)) as [Hs|Hs].
  - apply label_rows_output in Hin; [|done]. destruct Hin as (_ & _ & Hrows).
    destruct (Forall2_elem_l _ _ _ _ Hrows Hr) as (r0 & Hr0 & Hrest & Haki).
    split; [done|]. exists r0. split; [|exact (f_equal day Hrest)].
    apply subseteq_take in Hr0. unfold stay_rows in Hr0.
    by apply list_elem_of_filter in Hr0 as [_ ?].
  - rewrite (Hnotin Hs) in Hr. by apply elem_of_nil in Hr.
Qed.

(** The clipper keeps a table without missing feature values so. *)
Lemma transform_outliers_finite (t : list patient_record) r f :
  Forall (λ r, isfinite (cell_of f r) = true) t →
  r ∈ transform_outliers t → isfinite (cell_of f r) = true.
Proof.
  intros Hfin Hr. apply (cells_elem f) in Hr.
  rewrite transform_outliers_rows in Hr.
  destruct (clip_fold FEATURES t FEATURES_NoDup) as (_ & _ & Hcells).
  rewrite Hcells in Hr. case_decide.
  - apply list_elem_of_fmap in Hr as (c & -> & Hc).
    apply clip_cell_finite. unfold cells in Hc.
    apply list_elem_of_fmap in Hc as (r0 & -> & Hr0).
    rewrite Forall_forall in Hfin. auto.
  - unfold cells in Hr. apply list_elem_of_fmap in Hr as (r0 & -> & Hr0).
    rewrite Forall_forall in Hfin. auto.
Qed.

Lemma partition_rows_Raise events e :
  partition_rows events = Raise e → e = KeyError.
Proof.
  intros Hrun. pose proof Hrun as Hrun'. unfold partition_rows in Hrun.
  destruct (mapM _ events) as [df|e0] eqn:Hdf.
  - destruct (partition_rows_pivot events) as (out & Hout & _); [|congruence].
    intros ev Hev. apply mapM_res_Forall2 in Hdf.
    destruct (Forall2_elem_l _ _ _ _ Hdf Hev) as (y & _ & Hy).
    destruct (features_reversed !! itemid ev); [done|discriminate].
  - cbn [mbind res_bind] in Hrun. injection Hrun as ->.
    apply mapM_res_Raise_inv in Hdf as (ev & _ & Hev).
    destruct (features_reversed !! itemid ev); [done|]. by injection Hev.
Qed.

Lemma extract_dataset_Ok adm icu pat events out :
  extract_dataset adm icu pat events = Ok out →
  ∃ t1 t3 t4,
    partition_rows events = Ok t1 ∧
    add_patient_info adm icu pat (impute_holes t1) = Ok t3 ∧
    add_aki_labels t3 = Ok t4 ∧ out = transform_outliers t4.
Proof.
  unfold extract_dataset.
  destruct (partition_rows events) as [t1|] eqn:Hpart; cbn [mbind res_bind];
    [|done].
  destruct (add_patient_info _ _ _ _) as [t3|] eqn:Hjoin; cbn [mbind res_bind];
    [|done].
  destruct (add_aki_labels t3) as [t4|] eqn:Hlabel; cbn [mbind res_bind];
    [|done].
  intros Hout%Ok_inj. by exists t1, t3, t4.
Qed.

(** ** Properties of the whole pipeline *)

(** In the pipeline the joiner finds in every key the stay id the row
    already has, so that it only adds columns, and the labeler, which fails
    on a stay of a single day, returns: the imputer has left no such stay. *)
Theorem extract_dataset_labeler_returns adm icu pat events t1 t3 :
  every_feature_seen events →
  partition_rows events = Ok t1 →
  add_patient_info adm icu pat (impute_holes t1) = Ok t3 →
  day <$> t3 = impute_holes t1 ∧ ∃ t4, add_aki_labels t3 = Ok t4.
Proof.
  intros _ Hpart%imputed_keys Hjoin. split.
  - by eapply add_patient_info_keyed.
  - by eapply add_aki_labels_after_join.
Qed.

(** The pipeline fails in two stages only: in the aggregator, with
    [KeyError] on an item outside the catalog, and in the joiner, with
    [KeyError] on a row missing from a reference table or with
    [AttributeError] when the imputer has left no row. *)
Theorem extract_dataset_errors adm icu pat events e :
  every_feature_seen events →
  extract_dataset adm icu pat events = Raise e →
  (e = KeyError ∧
   (partition_rows events = Raise KeyError ∨
    ∃ t1, partition_rows events = Ok t1 ∧ impute_holes t1 ≠ [] ∧
          add_patient_info adm icu pat (impute_holes t1) = Raise KeyError)) ∨
  (e = AttributeError ∧
   ∃ t1, partition_rows events = Ok t1 ∧ impute_holes t1 = []).
Proof.
  intros _. unfold extract_dataset.
  destruct (partition_rows events) as [t1|e1] eqn:Hpart; cbn [mbind res_bind].
  2:{ intros [= ->]. pose proof (partition_rows_Raise _ _ Hpart) as ->. auto. }
  pose proof (imputed_keys _ _ Hpart) as Hkeys.
  destruct (add_patient_info adm icu pat (impute_holes t1)) as [t3|e3] eqn:Hjoin;
    cbn [mbind res_bind].
  - destruct (add_aki_labels_after_join _ _ _ _ _ Hkeys Hjoin) as [t4 ->].
    done.
  - intros [= ->].
    destruct (add_patient_info_Raise _ _ _ _ _ Hjoin)
      as [(_ & r & Hr & Hint)|[(-> & Hne & _)|[-> Hnil]]]; [|eauto 10..].
    rewrite Forall_forall in Hkeys. destruct (Hkeys r Hr) as [d Hd].
    by rewrite Hd, before_stay_day_key, int_str in Hint.
Qed.

(** The dataset the pipeline returns is complete: every row has a label 0
    or 1 and a finite number in every feature column. *)
Theorem extract_dataset_complete adm icu pat events out :
  every_feature_seen events →
  extract_dataset adm icu pat events = Ok out →
  Forall (λ r, (aki r = Some 0 ∨ aki r = Some 1) ∧
               Forall (λ f, isfinite (cell_of f r) = true) FEATURES) out.
Proof.
  intros _ (t1 & t3 & t4 & Hpart & Hjoin & Hlabel & ->)%extract_dataset_Ok.
  pose proof (add_patient_info_keyed _ _ _ _ _ (imputed_keys _ _ Hpart) Hjoin)
    as Hday.
  apply Forall_forall. intros r Hr. split.
  - assert (aki <$> transform_outliers t4 = aki <$> t4) as Haki.
    { rewrite transform_outliers_rows.
      destruct (clip_fold FEATURES t4 FEATURES_NoDup) as (_ & Herase & _).
      apply (f_equal (fmap aki)) in Herase.
      by rewrite <-!list_fmap_compose in Herase. }
    assert (aki r ∈ aki <$> t4) as (r4 & -> & Hr4)%list_elem_of_fmap
      by (rewrite <-Haki; by apply list_elem_of_fmap_2).
    by destruct (add_aki_labels_row_origin _ _ _ Hlabel Hr4).
  - apply Forall_forall. intros f Hf.
    apply (transform_outliers_finite t4); [|done].
    apply Forall_forall. intros r4 Hr4.
    destruct (add_aki_labels_row_origin _ _ _ Hlabel Hr4)
      as (_ & r3 & Hr3 & Heq).
    change (cell_of f r4) with (cell_of f (day r4)). rewrite Heq.
    apply (impute_holes_finite t1); [|done].
    rewrite <-Hday. by apply list_elem_of_fmap_2.
Qed.

Lemma extract_dataset_labeler_returns_witness :
  ∃ t1 t3,
    partition_rows complete_events = Ok t1 ∧
    add_patient_info sample_admissions sample_icustays sample_patients
      (impute_holes t1) = Ok t3 ∧
    day <$> t3 = impute_holes t1 ∧ ∃ t4, add_aki_labels t3 = Ok t4.
Proof.
  assert (returned (t1 ← partition_rows complete_events;
                    add_patient_info sample_admissions sample_icustays
                      sample_patients (impute_holes t1)) = true) as Hok
    by by vm_compute.
  destruct (partition_rows complete_events) as [t1|] eqn:Hpart;
    [|discriminate Hok].
  cbn [mbind res_bind] in Hok.
  destruct (add_patient_info sample_admissions sample_icustays sample_patients
              (impute_holes t1)) as [t3|] eqn:Hjoin; [|discriminate Hok].
  exists t1, t3. split; [done|]. split; [done|].
  apply (extract_dataset_labeler_returns sample_admissions sample_icustays
           sample_patients complete_events t1 t3); [|done..].
  apply (bool_decide_unpack _). by vm_compute.
Defined.

(** Without a patients table the joiner fails with [KeyError]; with the
    events of two days only, the imputer drops the stay and the joiner fails
    with [AttributeError]. *)
Lemma extract_dataset_errors_witness :
  ((KeyError = KeyError ∧
    (partition_rows complete_events = Raise KeyError ∨
     ∃ t1, partition_rows complete_events = Ok t1 ∧ impute_holes t1 ≠ [] ∧
           add_patient_info sample_admissions sample_icustays []
             (impute_holes t1) = Raise KeyError)) ∨
   (KeyError = AttributeError ∧
    ∃ t1, partition_rows complete_events = Ok t1 ∧ impute_holes t1 = [])) ∧
  ((AttributeError = KeyError ∧
    (partition_rows (take 26 complete_events) = Raise KeyError ∨
     ∃ t1, partition_rows (take 26 complete_events) = Ok t1 ∧
           impute_holes t1 ≠ [] ∧
           add_patient_info sample_admissions sample_icustays sample_patients
             (impute_holes t1) = Raise KeyError)) ∨
   (AttributeError = AttributeError ∧
    ∃ t1, partition_rows (take 26 complete_events) = Ok t1 ∧
          impute_holes t1 = [])).
Proof.
  split.
  - apply (extract_dataset_errors sample_admissions sample_icustays []
             complete_events KeyError).
    + apply (bool_decide_unpack _). by vm_compute.
    + by vm_compute.
  - apply (extract_dataset_errors sample_admissions sample_icustays
             sample_patients (take 26 complete_events) AttributeError).
    + apply (bool_decide_unpack _). by vm_compute.
    + by vm_compute.
Defined.

Lemma extract_dataset_complete_witness :
  ∃ out,
    extract_dataset sample_admissions sample_icustays sample_patients
      complete_events = Ok out ∧
    Forall (λ r, (aki r = Some 0 ∨ aki r = Some 1) ∧
                 Forall (λ f, isfinite (cell_of f r) = true) FEATURES) out.
Proof.
  assert (returned (extract_dataset sample_admissions sample_icustays
                      sample_patients complete_events) = true) as Hok
    by by vm_compute.
  destruct (extract_dataset sample_admissions sample_icustays sample_patients
              complete_events) as [out|] eqn:Hrun; [|discriminate Hok].
  exists out. split; [done|].
  apply (extract_dataset_complete sample_admissions sample_icustays
           sample_patients complete_events out); [|done].
  apply (bool_decide_unpack _). by vm_compute.
Defined.
